(** * sst-export-translation: the export handler and the page that calls it

    A shallow embedding of the Electron application: the
    [export-translation] handler of the main process (main.js) with its
    extraction-and-serialisation pipeline, the two picking handlers, the
    windows of the application, the bridge of the preload script
    (preload.js) and the listeners of the page (renderer.js), and their
    properties.

    Text.  A JavaScript string is a sequence of UTF-16 code units.  This
    development covers text whose code units are all below 256 (ISO-8859-1):
    a string is a [list ascii], one [ascii] per code unit.  On that range
    [toLowerCase] and the regular-expression class [\s] are the ones of
    ECMAScript.

    Numbers.  A numeric cell value is an integer [Z]; the handler only
    observes a number through its truthiness and through its conversion to
    a property key. *)

From Stdlib Require Import Ascii String ZArith Lia Bool.
From stdpp Require Import base option list gmap strings pretty sorting.

Open Scope list_scope.

(** ** JavaScript strings *)

Abbreviation jsstring := (list ascii).

Definition str (s : string) : jsstring := list_ascii_of_string s.

Definition LF : ascii := ascii_of_nat 10.
Definition QUOTE : ascii := ascii_of_nat 34.
Definition COLON : ascii := ascii_of_nat 58.
Definition BACKSLASH : ascii := ascii_of_nat 92.

(** [quoted s] is [s] between two double quotes. *)
Definition quoted (s : jsstring) : jsstring := QUOTE :: s ++ [QUOTE].

Module JS.

(** [String.prototype.toLowerCase] on one code unit below 256: the
    upper-case letters are A-Z, U+00C0-U+00D6 and U+00D8-U+00DE, each
    32 below its lower-case form. *)
Definition lower_unit (c : ascii) : ascii :=
  let n := N_of_ascii c in
  if ((65 <=? n) && (n <=? 90) || (192 <=? n) && (n <=? 214)
      || (216 <=? n) && (n <=? 222))%N
  then ascii_of_N (n + 32) else c.

Definition toLowerCase (s : jsstring) : jsstring := map lower_unit s.

(** [s.substring(0, n)] *)
Definition substring0 (n : nat) (s : jsstring) : jsstring := take n s.

(** [parts.join(sep)] *)
Fixpoint join (sep : jsstring) (parts : list jsstring) : jsstring :=
  match parts with
  | [] => []
  | [p] => p
  | p :: ps => p ++ sep ++ join sep ps
  end.

(** The values a SheetJS cell field can hold. *)
Inductive value : Type :=
| VUndefined
| VString (s : jsstring)
| VNumber (n : Z)
| VBoolean (b : bool).

(** ToBoolean *)
Definition truthy (x : value) : bool :=
  match x with
  | VUndefined => false
  | VString s => negb (bool_decide (s = []))
  | VNumber n => negb (n =? 0)%Z
  | VBoolean b => b
  end.

(** [a || b] *)
Definition or_else (a b : value) : value := if truthy a then a else b.

(** [typeof x === "string"] *)
Definition is_string (x : value) : bool :=
  match x with VString _ => true | _ => false end.

(** ToPropertyKey: the string under which [o[x]] reads and writes. *)
Definition to_key (x : value) : jsstring :=
  match x with
  | VUndefined => str "undefined"
  | VString s => s
  | VNumber n => str (pretty n)
  | VBoolean true => str "true"
  | VBoolean false => str "false"
  end.

(** *** Ordinary objects used as maps

    [{}] with string-valued or object-valued properties.  The own
    properties are kept in creation order.  [Object.entries] lists the
    array-index keys first, in ascending numeric order, then the other
    keys in creation order.  The name [__proto__] is no own property:
    it is the accessor inherited from [Object.prototype]. *)

Abbreviation obj A := (list (jsstring * A)).

Definition proto_key : jsstring := str "__proto__".

Definition digit_of (c : ascii) : option N :=
  let n := N_of_ascii c in
  if ((48 <=? n) && (n <=? 57))%N then Some (n - 48)%N else None.

Fixpoint digits_value (acc : N) (s : jsstring) : option N :=
  match s with
  | [] => Some acc
  | c :: s' =>
      match digit_of c with
      | Some d => digits_value (10 * acc + d)%N s'
      | None => None
      end
  end.

(** An array index is a canonical numeric string (no sign, no leading
    zero) of value at most 2^32 - 2. *)
Definition array_index (k : jsstring) : option N :=
  match k with
  | [] => None
  | c :: rest =>
      if bool_decide (c = "0"%char) && negb (bool_decide (rest = []))
      then None
      else match digits_value 0 k with
           | Some n => if (n <=? 4294967294)%N then Some n else None
           | None => None
           end
  end.

Section Objects.
Context {A : Type}.

Fixpoint lookup_own (k : jsstring) (o : obj A) : option A :=
  match o with
  | [] => None
  | (k', x) :: o' => if decide (k = k') then Some x else lookup_own k o'
  end.

(** Define or overwrite the own property [k]; an existing property
    keeps its place in the creation order. *)
Fixpoint upsert (k : jsstring) (x : A) (o : obj A) : obj A :=
  match o with
  | [] => [(k, x)]
  | (k', x') :: o' =>
      if decide (k = k') then (k, x) :: o' else (k', x') :: upsert k x o'
  end.

Definition keys (o : obj A) : list jsstring := o.*1.

Fixpoint insert_by_index (e : N * (jsstring * A))
    (l : list (N * (jsstring * A))) : list (N * (jsstring * A)) :=
  match l with
  | [] => [e]
  | e' :: l' =>
      if (e.1 <=? e'.1)%N then e :: l else e' :: insert_by_index e l'
  end.

Definition sort_by_index (l : list (N * (jsstring * A))) :
    list (N * (jsstring * A)) :=
  foldr insert_by_index [] l.

Definition index_entries (o : obj A) : list (N * (jsstring * A)) :=
  omap (λ e, match array_index e.1 with
             | Some n => Some (n, e)
             | None => None
             end) o.

Definition named_entries (o : obj A) : obj A :=
  filter (λ e, array_index e.1 = None) o.

(** [Object.entries(o)] *)
Definition entries (o : obj A) : list (jsstring * A) :=
  (sort_by_index (index_entries o)).*2 ++ named_entries o.
End Objects.

(** [o[k] = x] where [x] is a string: the inherited [__proto__] setter
    ignores a value that is neither an object nor null. *)
Definition set_string (k x : jsstring) (o : obj jsstring) : obj jsstring :=
  if decide (k = proto_key) then o else upsert k x o.

(** [o[k] = {}]: on [__proto__] this replaces the prototype of [o] and
    defines no own property. *)
Definition set_fresh (k : jsstring) (o : obj (obj jsstring)) :
    obj (obj jsstring) :=
  if decide (k = proto_key) then o else upsert k [] o.

(** [o[lang][k] = x].  [o[lang]] is an own property of [o], or its
    prototype when [lang] is [__proto__] (an object that no enumeration
    of [o] visits), or undefined, on which the assignment throws a
    TypeError ([None]). *)
Definition set_nested (lang k x : jsstring) (o : obj (obj jsstring)) :
    option (obj (obj jsstring)) :=
  if decide (lang = proto_key) then Some o
  else match lookup_own lang o with
       | Some d => Some (upsert lang (set_string k x d) o)
       | None => None
       end.

End JS.

(** ** The key-value pattern of the row loop

    The pattern of [rawValue.match]: a double quote, capture 1 (one or
    more code units other than the double quote), a double quote, any
    white space, a colon, any white space, a double quote, capture 2 (any
    code units at all), a double quote.  The matcher backtracks, in
    continuation style: every quantifier is greedy and gives code units
    back one at a time when what follows it fails. *)

Module Regex.

(** [\s] on code units below 256: TAB, LF, VT, FF, CR, SPACE, NBSP. *)
Definition is_space (c : ascii) : bool :=
  match N_of_ascii c with
  | 9 | 10 | 11 | 12 | 13 | 32 | 160 => true
  | _ => false
  end%N.

(** The class of every code unit but the double quote. *)
Definition not_quote (c : ascii) : bool := negb (bool_decide (c = QUOTE)).

(** [[\s\S]] *)
Definition any (c : ascii) : bool := true.

Section Matcher.
Context {R : Type}.

(** A literal character. *)
Definition chr (c : ascii) (s : jsstring) (k : jsstring → option R) :
    option R :=
  match s with
  | c' :: s' => if decide (c = c') then k s' else None
  | [] => None
  end.

(** [p*], greedy; the continuation receives the matched text and the
    rest of the input. *)
Fixpoint star (p : ascii → bool) (s : jsstring)
    (k : jsstring → jsstring → option R) : option R :=
  match s with
  | c :: s' =>
      if p c then
        match star p s' (λ m r, k (c :: m) r) with
        | Some x => Some x
        | None => k [] s
        end
      else k [] s
  | [] => k [] s
  end.

(** [p+], greedy. *)
Definition plus (p : ascii → bool) (s : jsstring)
    (k : jsstring → jsstring → option R) : option R :=
  match s with
  | c :: s' => if p c then star p s' (λ m r, k (c :: m) r) else None
  | [] => None
  end.
End Matcher.

(** The whole pattern, anchored at the start of [s]; the result is
    (capture 1, capture 2). *)
Definition kv_at (s : jsstring) : option (jsstring * jsstring) :=
  chr QUOTE s (λ s1,
  plus not_quote s1 (λ key s2,
  chr QUOTE s2 (λ s3,
  star is_space s3 (λ _ s4,
  chr COLON s4 (λ s5,
  star is_space s5 (λ _ s6,
  chr QUOTE s6 (λ s7,
  star any s7 (λ value s8,
  chr QUOTE s8 (λ _, Some (key, value)))))))))).

(** [rawValue.match(re)] without the [g] flag: the match at the least
    start index, or null. *)
Fixpoint kv_match (s : jsstring) : option (jsstring * jsstring) :=
  match kv_at s with
  | Some r => Some r
  | None =>
      match s with
      | [] => None
      | _ :: s' => kv_match s'
      end
  end.

End Regex.

(** ** SheetJS worksheets *)

Module XLSX.

(** A cell object: [w] is the formatted text, when the reader produced
    one, and [v] the raw value. *)
Record cell : Type := Cell { w : option jsstring; v : JS.value }.

(** A worksheet: the cell objects by (row, column), both counted from 0
    as [encode_cell] takes them, and the last row of the range decoded
    from [sheet["!ref"]] (none when the sheet has no [!ref], on which
    [decode_range] throws). *)
Record sheet : Type := Sheet {
  cells : gmap (nat * nat) cell;
  ref_end_row : option nat
}.

Record workbook : Type := Workbook { Sheets : gmap jsstring sheet }.

End XLSX.

(** ** The pure part of the handler *)

Module Core.
Import JS XLSX.

Definition sheetName : jsstring := str "json_tranlsation".

(** The column ranges of the two categories. *)
Definition translation_cols : list nat := seq 1 9.
Definition eula_cols : list nat := seq 13 9.

(** [cell.w || cell.v] *)
Definition display_or_raw (c : cell) : value :=
  or_else (match w c with Some s => VString s | None => VUndefined end) (v c).

(** [cell ? cell.w || cell.v : undefined] *)
Definition header_value (c : option cell) : value :=
  match c with
  | Some c => display_or_raw c
  | None => VUndefined
  end.

(** The array [headerRow]: index 0 is a hole, indices 1 to 21 hold the
    values of row 1. *)
Definition headerRow (sh : sheet) : list value :=
  VUndefined :: map (λ col, header_value (cells sh !! (1, col))) (seq 1 21).

(** [headerRow[col]] *)
Definition header_at (hdr : list value) (col : nat) : value :=
  default VUndefined (hdr !! col).

(** The text a data cell contributes: the guards of the row loop
    ([!cell], then [!rawValue || typeof rawValue !== "string"]). *)
Definition cell_text (c : option cell) : option jsstring :=
  match c with
  | None => None
  | Some c =>
      let rawValue := display_or_raw c in
      if negb (truthy rawValue) || negb (is_string rawValue) then None
      else match rawValue with VString s => Some s | _ => None end
  end.

(** The initialisation loops: [if (langName) data[langName] = {}]. *)
Definition init_langs (hdr : list value) (cols : list nat) :
    obj (obj jsstring) :=
  foldl (λ data col,
           let langName := header_at hdr col in
           if truthy langName then set_fresh (to_key langName) data
           else data)
        [] cols.

(** The body of an inner loop of the row loop, for one cell. *)
Definition process_cell (sh : sheet) (hdr : list value) (row : nat)
    (data : obj (obj jsstring)) (col : nat) : option (obj (obj jsstring)) :=
  let langName := header_at hdr col in
  if negb (truthy langName) then Some data
  else match cell_text (cells sh !! (row, col)) with
       | None => Some data
       | Some rawValue =>
           match Regex.kv_match rawValue with
           | Some (key, value) =>
               set_nested (to_key langName) key value data
           | None => Some data
           end
       end.

(** A [for] loop whose body may throw. *)
Fixpoint for_each {S I : Type} (body : S → I → option S) (l : list I)
    (s : S) : option S :=
  match l with
  | [] => Some s
  | i :: l' =>
      match body s i with
      | Some s' => for_each body l' s'
      | None => None
      end
  end.

(** One iteration of the row loop, on (langData, eulaData). *)
Definition process_row (sh : sheet) (hdr : list value)
    (st : obj (obj jsstring) * obj (obj jsstring)) (row : nat) :
    option (obj (obj jsstring) * obj (obj jsstring)) :=
  match for_each (process_cell sh hdr row) translation_cols st.1 with
  | None => None
  | Some langData =>
      match for_each (process_cell sh hdr row) eula_cols st.2 with
      | None => None
      | Some eulaData => Some (langData, eulaData)
      end
  end.

(** The rows [2 .. end_row]. *)
Definition data_rows (end_row : nat) : list nat := seq 2 (end_row - 1).

(** Header resolution and accumulation: (langData, eulaData) as they
    stand after the row loop. *)
Definition accumulate (sh : sheet) (end_row : nat) :
    option (obj (obj jsstring) * obj (obj jsstring)) :=
  let hdr := headerRow sh in
  for_each (process_row sh hdr) (data_rows end_row)
           (init_langs hdr translation_cols, init_langs hdr eula_cols).

(** The folder of a language. *)
Definition folderName (lang : jsstring) : jsstring :=
  if decide (toLowerCase lang = str "italian") then str "ita"
  else substring0 2 (toLowerCase lang).

(** One member line of the template literal. *)
Definition member_line (e : jsstring * jsstring) : jsstring :=
  str "  " ++ quoted e.1 ++ str ": " ++ quoted e.2.

(** The text built by hand and passed to the formatter. *)
Definition jsonString (dict : obj jsstring) : jsstring :=
  str "{" ++ [LF]
  ++ join (str "," ++ [LF]) (map member_line (entries dict))
  ++ [LF] ++ str "}".

End Core.

(** ** The host: file system, path, SheetJS reader and Prettier *)

Module Node.

(** A thrown [Error], by its [message]. *)
Definition error : Type := jsstring.

(** What the handler calls outside itself.  [world] is the state of the
    file system. *)
Class Host : Type := {
  world : Type;
  config : Type;
(** [XLSX.readFile(inputFile, opts)] *)
XLSX_readFile : jsstring → world → error + XLSX.workbook;
(** [fs.existsSync(path)] *)
fs_existsSync : jsstring → world → bool;
(** [fs.mkdirSync(path)] and [fs.mkdirSync(path, { recursive: true })] *)
fs_mkdirSync : jsstring → bool → world → error + world;
(** [fs.writeFileSync(path, data, "utf8")] *)
fs_writeFileSync : jsstring → jsstring → world → error + world;
(** [path.join(a, b)] *)
path_join : jsstring → jsstring → jsstring;
(** [prettier.resolveConfig(__dirname)] *)
prettier_resolveConfig : world → error + config;
(** [prettier.format(source, { ...config, parser: "json", filepath })] *)
prettier_format : jsstring → config → jsstring → error + jsstring
}.

(** The calls that change the file system, as the handler issues them. *)
Inductive call : Type :=
| Mkdir (path : jsstring) (recursive : bool)
| WriteFile (path data : jsstring).

Section Monad.
Context `{Host}.

Record state : Type := State { fs : world; calls : list call }.

(** A computation that reads and changes the file system and may
    throw. *)
Definition M (A : Type) : Type := state → (error + A) * state.

Definition ret {A} (x : A) : M A := λ st, (inr x, st).
Definition throw {A} (e : error) : M A := λ st, (inl e, st).
Definition bind {A B} (m : M A) (k : A → M B) : M B :=
  λ st, match m st with
        | (inr x, st') => k x st'
        | (inl e, st') => (inl e, st')
        end.

(** A call that only reads the world. *)
Definition read {A} (f : world → error + A) : M A :=
  λ st, (f (fs st), st).

(** A pure host function that may throw. *)
Definition lift {A} (r : error + A) : M A := λ st, (r, st).

(** A call that changes the world; it is logged when issued. *)
Definition effect (c : call) (f : world → error + world) : M unit :=
  λ st, match f (fs st) with
        | inr w' => (inr (), State w' (calls st ++ [c]))
        | inl e => (inl e, State (fs st) (calls st ++ [c]))
        end.

Definition existsSync (p : jsstring) : M bool :=
  read (λ w, inr (fs_existsSync p w)).
Definition mkdirSync (p : jsstring) (recursive : bool) : M unit :=
  effect (Mkdir p recursive) (fs_mkdirSync p recursive).
Definition writeFileSync (p data : jsstring) : M unit :=
  effect (WriteFile p data) (fs_writeFileSync p data).

(** A [for ... of] loop threading an accumulator. *)
Fixpoint for_of {S I : Type} (body : S → I → M S) (l : list I) (s : S) :
    M S :=
  match l with
  | [] => ret s
  | i :: l' => bind (body s i) (for_of body l')
  end.
End Monad.

End Node.

Notation "'let*' x ':=' m 'in' k" := (Node.bind m (λ x, k))
  (at level 10, x pattern, m at level 100, k at level 200).
Notation "m ';;' k" := (Node.bind m (λ _, k))
  (at level 100, k at level 200, right associativity).

(** ** The handler *)

Module Handler.
Import JS XLSX Core Node.

(** The object the handler resolves to. *)
Record result : Type := Result {
  success : bool;
  message : jsstring;
  filesCreated : option nat;
  files : option (list jsstring)
}.

Definition sheet_not_found : error :=
  str "Sheet " ++ quoted sheetName ++ str " not found".

(** The TypeError of [decode_range(undefined)]. *)
Definition no_ref_error : error :=
  str "Cannot read properties of undefined (reading 'indexOf')".

(** The TypeError of an assignment to a property of undefined. *)
Definition set_undefined_error : error :=
  str "Cannot set properties of undefined".

Section WithHost.
Context `{Host}.

(** The body of one of the two writing loops, for one entry of
    [Object.entries(data)]; [fileName] is [translation.json] or
    [eula.json]. *)
Definition write_language (outputDir : jsstring) (prettierConfig : config)
    (fileName : jsstring) (createdFiles : list jsstring)
    (entry : jsstring * obj jsstring) : M (list jsstring) :=
  let '(lang, dict) := entry in
  let langFolder := path_join outputDir (folderName lang) in
  let* present := existsSync langFolder in
  (if negb present then mkdirSync langFolder true else ret ());;
  let filePath := path_join langFolder fileName in
  let* formatted :=
    lift (prettier_format (jsonString dict) prettierConfig filePath) in
  writeFileSync filePath formatted;;
  ret (createdFiles ++ [filePath]).

(** The [try] block. *)
Definition export_body (inputFile outputDir : jsstring) :
    M (list jsstring) :=
  let* workbook := read (XLSX_readFile inputFile) in
  let* sheet :=
    match Sheets workbook !! sheetName with
    | Some sheet => ret sheet
    | None => throw sheet_not_found
    end in
  let* end_row :=
    match ref_end_row sheet with
    | Some r => ret r
    | None => throw no_ref_error
    end in
  let* data :=
    match accumulate sheet end_row with
    | Some data => ret data
    | None => throw set_undefined_error
    end in
  let '(langData, eulaData) := data in
  let* present := existsSync outputDir in
  (if negb present then mkdirSync outputDir false else ret ());;
  let* prettierConfig := read prettier_resolveConfig in
  let* createdFiles :=
    for_of (write_language outputDir prettierConfig (str "translation.json"))
           (entries langData) [] in
  let* createdFiles :=
    for_of (write_language outputDir prettierConfig (str "eula.json"))
           (entries eulaData) createdFiles in
  ret createdFiles.

(** The handler of [export-translation]: the [try] block and its
    [catch]. *)
Definition export_translation (inputFile outputDir : jsstring) (w : world) :
    result * state :=
  match export_body inputFile outputDir (State w []) with
  | (inr createdFiles, st) =>
      (Result true (str "Export completed successfully!")
              (Some (length createdFiles)) (Some createdFiles), st)
  | (inl e, st) => (Result false e None None, st)
  end.
(** The path of the file of a language: the two [path.join] of a writing
    loop. *)
Definition file_path (outputDir fileName lang : jsstring) : jsstring :=
  path_join (path_join outputDir (folderName lang)) fileName.

(** The steps of a run, by what the host answers in the world each one
    meets.  [made dir recursive w w'] is the guarded [mkdirSync]: the
    directory is there in [w'], which is [w] itself when [existsSync]
    found it and what [mkdirSync] made of [w] otherwise. *)
Definition made (dir : jsstring) (recursive : bool) (w w' : world) : Prop :=
  (fs_existsSync dir w = true ∧ w' = w)
  ∨ (fs_existsSync dir w = false ∧ fs_mkdirSync dir recursive w = inr w').

(** An iteration of a writing loop that completes: from the world [w] it
    leaves the world [w']. *)
Definition written (outputDir : jsstring) (prettierConfig : config)
    (fileName : jsstring) (entry : jsstring * obj jsstring)
    (w w' : world) : Prop :=
  ∃ w1 formatted,
    made (path_join outputDir (folderName entry.1)) true w w1
    ∧ prettier_format (jsonString entry.2) prettierConfig
        (file_path outputDir fileName entry.1) = inr formatted
    ∧ fs_writeFileSync (file_path outputDir fileName entry.1) formatted w1
      = inr w'.

(** An iteration that throws [e]: its [mkdirSync] does, or the formatter,
    or its [writeFileSync]. *)
Definition iteration_throws (outputDir : jsstring) (prettierConfig : config)
    (fileName : jsstring) (entry : jsstring * obj jsstring)
    (w : world) (e : error) : Prop :=
  (fs_existsSync (path_join outputDir (folderName entry.1)) w = false
   ∧ fs_mkdirSync (path_join outputDir (folderName entry.1)) true w = inl e)
  ∨ (∃ w1,
       made (path_join outputDir (folderName entry.1)) true w w1
       ∧ prettier_format (jsonString entry.2) prettierConfig
           (file_path outputDir fileName entry.1) = inl e)
  ∨ (∃ w1 formatted,
       made (path_join outputDir (folderName entry.1)) true w w1
       ∧ prettier_format (jsonString entry.2) prettierConfig
           (file_path outputDir fileName entry.1) = inr formatted
       ∧ fs_writeFileSync (file_path outputDir fileName entry.1) formatted w1
         = inl e).

(** A writing loop that completes. *)
Inductive loop_done (outputDir : jsstring) (prettierConfig : config)
    (fileName : jsstring) :
    list (jsstring * obj jsstring) → world → world → Prop :=
| loop_done_nil w : loop_done outputDir prettierConfig fileName [] w w
| loop_done_cons entry es w w1 w' :
    written outputDir prettierConfig fileName entry w w1 →
    loop_done outputDir prettierConfig fileName es w1 w' →
    loop_done outputDir prettierConfig fileName (entry :: es) w w'.

(** A writing loop that throws [e] in the iteration that follows [k]
    completed ones. *)
Inductive loop_throws (outputDir : jsstring) (prettierConfig : config)
    (fileName : jsstring) :
    list (jsstring * obj jsstring) → world → error → nat → Prop :=
| loop_throws_here entry es w e :
    iteration_throws outputDir prettierConfig fileName entry w e →
    loop_throws outputDir prettierConfig fileName (entry :: es) w e 0
| loop_throws_later entry es w w1 e k :
    written outputDir prettierConfig fileName entry w w1 →
    loop_throws outputDir prettierConfig fileName es w1 e k →
    loop_throws outputDir prettierConfig fileName (entry :: es) w e (S k).

(** The workbook opens, holds the sheet [sh], and the range of [sh] ends
    at the row [end_row]. *)
Definition opened (inputFile : jsstring) (w : world) (sh : sheet)
    (end_row : nat) : Prop :=
  ∃ wb, XLSX_readFile inputFile w = inr wb
        ∧ Sheets wb !! sheetName = Some sh
        ∧ ref_end_row sh = Some end_row.

(** A step of the run on [inputFile], [outputDir] and the world [w]
    throws [e], after [k] files were written.  The steps are those of the
    [try] block, in its order; the header and row loops are not among
    them, accumulation always returns. *)
Inductive raised (inputFile outputDir : jsstring) (w : world) (e : error) :
    nat → Prop :=
| raised_readFile :
    XLSX_readFile inputFile w = inl e →
    raised inputFile outputDir w e 0
| raised_sheet wb :
    XLSX_readFile inputFile w = inr wb →
    Sheets wb !! sheetName = None →
    e = sheet_not_found →
    raised inputFile outputDir w e 0
| raised_decode_range wb sh :
    XLSX_readFile inputFile w = inr wb →
    Sheets wb !! sheetName = Some sh →
    ref_end_row sh = None →
    e = no_ref_error →
    raised inputFile outputDir w e 0
| raised_mkdir sh end_row :
    opened inputFile w sh end_row →
    fs_existsSync outputDir w = false →
    fs_mkdirSync outputDir false w = inl e →
    raised inputFile outputDir w e 0
| raised_resolveConfig sh end_row w1 :
    opened inputFile w sh end_row →
    made outputDir false w w1 →
    prettier_resolveConfig w1 = inl e →
    raised inputFile outputDir w e 0
| raised_translation sh end_row w1 prettierConfig langData eulaData k :
    opened inputFile w sh end_row →
    accumulate sh end_row = Some (langData, eulaData) →
    made outputDir false w w1 →
    prettier_resolveConfig w1 = inr prettierConfig →
    loop_throws outputDir prettierConfig (str "translation.json")
      (entries langData) w1 e k →
    raised inputFile outputDir w e k
| raised_eula sh end_row w1 prettierConfig langData eulaData w2 k :
    opened inputFile w sh end_row →
    accumulate sh end_row = Some (langData, eulaData) →
    made outputDir false w w1 →
    prettier_resolveConfig w1 = inr prettierConfig →
    loop_done outputDir prettierConfig (str "translation.json")
      (entries langData) w1 w2 →
    loop_throws outputDir prettierConfig (str "eula.json")
      (entries eulaData) w2 e k →
    raised inputFile outputDir w e (length (entries langData) + k).

(** No step throws: the run goes through every step and leaves the
    world [w']. *)
Definition completed (inputFile outputDir : jsstring) (w w' : world) : Prop :=
  ∃ sh end_row langData eulaData w1 prettierConfig w2,
    opened inputFile w sh end_row
    ∧ accumulate sh end_row = Some (langData, eulaData)
    ∧ made outputDir false w w1
    ∧ prettier_resolveConfig w1 = inr prettierConfig
    ∧ loop_done outputDir prettierConfig (str "translation.json")
        (entries langData) w1 w2
    ∧ loop_done outputDir prettierConfig (str "eula.json")
        (entries eulaData) w2 w'.

(** The write [pd] (path, data) is the file of [entry] (language,
    dictionary): its path is the one of the language, its data what the
    formatter made of the text built for the dictionary. *)
Definition emitted (prettierConfig : config) (outputDir fileName : jsstring)
    (entry : jsstring * obj jsstring) (pd : jsstring * jsstring) : Prop :=
  pd.1 = file_path outputDir fileName entry.1
  ∧ prettier_format (jsonString entry.2) prettierConfig pd.1 = inr pd.2.
End WithHost.

(** The [writeFileSync] calls of a log, in order: path and data. *)
Definition writes (cs : list call) : list (jsstring * jsstring) :=
  omap (λ c, match c with
             | WriteFile p data => Some (p, data)
             | Mkdir _ _ => None
             end) cs.

End Handler.

(** ** JSON texts (RFC 8259)

    The reference against which the text built by the handler is read: a
    recursive-descent parser of the JSON grammar.  A string is kept as the
    text between its quotes, escapes not decoded; a number as its text.
    Every recursive call is on a strictly shorter input, so a fuel above
    the length of the text never runs out. *)

Module Json.

#[local] Set Warnings "-register-all".

Inductive json : Type :=
| JNull
| JBool (b : bool)
| JNumber (raw : jsstring)
| JString (raw : jsstring)
| JArray (items : list json)
| JObject (members : list (jsstring * json)).

(** ws = space, horizontal tab, line feed, carriage return *)
Definition is_ws (c : ascii) : bool :=
  match N_of_ascii c with
  | 9 | 10 | 13 | 32 => true
  | _ => false
  end%N.

Fixpoint skip_ws (s : jsstring) : jsstring :=
  match s with
  | c :: s' => if is_ws c then skip_ws s' else s
  | [] => []
  end.

Definition is_digit (c : ascii) : bool :=
  let n := N_of_ascii c in ((48 <=? n) && (n <=? 57))%N.

Definition is_hex (c : ascii) : bool :=
  let n := N_of_ascii c in
  ((48 <=? n) && (n <=? 57) || (65 <=? n) && (n <=? 70)
   || (97 <=? n) && (n <=? 102))%N.

(** The code units that may follow a backslash, [u] apart. *)
Definition is_simple_escape (c : ascii) : bool :=
  match N_of_ascii c with
  | 34 | 92 | 47 | 98 | 102 | 110 | 114 | 116 => true
  | _ => false
  end%N.

(** Where the scan of a string body stands. *)
Inductive scan_state : Type :=
| Plain
| Escaped
| Hex (remaining : nat).

(** One code unit of a string body other than the closing quote; [None]
    when it is not allowed there. *)
Definition scan_step (st : scan_state) (c : ascii) : option scan_state :=
  match st with
  | Plain =>
      if decide (c = BACKSLASH) then Some Escaped
      else if (N_of_ascii c <? 32)%N then None
      else Some Plain
  | Escaped =>
      if is_simple_escape c then Some Plain
      else if decide (c = "u"%char) then Some (Hex 3)
      else None
  | Hex n =>
      if is_hex c then Some (match n with 0 => Plain | S n' => Hex n' end)
      else None
  end.

(** The body of a string, the opening quote being read: the body and
    what follows the closing quote. *)
Fixpoint scan_string (st : scan_state) (acc : jsstring) (s : jsstring) :
    option (jsstring * jsstring) :=
  match s with
  | [] => None
  | c :: s' =>
      match st with
      | Plain =>
          if decide (c = QUOTE) then Some (reverse acc, s')
          else match scan_step st c with
               | Some st' => scan_string st' (c :: acc) s'
               | None => None
               end
      | _ =>
          match scan_step st c with
          | Some st' => scan_string st' (c :: acc) s'
          | None => None
          end
      end
  end.

(** [s] can stand between the quotes of a JSON string as it is: no bare
    quote, no bare control character, every backslash starting a legal
    escape. *)
Fixpoint body_ok_from (st : scan_state) (s : jsstring) : bool :=
  match s with
  | [] => match st with Plain => true | _ => false end
  | c :: s' =>
      match st with
      | Plain =>
          if decide (c = QUOTE) then false
          else match scan_step st c with
               | Some st' => body_ok_from st' s'
               | None => false
               end
      | _ =>
          match scan_step st c with
          | Some st' => body_ok_from st' s'
          | None => false
          end
      end
  end.

Definition body_ok (s : jsstring) : bool := body_ok_from Plain s.

Fixpoint span_digits (s : jsstring) : jsstring * jsstring :=
  match s with
  | c :: s' =>
      if is_digit c then let '(ds, r) := span_digits s' in (c :: ds, r)
      else ([], s)
  | [] => ([], [])
  end.

(** number = [ minus ] int [ frac ] [ exp ] *)
Definition scan_number (s : jsstring) : option (jsstring * jsstring) :=
  let '(sign, s1) :=
    match s with
    | c :: s' => if decide (c = "-"%char) then ([c], s') else ([], s)
    | [] => ([], s)
    end in
  let '(int, s2) := span_digits s1 in
  match int with
  | [] => None
  | d :: ds =>
      if bool_decide (d = "0"%char) && negb (bool_decide (ds = [])) then None
      else
        let frac :=
          match s2 with
          | c :: s' =>
              if decide (c = "."%char) then
                let '(fs, r) := span_digits s' in
                match fs with [] => None | _ => Some (c :: fs, r) end
              else Some ([], s2)
          | [] => Some ([], s2)
          end in
        match frac with
        | None => None
        | Some (fr, s3) =>
            let exp :=
              match s3 with
              | c :: s' =>
                  if bool_decide (c = "e"%char) || bool_decide (c = "E"%char) then
                    let '(sg, s'') :=
                      match s' with
                      | c' :: t =>
                          if bool_decide (c' = "+"%char) || bool_decide (c' = "-"%char)
                          then ([c'], t) else ([], s')
                      | [] => ([], s')
                      end in
                    let '(es, r) := span_digits s'' in
                    match es with [] => None | _ => Some (c :: sg ++ es, r) end
                  else Some ([], s3)
              | [] => Some ([], s3)
              end in
            match exp with
            | None => None
            | Some (ex, s4) => Some (sign ++ int ++ fr ++ ex, s4)
            end
        end
  end.

(** [s] starts with the literal [lit]: what follows it. *)
Fixpoint strip_prefix (lit s : jsstring) : option jsstring :=
  match lit, s with
  | [], _ => Some s
  | c :: lit', c' :: s' => if decide (c = c') then strip_prefix lit' s' else None
  | _ :: _, [] => None
  end.

Fixpoint parse_value (fuel : nat) (s : jsstring) : option (json * jsstring) :=
  match fuel with
  | 0 => None
  | S fuel' =>
      match skip_ws s with
      | [] => None
      | c :: s1 =>
          if decide (c = "{"%char) then
            match skip_ws s1 with
            | c2 :: s2 =>
                if decide (c2 = "}"%char) then Some (JObject [], s2)
                else match parse_members fuel' s1 with
                     | Some (ms, r) => Some (JObject ms, r)
                     | None => None
                     end
            | [] => None
            end
          else if decide (c = "["%char) then
            match skip_ws s1 with
            | c2 :: s2 =>
                if decide (c2 = "]"%char) then Some (JArray [], s2)
                else match parse_elements fuel' s1 with
                     | Some (xs, r) => Some (JArray xs, r)
                     | None => None
                     end
            | [] => None
            end
          else if decide (c = QUOTE) then
            match scan_string Plain [] s1 with
            | Some (raw, r) => Some (JString raw, r)
            | None => None
            end
          else if decide (c = "t"%char) then
            match strip_prefix (str "rue") s1 with
            | Some r => Some (JBool true, r)
            | None => None
            end
          else if decide (c = "f"%char) then
            match strip_prefix (str "alse") s1 with
            | Some r => Some (JBool false, r)
            | None => None
            end
          else if decide (c = "n"%char) then
            match strip_prefix (str "ull") s1 with
            | Some r => Some (JNull, r)
            | None => None
            end
          else
            match scan_number (c :: s1) with
            | Some (raw, r) => Some (JNumber raw, r)
            | None => None
            end
      end
  end
with parse_members (fuel : nat) (s : jsstring) :
    option (list (jsstring * json) * jsstring) :=
  match fuel with
  | 0 => None
  | S fuel' =>
      match skip_ws s with
      | c :: s1 =>
          if decide (c = QUOTE) then
            match scan_string Plain [] s1 with
            | Some (k, s2) =>
                match skip_ws s2 with
                | c3 :: s3 =>
                    if decide (c3 = COLON) then
                      match parse_value fuel' s3 with
                      | Some (x, s4) =>
                          match skip_ws s4 with
                          | c5 :: s5 =>
                              if decide (c5 = ","%char) then
                                match parse_members fuel' s5 with
                                | Some (ms, r) => Some ((k, x) :: ms, r)
                                | None => None
                                end
                              else if decide (c5 = "}"%char) then
                                Some ([(k, x)], s5)
                              else None
                          | [] => None
                          end
                      | None => None
                      end
                    else None
                | [] => None
                end
            | None => None
            end
          else None
      | [] => None
      end
  end
with parse_elements (fuel : nat) (s : jsstring) :
    option (list json * jsstring) :=
  match fuel with
  | 0 => None
  | S fuel' =>
      match parse_value fuel' s with
      | Some (x, s1) =>
          match skip_ws s1 with
          | c2 :: s2 =>
              if decide (c2 = ","%char) then
                match parse_elements fuel' s2 with
                | Some (xs, r) => Some (x :: xs, r)
                | None => None
                end
              else if decide (c2 = "]"%char) then Some ([x], s2)
              else None
          | [] => None
          end
      | None => None
      end
  end.

(** JSON-text = ws value ws *)
Definition parse (s : jsstring) : option json :=
  match parse_value (S (length s)) s with
  | Some (x, r) => if decide (skip_ws r = []) then Some x else None
  | None => None
  end.

Definition valid (s : jsstring) : bool := bool_decide (is_Some (parse s)).

End Json.

(** ** A host to run the handler on

    [path.posix.join], a file system of directories and regular files, a
    table of readable workbooks, and a formatter standing for Prettier: it
    rejects a text that is no JSON text and returns an accepted one
    followed by a line feed (the layout of [jsonString] being the
    formatter's own), the empty object on one line. *)

Module Posix.

Definition SLASH : ascii := ascii_of_nat 47.

(** [s.split("/")] *)
Fixpoint split_go (cur : jsstring) (s : jsstring) : list jsstring :=
  match s with
  | [] => [reverse cur]
  | c :: s' =>
      if decide (c = SLASH) then reverse cur :: split_go [] s'
      else split_go (c :: cur) s'
  end.

Definition split (s : jsstring) : list jsstring := split_go [] s.

(** One segment of [normalizeString]; the stack holds the segments kept
    so far, the last one first. *)
Definition push_segment (allowAboveRoot : bool) (stack : list jsstring)
    (seg : jsstring) : list jsstring :=
  if decide (seg = []) then stack
  else if decide (seg = str ".") then stack
  else if decide (seg = str "..") then
    match stack with
    | top :: rest =>
        if decide (top = str "..") then seg :: stack else rest
    | [] => if allowAboveRoot then [seg] else []
    end
  else seg :: stack.

Definition segments (allowAboveRoot : bool) (p : jsstring) : list jsstring :=
  reverse (foldl (push_segment allowAboveRoot) [] (split p)).

Definition normalize (p : jsstring) : jsstring :=
  if decide (p = []) then str "."
  else
    let isAbsolute := bool_decide (head p = Some SLASH) in
    let trailingSeparator := bool_decide (last p = Some SLASH) in
    let body := JS.join [SLASH] (segments (negb isAbsolute) p) in
    if decide (body = []) then
      if isAbsolute then [SLASH]
      else if trailingSeparator then str "./" else str "."
    else
      let body := if trailingSeparator then body ++ [SLASH] else body in
      if isAbsolute then SLASH :: body else body.

(** [path.join(a, b)] *)
Definition join (a b : jsstring) : jsstring :=
  if decide (a = []) then (if decide (b = []) then str "." else normalize b)
  else if decide (b = []) then normalize a
  else normalize (a ++ SLASH :: b).

(** The location a path names, as the segments from the root; the
    working directory is the root. *)
Definition resolve (p : jsstring) : list jsstring := segments false p.

End Posix.

Module Sample.
Import Node.

Record disk : Type := Disk {
  dirs : gset (list jsstring);
  regular : gmap (list jsstring) jsstring;
  workbooks : gmap jsstring XLSX.workbook
}.

Definition is_dir (loc : list jsstring) (d : disk) : bool :=
  bool_decide (loc = []) || bool_decide (loc ∈ dirs d).

Definition is_file (loc : list jsstring) (d : disk) : bool :=
  bool_decide (is_Some (regular d !! loc)).

Definition parent (loc : list jsstring) : list jsstring :=
  take (length loc - 1) loc.

(** The proper prefixes of [loc] and [loc] itself, shortest first. *)
Definition ancestors (loc : list jsstring) : list (list jsstring) :=
  map (λ n, take n loc) (seq 1 (length loc)).

Definition errno (code syscall p : jsstring) : error :=
  code ++ str ", " ++ syscall ++ str " '" ++ p ++ str "'".

Definition ENOENT : jsstring := str "ENOENT: no such file or directory".
Definition EEXIST : jsstring := str "EEXIST: file already exists".
Definition ENOTDIR : jsstring := str "ENOTDIR: not a directory".
Definition EISDIR : jsstring := str "EISDIR: illegal operation on a directory".

Definition exists_ (p : jsstring) (d : disk) : bool :=
  let loc := Posix.resolve p in is_dir loc d || is_file loc d.

Definition mkdir (p : jsstring) (recursive : bool) (d : disk) : error + disk :=
  let loc := Posix.resolve p in
  if recursive then
    if is_dir loc d then inr d
    else if is_file loc d then inl (errno EEXIST (str "mkdir") p)
    else if existsb (λ a, is_file a d) (ancestors loc)
    then inl (errno ENOTDIR (str "mkdir") p)
    else inr (Disk (list_to_set (ancestors loc) ∪ dirs d) (regular d)
                   (workbooks d))
  else
    if is_dir loc d || is_file loc d then inl (errno EEXIST (str "mkdir") p)
    else if is_file (parent loc) d then inl (errno ENOTDIR (str "mkdir") p)
    else if negb (is_dir (parent loc) d) then inl (errno ENOENT (str "mkdir") p)
    else inr (Disk ({[loc]} ∪ dirs d) (regular d) (workbooks d)).

Definition write (p data : jsstring) (d : disk) : error + disk :=
  let loc := Posix.resolve p in
  if is_dir loc d then inl (errno EISDIR (str "open") p)
  else if is_file (parent loc) d then inl (errno ENOTDIR (str "open") p)
  else if negb (is_dir (parent loc) d) then inl (errno ENOENT (str "open") p)
  else inr (Disk (dirs d) (<[loc := data]> (regular d)) (workbooks d)).

Definition readFile (p : jsstring) (d : disk) : error + XLSX.workbook :=
  match workbooks d !! p with
  | Some wb => inr wb
  | None => inl (errno ENOENT (str "open") p)
  end.

Definition format (source : jsstring) (_ : unit) (_ : jsstring) :
    error + jsstring :=
  match Json.parse source with
  | Some (Json.JObject []) => inr (str "{}" ++ [LF])
  | Some _ => inr (source ++ [LF])
  | None => inl (str "SyntaxError: Unexpected token")
  end.

#[export] Instance host : Host := {|
  world := disk;
  config := unit;
  XLSX_readFile := readFile;
  fs_existsSync := exists_;
  fs_mkdirSync := mkdir;
  fs_writeFileSync := write;
  path_join := Posix.join;
  prettier_resolveConfig := λ _, inr ();
  prettier_format := format
|}.

(** A sheet from its cells, with the range ending at [end_row]. *)
Definition sheet_of (l : list (nat * nat * XLSX.cell)) (end_row : nat) :
    XLSX.sheet :=
  XLSX.Sheet (list_to_map l) (Some end_row).

(** A text cell as the reader gives it without formatted text. *)
Definition text (s : jsstring) : XLSX.cell := XLSX.Cell None (JS.VString s).

(** The text [key: value] with both parts between double quotes. *)
Definition pair_text (k x : jsstring) : jsstring :=
  quoted k ++ str ": " ++ quoted x.

(** A disk with the directory [/out] and one workbook at [/in.xlsx]
    holding [sh] under the expected name. *)
Definition disk_with (sh : XLSX.sheet) : disk :=
  Disk {[ [str "out"] ]} ∅
       {[ str "/in.xlsx" := XLSX.Workbook {[ Core.sheetName := sh ]} ]}.

(** The scenario of the specification: English and Italian in columns 1
    and 2, one greeting each in the first data row. *)
Definition greetings : XLSX.sheet :=
  sheet_of [ ((1, 1), text (str "English")); ((1, 2), text (str "Italian"));
             ((2, 1), text (pair_text (str "hello") (str "Hi there")));
             ((2, 2), text (pair_text (str "hello") (str "Ciao"))) ] 2.


(** Two rows giving a value to the key [__proto__]. *)
Definition proto_rows : XLSX.sheet :=
  sheet_of [ ((1, 1), text (str "English"));
             ((2, 1), text (pair_text JS.proto_key (str "first")));
             ((3, 1), text (pair_text JS.proto_key (str "second"))) ] 3.

(** A column whose header text is [__proto__]. *)
Definition proto_header : XLSX.sheet :=
  sheet_of [ ((1, 1), text JS.proto_key);
             ((2, 1), text (pair_text (str "hello") (str "Hi"))) ] 2.

(** A numeric header: the reader gives the number 5 and no formatted
    text. *)
Definition numeric_header : XLSX.sheet :=
  sheet_of [ ((1, 1), XLSX.Cell None (JS.VNumber 5)) ] 2.

(** A value holding a double quote: the cell text is the key [a], a
    colon, and [x], a quote, [y] between quotes. *)
Definition quote_in_value : jsstring := str "x" ++ [QUOTE] ++ str "y".

(** A key given twice to English, in rows 2 and 3. *)
Definition overwritten : XLSX.sheet :=
  sheet_of [ ((1, 1), text (str "English"));
             ((2, 1), text (pair_text (str "k") (str "old")));
             ((3, 1), text (pair_text (str "k") (str "new"))) ] 3.

(** A disk whose workbook has no sheet of the expected name. *)
Definition disk_other_sheet : disk :=
  Disk {[ [str "out"] ]} ∅
       {[ str "/in.xlsx" := XLSX.Workbook {[ str "Sheet1" := greetings ]} ]}.

(** Two languages whose names start with the same two letters. *)
Definition shared_folder : XLSX.sheet :=
  sheet_of [ ((1, 1), text (str "Chinese Simplified"));
             ((1, 2), text (str "Chinese Traditional"));
             ((2, 1), text (pair_text (str "hello") (str "ni hao")));
             ((2, 2), text (pair_text (str "hello") (str "nei hou"))) ] 2.

(** The cells of [greetings] and cells the handler does not look at: a
    title in row 0, column A, a header and a pair between the two column
    ranges, a header past column 21, a pair below the last row of the
    range. *)
Definition with_notes : XLSX.sheet :=
  sheet_of [ ((0, 0), text (str "Translations"));
             ((1, 0), text (str "Key"));
             ((1, 1), text (str "English")); ((1, 2), text (str "Italian"));
             ((1, 10), text (str "Notes")); ((1, 22), text (str "German"));
             ((2, 1), text (pair_text (str "hello") (str "Hi there")));
             ((2, 2), text (pair_text (str "hello") (str "Ciao")));
             ((2, 10), text (pair_text (str "hello") (str "a note")));
             ((3, 1), text (pair_text (str "bye") (str "Bye"))) ] 2.

(** A key that comes back: [b], [a], [b] down the column of English. *)
Definition revisited : XLSX.sheet :=
  sheet_of [ ((1, 1), text (str "English"));
             ((2, 1), text (pair_text (str "b") (str "1")));
             ((3, 1), text (pair_text (str "a") (str "2")));
             ((4, 1), text (pair_text (str "b") (str "3"))) ] 4.

(** A second language whose only value holds a double quote: the text
    built for it is no JSON. *)
Definition broken_second : XLSX.sheet :=
  sheet_of [ ((1, 1), text (str "English")); ((1, 2), text (str "Italian"));
             ((2, 1), text (pair_text (str "hello") (str "Hi")));
             ((2, 2), text (pair_text (str "a") quote_in_value)) ] 2.

End Sample.

(** ** Notions the statements use *)

Module Spec.
Import JS XLSX Core.

(** The longest prefix of [s] in the class [p], and the rest. *)
Fixpoint span (p : ascii → bool) (s : jsstring) : jsstring * jsstring :=
  match s with
  | c :: s' =>
      if p c then let '(m, r) := span p s' in (c :: m, r) else ([], s)
  | [] => ([], [])
  end.

(** [s] cut at its last double quote: what precedes it and what follows
    it. *)
Fixpoint split_last_quote (s : jsstring) : option (jsstring * jsstring) :=
  match s with
  | [] => None
  | c :: s' =>
      match split_last_quote s' with
      | Some (a, b) => Some (c :: a, b)
      | None => if decide (c = QUOTE) then Some ([], s') else None
      end
  end.

Definition spaces (s : jsstring) : Prop :=
  Forall (λ c, Regex.is_space c = true) s.

(** The pattern occurs in [s] after [pre], with the captures [key] and
    [value], and [post] following the closing quote. *)
Definition occurrence (s pre key value post : jsstring) : Prop :=
  ∃ ws1 ws2,
    s = pre ++ quoted key ++ ws1 ++ [COLON] ++ ws2 ++ quoted value ++ post
    ∧ key ≠ [] ∧ (QUOTE ∉ key) ∧ spaces ws1 ∧ spaces ws2.

(** The member lines of a list of entries, joined as [jsonString] joins
    them. *)
Definition members_text (es : list (jsstring * jsstring)) : jsstring :=
  join (str "," ++ [LF]) (map member_line es).

(** The members of the JSON object that holds the entries [es] verbatim. *)
Definition as_members (es : list (jsstring * jsstring)) :
    list (jsstring * Json.json) :=
  map (λ e, (e.1, Json.JString e.2)) es.

(** The two categories of the sheet. *)
Inductive category : Type := Translation | Eula.

Definition cols_of (cat : category) : list nat :=
  match cat with Translation => translation_cols | Eula => eula_cols end.

Definition data_of (cat : category)
    (st : obj (obj jsstring) * obj (obj jsstring)) : obj (obj jsstring) :=
  match cat with Translation => st.1 | Eula => st.2 end.

Definition fileName_of (cat : category) : jsstring :=
  match cat with
  | Translation => str "translation.json"
  | Eula => str "eula.json"
  end.

(** The language a column feeds: the property key of its header value,
    when that value is truthy. *)
Definition column_language (sh : sheet) (col : nat) : option jsstring :=
  let langName := header_at (headerRow sh) col in
  if truthy langName then Some (to_key langName) else None.

(** The languages of a column range, in column order. *)
Definition languages (sh : sheet) (cols : list nat) : list jsstring :=
  omap (column_language sh) cols.

(** The pair a data cell parses to, if any. *)
Definition cell_pair (sh : sheet) (row col : nat) :
    option (jsstring * jsstring) :=
  cell_text (cells sh !! (row, col)) ≫= Regex.kv_match.

(** The value stored under [key] in the dictionary of [lang]. *)
Definition stored (lang key : jsstring) (data : obj (obj jsstring)) :
    option jsstring :=
  lookup_own lang data ≫= lookup_own key.

(** The cell (row', col') is scanned after the cell (row, col). *)
Definition later (row col row' col' : nat) : Prop :=
  row < row' ∨ (row = row' ∧ col < col').


End Spec.

(** ** A dictionary as the assignments of its language *)

Module Replay.
Import JS XLSX Core Spec.

(** The pair the cell (row, col) assigns into the dictionary of [lang],
    if any. *)
Definition cell_writes (sh : sheet) (row : nat) (lang : jsstring)
    (col : nat) : list (jsstring * jsstring) :=
  if decide (column_language sh col = Some lang)
  then option_list (cell_pair sh row col)
  else [].

(** The pairs the row loop assigns into the dictionary of [lang], in the
    order of the scan: row by row, and in a row column by column. *)
Definition language_writes (sh : sheet) (end_row : nat) (cat : category)
    (lang : jsstring) : list (jsstring * jsstring) :=
  flat_map (λ row, flat_map (cell_writes sh row lang) (cols_of cat))
           (data_rows end_row).

(** The assignments [d[key] = value], in order. *)
Definition replay (ws : list (jsstring * jsstring)) (d : obj jsstring) :
    obj jsstring :=
  foldl (λ d kv, set_string kv.1 kv.2 d) d ws.

(** The keys of a list in the order of their first occurrence. *)
Definition first_seen (ks : list jsstring) : list jsstring :=
  foldl (λ acc k, if decide (k ∈ acc) then acc else acc ++ [k]) [] ks.

End Replay.

(** ** The calls of the writing loops *)

Module Footprint.
Import JS XLSX Core Node Handler Spec.

Section WithHost.
Context `{Host}.

(** The calls a writing loop issues for a language: making its folder
    and writing its file. *)
Inductive language_call (outputDir fileName lang : jsstring) : call → Prop :=
| call_mkdir :
    language_call outputDir fileName lang
      (Mkdir (path_join outputDir (folderName lang)) true)
| call_writeFile data :
    language_call outputDir fileName lang
      (WriteFile (file_path outputDir fileName lang) data).

(** The write [pd] is the file of the job [job]. *)
Definition emitted_job (prettierConfig : config) (outputDir : jsstring)
    (job : jsstring * (jsstring * obj jsstring))
    (pd : jsstring * jsstring) : Prop :=
  emitted prettierConfig outputDir job.1 job.2 pd.
End WithHost.

(** The files of an export, in the order of the two writing loops: the
    name of the file and the entry (language, dictionary) it is for. *)
Definition jobs (langData eulaData : obj (obj jsstring)) :
    list (jsstring * (jsstring * obj jsstring)) :=
  map (pair (fileName_of Translation)) (entries langData)
  ++ map (pair (fileName_of Eula)) (entries eulaData).
End Footprint.

(** ** The dialogs of the main process *)

Module Dialog.

(** What [dialog.showOpenDialog] takes and what it resolves to. *)
Record FileFilter : Type := Filter {
  name : jsstring;
  extensions : list jsstring
}.

Record OpenDialogOptions : Type := Options {
  properties : list jsstring;
  filters : list FileFilter
}.

Record OpenDialogReturnValue : Type := Returned {
  canceled : bool;
  filePaths : list jsstring
}.

End Dialog.

(** ** The bridge of the preload script *)

Module Preload.

(** [ipcRenderer.invoke(channel, ...args)] *)
Inductive invocation : Type :=
| Invoke (channel : jsstring) (args : list jsstring).

Definition selectFile : invocation := Invoke (str "select-file") [].

Definition selectDestination : invocation :=
  Invoke (str "select-destination") [].

(** [exportTranslation] has two parameters; [more] are the arguments a
    caller passes beyond them. *)
Definition exportTranslation (inputFile outputDir : jsstring)
    (more : list jsstring) : invocation :=
  Invoke (str "export-translation") [inputFile; outputDir].

End Preload.

(** ** The handlers of the main process *)

Module Main.
Import Dialog Preload Node Handler.

(** The end of both handlers: [result.filePaths[0]] when the dialog was
    not cancelled and gave a path, null otherwise. *)
Definition first_path (result : OpenDialogReturnValue) : option jsstring :=
  if negb (canceled result) && (0 <? length (filePaths result))%nat
  then filePaths result !! 0%nat
  else None.

(** The handler of [select-file]. *)
Definition select_file
    (showOpenDialog : OpenDialogOptions → OpenDialogReturnValue) :
    option jsstring :=
  first_path
    (showOpenDialog
       (Options [str "openFile"]
                [Filter (str "Excel Files") [str "xlsx"; str "xls"];
                 Filter (str "All Files") [str "*"]])).

(** The handler of [select-destination]. *)
Definition select_destination
    (showOpenDialog : OpenDialogOptions → OpenDialogReturnValue) :
    option jsstring :=
  first_path
    (showOpenDialog (Options [str "openDirectory"; str "createDirectory"] [])).

(** [ipcMain.handle]: what the main process answers to an invocation of
    [export-translation].  The handler binds its first two arguments and
    ignores the others; with fewer than two a parameter is undefined,
    which this development leaves out. *)
Definition handled `{Host} (c : invocation) (w : world) :
    option (result * state) :=
  match c with
  | Invoke channel (inputFile :: outputDir :: _) =>
      if decide (channel = str "export-translation")
      then Some (export_translation inputFile outputDir w)
      else None
  | _ => None
  end.

End Main.

(** ** The renderer script

    The state of the page as the script reads and writes it: its two
    variables, the [value] of the fields, the export button, the storage,
    the alerts shown so far, and the submit handlers suspended at their
    [await].  A listener runs to its end, or to its [await], before
    another one starts. *)

Module Renderer.
Import Dialog Preload Handler.

(** The key of the storage. *)
Definition savedDestinationPath : jsstring := str "savedDestinationPath".

(** A submit handler suspended at its [await]: the invocation it waits
    for and its [originalText]. *)
Record pending : Type := Pending {
  invoked : invocation;
  originalText : jsstring
}.

Record page : Type := Page {
  selectedFilePath : option jsstring;
  selectedDestPath : option jsstring;
  inputFileField : jsstring;
  destinationField : jsstring;
  templateSelect : jsstring;
  exportBtn_disabled : bool;
  exportBtn_textContent : jsstring;
  localStorage : gmap jsstring jsstring;
  alerts : list jsstring;
  suspended : list pending
}.

(** The page when the top level of the script has run: both variables
    are null and no handler is suspended; the rest is as the document
    and the storage have it. *)
Definition started (doc : page) : page :=
  {| selectedFilePath := None;
     selectedDestPath := None;
     inputFileField := inputFileField doc;
     destinationField := destinationField doc;
     templateSelect := templateSelect doc;
     exportBtn_disabled := exportBtn_disabled doc;
     exportBtn_textContent := exportBtn_textContent doc;
     localStorage := localStorage doc;
     alerts := alerts doc;
     suspended := [] |}.

(** [alert(text)] *)
Definition alert (text : jsstring) (p : page) : page :=
  {| selectedFilePath := selectedFilePath p;
     selectedDestPath := selectedDestPath p;
     inputFileField := inputFileField p;
     destinationField := destinationField p;
     templateSelect := templateSelect p;
     exportBtn_disabled := exportBtn_disabled p;
     exportBtn_textContent := exportBtn_textContent p;
     localStorage := localStorage p;
     alerts := alerts p ++ [text];
     suspended := suspended p |}.

(** The listener of [DOMContentLoaded]: [getItem] gives null or a
    string, and the empty string is falsy. *)
Definition loaded (p : page) : page :=
  match localStorage p !! savedDestinationPath with
  | Some (c :: s) =>
      let savedDestPath := c :: s in
      {| selectedFilePath := selectedFilePath p;
         selectedDestPath := Some savedDestPath;
         inputFileField := inputFileField p;
         destinationField := savedDestPath;
         templateSelect := templateSelect p;
         exportBtn_disabled := exportBtn_disabled p;
         exportBtn_textContent := exportBtn_textContent p;
         localStorage := localStorage p;
         alerts := alerts p;
         suspended := suspended p |}
  | _ => p
  end.

(** The click listener of [selectFileBtn], from its [await] on: the
    part before it changes nothing on the page. *)
Definition file_selected (filePath : option jsstring) (p : page) : page :=
  match filePath with
  | Some (c :: s) =>
      {| selectedFilePath := Some (c :: s);
         selectedDestPath := selectedDestPath p;
         inputFileField := c :: s;
         destinationField := destinationField p;
         templateSelect := templateSelect p;
         exportBtn_disabled := exportBtn_disabled p;
         exportBtn_textContent := exportBtn_textContent p;
         localStorage := localStorage p;
         alerts := alerts p;
         suspended := suspended p |}
  | _ => p
  end.

(** The click listener of [selectDestBtn], from its [await] on. *)
Definition destination_selected (destPath : option jsstring) (p : page) :
    page :=
  match destPath with
  | Some (c :: s) =>
      {| selectedFilePath := selectedFilePath p;
         selectedDestPath := Some (c :: s);
         inputFileField := inputFileField p;
         destinationField := c :: s;
         templateSelect := templateSelect p;
         exportBtn_disabled := exportBtn_disabled p;
         exportBtn_textContent := exportBtn_textContent p;
         localStorage := <[savedDestinationPath := c :: s]> (localStorage p);
         alerts := alerts p;
         suspended := suspended p |}
  | _ => p
  end.

(** The click listener of [clearDestBtn]. *)
Definition destination_cleared (p : page) : page :=
  {| selectedFilePath := selectedFilePath p;
     selectedDestPath := None;
     inputFileField := inputFileField p;
     destinationField := [];
     templateSelect := templateSelect p;
     exportBtn_disabled := exportBtn_disabled p;
     exportBtn_textContent := exportBtn_textContent p;
     localStorage := delete savedDestinationPath (localStorage p);
     alerts := alerts p;
     suspended := suspended p |}.

(** The submit listener, up to its [await]. *)
Definition submitted (p : page) : page :=
  match selectedFilePath p, selectedDestPath p with
  | Some (c :: s), Some (c' :: s') =>
      let originalText := exportBtn_textContent p in
      let template := templateSelect p in
      {| selectedFilePath := selectedFilePath p;
         selectedDestPath := selectedDestPath p;
         inputFileField := inputFileField p;
         destinationField := destinationField p;
         templateSelect := templateSelect p;
         exportBtn_disabled := true;
         exportBtn_textContent := str "Exporting...";
         localStorage := localStorage p;
         alerts := alerts p;
         suspended :=
           suspended p
           ++ [Pending (exportTranslation (c :: s) (c' :: s') [template])
                       originalText] |}
  | Some (_ :: _), _ => alert (str "Please select a destination folder") p
  | _, _ => alert (str "Please select an input file") p
  end.

(** What the invocation settles to: the result of the handler, or a
    rejection with the message of its error. *)
Inductive outcome : Type :=
| Resolved (result : Handler.result)
| Rejected (error_message : jsstring).

(** A value that is null or a string, in a template literal. *)
Definition shown_path (x : option jsstring) : jsstring :=
  default (str "null") x.

(** A value that is undefined or a number, in a template literal. *)
Definition shown_count (x : option nat) : jsstring :=
  match x with
  | Some n => str (pretty n)
  | None => str "undefined"
  end.

(** The text of the alert of the submit listener. *)
Definition report (o : outcome) (selectedDestPath : option jsstring) :
    jsstring :=
  match o with
  | Resolved result =>
      if success result then
        message result ++ [LF; LF] ++ str "Files created: "
        ++ shown_count (filesCreated result) ++ [LF] ++ str "Destination: "
        ++ shown_path selectedDestPath
      else str "Export failed: " ++ message result
  | Rejected error_message => str "Export error: " ++ error_message
  end.

(** The submit listener, from its [await] on: the alert, then the
    [finally] block. *)
Definition settled (c : pending) (o : outcome) (p : page) : page :=
  {| selectedFilePath := selectedFilePath p;
     selectedDestPath := selectedDestPath p;
     inputFileField := inputFileField p;
     destinationField := destinationField p;
     templateSelect := templateSelect p;
     exportBtn_disabled := false;
     exportBtn_textContent := originalText c;
     localStorage := localStorage p;
     alerts := alerts p ++ [report o (selectedDestPath p)];
     suspended := suspended p |}.

(** The user picks an option of the template list: no listener runs,
    the [value] of the list changes. *)
Definition template_changed (value : jsstring) (p : page) : page :=
  {| selectedFilePath := selectedFilePath p;
     selectedDestPath := selectedDestPath p;
     inputFileField := inputFileField p;
     destinationField := destinationField p;
     templateSelect := value;
     exportBtn_disabled := exportBtn_disabled p;
     exportBtn_textContent := exportBtn_textContent p;
     localStorage := localStorage p;
     alerts := alerts p;
     suspended := suspended p |}.

(** What happens to the page.  A click on one of the two picking buttons
    stands at the moment its dialog answers, with the dialog as the main
    process meets it; [ExportSettled k o] resumes the [k]-th suspended
    submit handler.  The two path fields are read-only: only the script
    changes them. *)
Inductive event : Type :=
| DOMContentLoaded
| SelectFile (showOpenDialog : OpenDialogOptions → OpenDialogReturnValue)
| SelectDestination (showOpenDialog : OpenDialogOptions → OpenDialogReturnValue)
| ClearDestination
| Submit
| ExportSettled (k : nat) (o : outcome)
| TemplateChanged (value : jsstring).

Definition resumed (k : nat) (p : page) : page :=
  {| selectedFilePath := selectedFilePath p;
     selectedDestPath := selectedDestPath p;
     inputFileField := inputFileField p;
     destinationField := destinationField p;
     templateSelect := templateSelect p;
     exportBtn_disabled := exportBtn_disabled p;
     exportBtn_textContent := exportBtn_textContent p;
     localStorage := localStorage p;
     alerts := alerts p;
     suspended := delete k (suspended p) |}.

Definition step (p : page) (e : event) : page :=
  match e with
  | DOMContentLoaded => loaded p
  | SelectFile showOpenDialog =>
      file_selected (Main.select_file showOpenDialog) p
  | SelectDestination showOpenDialog =>
      destination_selected (Main.select_destination showOpenDialog) p
  | ClearDestination => destination_cleared p
  | Submit => submitted p
  | ExportSettled k o =>
      match suspended p !! k with
      | Some c => settled c o (resumed k p)
      | None => p
      end
  | TemplateChanged value => template_changed value p
  end.

Definition run (p : page) (events : list event) : page := foldl step p events.

(** What the script keeps true of the page: a selected path is not
    empty and its field shows it, and the selected destination is the
    saved one. *)
Definition consistent (p : page) : Prop :=
  (∀ f, selectedFilePath p = Some f → f ≠ [] ∧ inputFileField p = f)
  ∧ (∀ d, selectedDestPath p = Some d →
          d ≠ [] ∧ destinationField p = d
          ∧ localStorage p !! savedDestinationPath = Some d).

(** A saved destination that is not empty is the selected one. *)
Definition restorable (p : page) : Prop :=
  ∀ d, localStorage p !! savedDestinationPath = Some d → d ≠ [] →
       selectedDestPath p = Some d.

(** A suspended call carries two paths, none empty. *)
Definition carries_paths (c : pending) : Prop :=
  ∃ f d, invoked c = Invoke (str "export-translation") [f; d]
         ∧ f ≠ [] ∧ d ≠ [].

(** The event changes the export button or resumes a submit handler. *)
Definition exporting (e : event) : bool :=
  match e with
  | Submit | ExportSettled _ _ => true
  | _ => false
  end.

End Renderer.

(** ** The windows of the application *)

Module App.
Import Node.

(** What [createWindow] gives [new BrowserWindow], and the file it loads
    into the window. *)
Record window : Type := Window {
  width : nat;
  height : nat;
  preload : jsstring;
  contextIsolation : bool;
  nodeIntegration : bool;
  file : jsstring
}.

(** The application: whether [whenReady] has resolved, the windows that
    are open ([BrowserWindow.getAllWindows()]), and whether [app.quit]
    has been called. *)
Record app : Type := App {
  ready : bool;
  windows : list window;
  quit : bool
}.

Definition launched : app := App false [] false.

Section WithHost.
Context `{Host}.

Definition createWindow (dirname : jsstring) (a : app) : app :=
  let win :=
    Window 800 600 (path_join dirname (str "preload.js")) true false
           (str "index.html") in
  App (ready a) (windows a ++ [win]) (quit a).

(** What happens to the application: [whenReady] resolves, the
    application is activated, the user closes the [k]-th window. *)
Inductive event : Type :=
| Ready
| Activate
| WindowClosed (k : nat).

(** The listeners.  The one of [activate] is registered when
    [whenReady] resolves; the one of [window-all-closed] runs when the
    last window is closed.  Nothing runs once [app.quit] is called. *)
Definition step (dirname platform : jsstring) (a : app) (e : event) : app :=
  if quit a then a
  else
    match e with
    | Ready =>
        if ready a then a
        else createWindow dirname (App true (windows a) (quit a))
    | Activate =>
        if ready a && bool_decide (length (windows a) = 0)
        then createWindow dirname a
        else a
    | WindowClosed k =>
        match windows a !! k with
        | Some _ =>
            let remaining := delete k (windows a) in
            if bool_decide (remaining = [])
            then App (ready a) remaining
                     (negb (bool_decide (platform = str "darwin")))
            else App (ready a) remaining (quit a)
        | None => a
        end
    end.

Definition run (dirname platform : jsstring) (a : app)
    (events : list event) : app :=
  foldl (step dirname platform) a events.

(** At most one window, the one [createWindow] makes; and when the
    application is ready and has no window, it has quit unless the
    platform is [darwin]. *)
Definition single (dirname platform : jsstring) (a : app) : Prop :=
  (windows a = []
   ∨ windows a = windows (createWindow dirname launched))
  ∧ (ready a = false → windows a = [] ∧ quit a = false)
  ∧ (ready a = true → windows a = [] → platform ≠ str "darwin" →
     quit a = true).
End WithHost.
End App.

(** * Properties *)

#[local] Set Warnings "-clear-no-such-hyp".

(** ** The key-value pattern *)

Section RegexFacts.
Import Regex Spec.

Lemma span_app p s : (span p s).1 ++ (span p s).2 = s.
Proof.
  induction s as [|c s IH]; simpl; [done|].
  destruct (p c); [|done].
  destruct (span p s) as [m r]; simpl in *. by rewrite IH.
Qed.

Lemma span_run p s : Forall (λ c, p c = true) (span p s).1.
Proof.
  induction s as [|c s IH]; simpl; [constructor|].
  destruct (p c) eqn:E; [|constructor].
  destruct (span p s) as [m r]; simpl in *. by constructor.
Qed.

Lemma span_stop p s c r : (span p s).2 = c :: r → p c = false.
Proof.
  induction s as [|c' s IH]; simpl; [done|].
  destruct (p c') eqn:E.
  - destruct (span p s) as [m r']; simpl in *. auto.
  - intros [= -> ->]. done.
Qed.

(** The cut of [span] is the only one between a run in the class and a
    code unit outside it. *)
Lemma span_unique p m c r :
  Forall (λ c, p c = true) m → p c = false → span p (m ++ c :: r) = (m, c :: r).
Proof.
  intros Hm Hc. induction Hm as [|x m Hx _ IH]; simpl.
  - by rewrite Hc.
  - by rewrite Hx, IH.
Qed.

Lemma span_unique_nil p m : Forall (λ c, p c = true) m → span p m = (m, []).
Proof.
  intros Hm. induction Hm as [|x m Hx _ IH]; simpl; [done|].
  by rewrite Hx, IH.
Qed.

(** A greedy quantifier followed by something that cannot start inside
    the class never gives anything back. *)
Lemma star_follow {R} p s (k : jsstring → jsstring → option R) :
  (∀ m c r, p c = true → k m (c :: r) = None) →
  star p s k = k (span p s).1 (span p s).2.
Proof.
  revert k. induction s as [|c s IH]; intros k Hk; simpl; [done|].
  destruct (p c) eqn:E; [|done].
  rewrite IH by (intros; by apply Hk).
  destruct (span p s) as [m r]; simpl.
  destruct (k (c :: m) r) eqn:E'; [done|]. by apply Hk.
Qed.

Lemma plus_follow {R} p s (k : jsstring → jsstring → option R) :
  (∀ m c r, p c = true → k m (c :: r) = None) →
  plus p s k =
    match (span p s).1 with [] => None | _ => k (span p s).1 (span p s).2 end.
Proof.
  intros Hk. destruct s as [|c s]; simpl; [done|].
  destruct (p c) eqn:E; [|done].
  rewrite star_follow by (intros; by apply Hk).
  by destruct (span p s) as [m r].
Qed.

(** The last quantifier, over any code unit, gives back down to the
    last double quote of the input. *)
Lemma star_any_last {R} (f : jsstring → R) s :
  star any s (λ m r, chr QUOTE r (λ _, Some (f m))) =
    (λ ab, f ab.1) <$> split_last_quote s.
Proof.
  revert f. induction s as [|c s IH]; intros f; simpl; [done|].
  rewrite (IH (λ m, f (c :: m))).
  destruct (split_last_quote s) as [[a b]|]; simpl; [done|].
  destruct (decide (QUOTE = c)) as [<-|Hne].
  - by rewrite decide_True.
  - by rewrite decide_False by congruence.
Qed.

Lemma split_last_quote_Some s a b :
  split_last_quote s = Some (a, b) → s = a ++ QUOTE :: b ∧ QUOTE ∉ b.
Proof.
  revert a b. induction s as [|c s IH]; intros a b; simpl; [done|].
  destruct (split_last_quote s) as [[a' b']|] eqn:E.
  - intros [= <- <-]. destruct (IH _ _ eq_refl) as [-> ?]. done.
  - destruct (decide (c = QUOTE)) as [->|]; [|done].
    intros [= <- <-]. split; [done|].
    clear IH. induction s as [|c s IH]; [by apply not_elem_of_nil|].
    simpl in E. destruct (split_last_quote s) as [[??]|]; [done|].
    destruct (decide (c = QUOTE)); [done|].
    rewrite elem_of_cons. intros [?|?]; [congruence|]. by apply IH.
Qed.

Lemma split_last_quote_None s : split_last_quote s = None → QUOTE ∉ s.
Proof.
  induction s as [|c s IH]; simpl; [intros; by apply not_elem_of_nil|].
  destruct (split_last_quote s) as [[??]|]; [done|].
  destruct (decide (c = QUOTE)); [done|].
  intros _. rewrite elem_of_cons. intros [?|?]; [congruence|]. by apply IH.
Qed.

Lemma split_last_quote_is_Some a b : is_Some (split_last_quote (a ++ QUOTE :: b)).
Proof.
  destruct (split_last_quote (a ++ QUOTE :: b)) as [?|] eqn:E; [by eexists|].
  apply split_last_quote_None in E. exfalso. apply E.
  apply elem_of_app. right. by left.
Qed.

Lemma chr_hit {R} c s (k : jsstring → option R) : chr c (c :: s) k = k s.
Proof. unfold chr. by rewrite decide_True. Qed.

Lemma chr_miss {R} c c' s (k : jsstring → option R) :
  c ≠ c' → chr c (c' :: s) k = None.
Proof. intros. unfold chr. by rewrite decide_False. Qed.

Lemma quote_is_no_space : is_space QUOTE = false.
Proof. reflexivity. Qed.

Lemma colon_is_no_space : is_space COLON = false.
Proof. reflexivity. Qed.

Lemma not_quote_true c : not_quote c = true ↔ c ≠ QUOTE.
Proof.
  unfold not_quote. rewrite negb_true_iff, bool_decide_eq_false. done.
Qed.

Lemma not_quote_run k : QUOTE ∉ k ↔ Forall (λ c, not_quote c = true) k.
Proof.
  rewrite Forall_forall. split.
  - intros Hk c Hc. apply not_quote_true. intros ->. done.
  - intros Hk Hq. apply Hk in Hq. by apply not_quote_true in Hq.
Qed.

(** What a match anchored at the start of the input looks like. *)
Lemma kv_at_Some s key value :
  kv_at s = Some (key, value) →
  ∃ post, occurrence s [] key value post ∧ QUOTE ∉ post.
Proof.
  unfold kv_at, chr at 1. destruct s as [|c s1]; [done|].
  destruct (decide (QUOTE = c)) as [<-|]; [|done].
  rewrite plus_follow; last first.
  { intros m c r Hc. apply not_quote_true in Hc. unfold chr.
    by rewrite decide_False by congruence. }
  pose proof (span_app not_quote s1) as Hs1.
  pose proof (span_run not_quote s1) as Hkey.
  destruct (span not_quote s1) as [k s2]; simpl in *.
  destruct k as [|k0 k]; [done|]. unfold chr at 1.
  destruct s2 as [|c2 s3]; [done|].
  destruct (decide (QUOTE = c2)) as [<-|]; [|done].
  rewrite star_follow; last first.
  { intros m c r Hc. unfold chr.
    rewrite decide_False; [done|]. intros <-. by rewrite colon_is_no_space in Hc. }
  pose proof (span_app is_space s3) as Hs3.
  pose proof (span_run is_space s3) as Hws1.
  destruct (span is_space s3) as [ws1 s4]; simpl in *. unfold chr at 1.
  destruct s4 as [|c4 s5]; [done|].
  destruct (decide (COLON = c4)) as [<-|]; [|done].
  rewrite star_follow; last first.
  { intros m c r Hc. unfold chr at 1.
    rewrite decide_False; [done|]. intros <-. by rewrite quote_is_no_space in Hc. }
  pose proof (span_app is_space s5) as Hs5.
  pose proof (span_run is_space s5) as Hws2.
  destruct (span is_space s5) as [ws2 s6]; simpl in *. unfold chr at 1.
  destruct s6 as [|c6 s7]; [done|].
  destruct (decide (QUOTE = c6)) as [<-|]; [|done].
  rewrite (star_any_last (λ m, (k0 :: k, m))).
  destruct (split_last_quote s7) as [[a b]|] eqn:E; [|done]. simpl.
  intros [= <- <-]. apply split_last_quote_Some in E as [-> Hb].
  exists b. split; [|done]. exists ws1, ws2.
  split_and!; [|done|by apply not_quote_run|done|done].
  unfold quoted. simpl. rewrite <- Hs1, <- Hs3, <- Hs5.
  by rewrite <- !app_assoc.
Qed.

(** Wherever the pattern occurs at the start of the input, the anchored
    match succeeds, with the same key. *)
Lemma kv_at_complete s key value post :
  occurrence s [] key value post → ∃ value', kv_at s = Some (key, value').
Proof.
  intros (ws1 & ws2 & -> & Hne & Hq & Hws1 & Hws2).
  apply not_quote_run in Hq.
  replace ([] ++ quoted key ++ ws1 ++ [COLON] ++ ws2 ++ quoted value ++ post)
    with (QUOTE :: key ++ QUOTE :: ws1 ++ COLON :: ws2 ++ QUOTE :: value
            ++ QUOTE :: post)
    by (unfold quoted; simpl; by rewrite <- !app_assoc).
  unfold kv_at. rewrite chr_hit.
  rewrite plus_follow by (intros m c r Hc; apply chr_miss; intros <-;
                          by apply not_quote_true in Hc).
  rewrite (span_unique not_quote key QUOTE) by done. simpl fst; simpl snd.
  destruct key as [|k0 k]; [done|]. rewrite chr_hit.
  rewrite star_follow by (intros m c r Hc; apply chr_miss; intros <-;
                          by rewrite colon_is_no_space in Hc).
  rewrite (span_unique is_space ws1 COLON) by done. simpl fst; simpl snd.
  rewrite chr_hit.
  rewrite star_follow by (intros m c r Hc; apply chr_miss; intros <-;
                          by rewrite quote_is_no_space in Hc).
  rewrite (span_unique is_space ws2 QUOTE) by done. simpl fst; simpl snd.
  rewrite chr_hit.
  rewrite (star_any_last (λ m, (k0 :: k, m))).
  destruct (split_last_quote_is_Some value post) as [[a b] ->]. simpl. by eexists.
Qed.

Lemma kv_match_unfold s :
  kv_match s =
    match kv_at s with
    | Some r => Some r
    | None => match s with [] => None | _ :: s' => kv_match s' end
    end.
Proof. by destruct s. Qed.

(** The search returns the anchored match at the least offset that has
    one. *)
Lemma kv_match_Some s r :
  kv_match s = Some r →
  ∃ pre rest, s = pre ++ rest ∧ kv_at rest = Some r
    ∧ ∀ pre' rest', s = pre' ++ rest' → length pre' < length pre →
        kv_at rest' = None.
Proof.
  induction s as [|c s IH]; rewrite kv_match_unfold.
  - done.
  - destruct (kv_at (c :: s)) eqn:E.
    + intros [= ->]. exists [], (c :: s). split_and!; [done..|]. simpl. lia.
    + intros (pre & rest & -> & Hat & Hmin)%IH.
      exists (c :: pre), rest. split_and!; [done..|].
      intros [|c' pre'] rest'; simpl.
      * intros <- _. done.
      * intros [= <- Heq] Hlen. apply (Hmin pre'); [done|lia].
Qed.

Lemma kv_match_None s :
  kv_match s = None → ∀ pre rest, s = pre ++ rest → kv_at rest = None.
Proof.
  induction s as [|c s IH]; rewrite kv_match_unfold.
  - intros _ [|??] rest; simpl; [|done]. by intros <-.
  - destruct (kv_at (c :: s)) eqn:E; [done|].
    intros Hs [|c' pre] rest; simpl.
    + by intros <-.
    + intros [= <- ->]. by apply (IH Hs pre).
Qed.

Lemma occurrence_shift s pre key value post :
  occurrence (pre ++ s) pre key value post → occurrence s [] key value post.
Proof.
  intros (ws1 & ws2 & Heq & ?). exists ws1, ws2. split; [|done].
  simpl. by apply app_inv_head in Heq.
Qed.

Lemma occurrence_unshift s pre key value post :
  occurrence s [] key value post → occurrence (pre ++ s) pre key value post.
Proof.
  intros (ws1 & ws2 & -> & ?). exists ws1, ws2. done.
Qed.

End RegexFacts.

(** C2 (amended).  The key-value parser returns the leftmost occurrence
    of the pattern: the key is the run of non-quote code units between the
    first two quotes of the occurrence, white space may surround the
    colon, and the value runs to the LAST double quote of the text (no
    quote follows the match); when the pattern occurs nowhere, there is no
    match. *)
Theorem kv_match_leftmost_to_last_quote (s : jsstring) :
  match Regex.kv_match s with
  | Some (key, value) =>
      ∃ pre post,
        Spec.occurrence s pre key value post ∧ (QUOTE ∉ post)
        ∧ ∀ pre' key' value' post',
            Spec.occurrence s pre' key' value' post' → length pre ≤ length pre'
  | None => ∀ pre key value post, ¬ Spec.occurrence s pre key value post
  end.
Proof.
  destruct (Regex.kv_match s) as [[key value]|] eqn:E.
  - apply kv_match_Some in E as (pre & rest & -> & Hat & Hmin).
    apply kv_at_Some in Hat as (post & Hocc & Hpost).
    exists pre, post. split_and!; [by apply occurrence_unshift|done|].
    intros pre' key' value' post' Hocc'.
    destruct (decide (length pre ≤ length pre')) as [|Hlt]; [done|].
    exfalso. pose proof Hocc' as (ws1 & ws2 & Heq & _).
    rewrite Heq in Hocc'. apply occurrence_shift, kv_at_complete in Hocc'.
    destruct Hocc' as [value'' Hsome].
    rewrite (Hmin pre' _ Heq) in Hsome by lia. done.
  - intros pre key value post Hocc.
    pose proof Hocc as (ws1 & ws2 & Heq & _).
    rewrite Heq in Hocc. apply occurrence_shift, kv_at_complete in Hocc.
    destruct Hocc as [value' Hsome].
    by rewrite (kv_match_None _ E pre _ Heq) in Hsome.
Qed.

(** C2, as stated, fails on a cell holding two pairs: the value does not
    stop at the next quote, it swallows the second pair. *)
Lemma kv_match_two_pairs :
  Regex.kv_match
    (Sample.pair_text (str "a") (str "1") ++ str ", "
     ++ Sample.pair_text (str "b") (str "2"))
  = Some (str "a",
          str "1" ++ [QUOTE] ++ str ", " ++ quoted (str "b") ++ str ": "
            ++ [QUOTE] ++ str "2")
  ∧ Regex.kv_match
      (Sample.pair_text (str "a") (str "1") ++ str ", "
       ++ Sample.pair_text (str "b") (str "2"))
    ≠ Some (str "a", str "1").
Proof. split; [vm_compute; reflexivity | vm_compute; discriminate]. Qed.

(** ** Objects *)

Section ObjectFacts.
Import JS.
Context {A : Type}.
Implicit Types (o : obj A) (k : jsstring).

Lemma insert_by_index_perm (e : N * (jsstring * A)) l :
  insert_by_index e l ≡ₚ e :: l.
Proof.
  induction l as [|e' l IH]; simpl; [done|].
  destruct (e.1 <=? e'.1)%N; [done|]. rewrite IH. apply Permutation_swap.
Qed.

Lemma sort_by_index_perm (l : list (N * (jsstring * A))) : sort_by_index l ≡ₚ l.
Proof.
  induction l as [|e l IH]; simpl; [done|].
  by rewrite insert_by_index_perm, IH.
Qed.

(** [Object.entries] lists every own property once. *)
Lemma entries_perm o : entries o ≡ₚ o.
Proof.
  unfold entries. rewrite sort_by_index_perm.
  induction o as [|[k x] o IH]; [done|].
  unfold index_entries, named_entries in *. rewrite filter_cons. simpl.
  destruct (array_index k) as [n|] eqn:E; simpl.
  - by rewrite IH.
  - rewrite <- Permutation_middle. by rewrite IH.
Qed.

Lemma entries_length o : length (entries o) = length o.
Proof. by rewrite entries_perm. Qed.

(** Without array-index keys the enumeration is the creation order. *)
Lemma entries_named o :
  Forall (λ e, array_index e.1 = None) o → entries o = o.
Proof.
  intros Ho. unfold entries, index_entries, named_entries.
  assert (omap (λ e : jsstring * A,
                  match array_index e.1 with
                  | Some n => Some (n, e)
                  | None => None
                  end) o = []) as ->.
  { induction Ho as [|[k x] o Hk _ IH]; [done|]. simpl in *. by rewrite Hk. }
  simpl. induction Ho as [|e o Hk _ IH]; [done|].
  rewrite filter_cons_True by done. by rewrite IH.
Qed.

Lemma lookup_own_upsert k x o : lookup_own k (upsert k x o) = Some x.
Proof.
  induction o as [|[k' x'] o IH]; simpl.
  - by rewrite decide_True.
  - destruct (decide (k = k')) as [->|]; simpl.
    + by rewrite decide_True.
    + by rewrite decide_False.
Qed.

Lemma lookup_own_upsert_ne k k' x o :
  k ≠ k' → lookup_own k' (upsert k x o) = lookup_own k' o.
Proof.
  intros Hne. induction o as [|[k'' x''] o IH]; simpl.
  - by rewrite decide_False.
  - destruct (decide (k = k'')) as [->|]; simpl.
    + by rewrite !decide_False by done.
    + destruct (decide (k' = k'')); [done|]. by apply IH.
Qed.

(** Overwriting an own property leaves the list of keys as it is. *)
Lemma keys_upsert_present k x o : k ∈ keys o → keys (upsert k x o) = keys o.
Proof.
  unfold keys. induction o as [|[k' x'] o IH]; simpl.
  - by intros ?%elem_of_nil.
  - destruct (decide (k = k')) as [->|]; simpl; [done|].
    intros [?|?]%elem_of_cons; [done|]. f_equal. by apply IH.
Qed.

Lemma keys_upsert_absent k x o : k ∉ keys o → keys (upsert k x o) = keys o ++ [k].
Proof.
  unfold keys. induction o as [|[k' x'] o IH]; simpl; [done|].
  intros Hk. apply not_elem_of_cons in Hk as [? ?].
  rewrite decide_False by done. simpl. f_equal. by apply IH.
Qed.

Lemma lookup_own_Some_keys k x o : lookup_own k o = Some x → k ∈ keys o.
Proof.
  unfold keys. induction o as [|[k' x'] o IH]; simpl; [done|].
  destruct (decide (k = k')) as [->|]; [intros; by left|].
  intros ?. right. by apply IH.
Qed.

Lemma lookup_own_is_Some k o : k ∈ keys o → is_Some (lookup_own k o).
Proof.
  unfold keys. induction o as [|[k' x'] o IH]; simpl.
  - by intros ?%elem_of_nil.
  - destruct (decide (k = k')) as [->|]; [by eexists|].
    intros [?|?]%elem_of_cons; [done|]. by apply IH.
Qed.

Lemma lookup_own_elem k x o : lookup_own k o = Some x → (k, x) ∈ o.
Proof.
  induction o as [|[k' x'] o IH]; simpl; [done|].
  destruct (decide (k = k')) as [->|]; [intros [= ->]; by left|].
  intros ?. right. by apply IH.
Qed.

Lemma upsert_NoDup k x o : NoDup (keys o) → NoDup (keys (upsert k x o)).
Proof.
  intros Ho. destruct (decide (k ∈ keys o)).
  - by rewrite keys_upsert_present.
  - rewrite keys_upsert_absent by done. apply NoDup_app. split_and!; [done| |].
    + intros k' ? ->%list_elem_of_singleton. done.
    + apply NoDup_singleton.
Qed.
End ObjectFacts.

(** ** The text passed to the formatter, read as JSON *)

Section JsonFacts.
Import JS Core Json Spec.

Lemma skip_ws_idem s : skip_ws (skip_ws s) = skip_ws s.
Proof.
  induction s as [|c s IH]; simpl; [done|].
  destruct (is_ws c) eqn:E; [done|]. simpl. by rewrite E.
Qed.

Lemma skip_ws_stop c s : is_ws c = false → skip_ws (c :: s) = c :: s.
Proof. intros E. simpl. by rewrite E. Qed.

Lemma skip_ws_skip c s : is_ws c = true → skip_ws (c :: s) = skip_ws s.
Proof. intros E. simpl. by rewrite E. Qed.

(** A body that passes [body_ok] is read back whole, up to the quote that
    follows it. *)
Lemma scan_string_body st acc body rest :
  body_ok_from st body = true →
  scan_string st acc (body ++ QUOTE :: rest) = Some (reverse acc ++ body, rest).
Proof.
  revert st acc. induction body as [|c body IH]; intros st acc; simpl.
  - destruct st; [|done..]. intros _. by rewrite app_nil_r.
  - destruct st.
    + destruct (decide (c = QUOTE)); [done|].
      destruct (scan_step Plain c) as [st'|]; [|done].
      intros Hok. rewrite (IH _ _ Hok), reverse_cons, <- app_assoc. done.
    + destruct (scan_step Escaped c) as [st'|]; [|done].
      intros Hok. rewrite (IH _ _ Hok), reverse_cons, <- app_assoc. done.
    + destruct (scan_step (Hex remaining) c) as [st'|]; [|done].
      intros Hok. rewrite (IH _ _ Hok), reverse_cons, <- app_assoc. done.
Qed.

Lemma parse_value_unfold fuel s :
  parse_value (S fuel) s =
    match skip_ws s with
    | [] => None
    | c :: s1 =>
        if decide (c = "{"%char) then
          match skip_ws s1 with
          | c2 :: s2 =>
              if decide (c2 = "}"%char) then Some (JObject [], s2)
              else match parse_members fuel s1 with
                   | Some (ms, r) => Some (JObject ms, r)
                   | None => None
                   end
          | [] => None
          end
        else if decide (c = "["%char) then
          match skip_ws s1 with
          | c2 :: s2 =>
              if decide (c2 = "]"%char) then Some (JArray [], s2)
              else match parse_elements fuel s1 with
                   | Some (xs, r) => Some (JArray xs, r)
                   | None => None
                   end
          | [] => None
          end
        else if decide (c = QUOTE) then
          match scan_string Plain [] s1 with
          | Some (raw, r) => Some (JString raw, r)
          | None => None
          end
        else if decide (c = "t"%char) then
          match strip_prefix (str "rue") s1 with
          | Some r => Some (JBool true, r)
          | None => None
          end
        else if decide (c = "f"%char) then
          match strip_prefix (str "alse") s1 with
          | Some r => Some (JBool false, r)
          | None => None
          end
        else if decide (c = "n"%char) then
          match strip_prefix (str "ull") s1 with
          | Some r => Some (JNull, r)
          | None => None
          end
        else
          match scan_number (c :: s1) with
          | Some (raw, r) => Some (JNumber raw, r)
          | None => None
          end
    end.
Proof. reflexivity. Qed.

Lemma parse_members_unfold fuel s :
  parse_members (S fuel) s =
    match skip_ws s with
    | c :: s1 =>
        if decide (c = QUOTE) then
          match scan_string Plain [] s1 with
          | Some (k, s2) =>
              match skip_ws s2 with
              | c3 :: s3 =>
                  if decide (c3 = COLON) then
                    match parse_value fuel s3 with
                    | Some (x, s4) =>
                        match skip_ws s4 with
                        | c5 :: s5 =>
                            if decide (c5 = ","%char) then
                              match parse_members fuel s5 with
                              | Some (ms, r) => Some ((k, x) :: ms, r)
                              | None => None
                              end
                            else if decide (c5 = "}"%char) then
                              Some ([(k, x)], s5)
                            else None
                        | [] => None
                        end
                    | None => None
                    end
                  else None
              | [] => None
              end
          | None => None
          end
        else None
    | [] => None
    end.
Proof. reflexivity. Qed.

(** A string value, possibly after white space. *)
Lemma parse_value_string fuel s body rest :
  skip_ws s = QUOTE :: body ++ QUOTE :: rest → body_ok body = true →
  parse_value (S fuel) s = Some (JString body, rest).
Proof.
  intros Hs Hok. rewrite parse_value_unfold, Hs.
  rewrite !decide_False by done. rewrite decide_True by done.
  by rewrite (scan_string_body Plain [] body rest Hok).
Qed.

Lemma member_line_app k x t :
  member_line (k, x) ++ t
  = str "  " ++ QUOTE :: k ++ QUOTE :: str ": " ++ QUOTE :: x ++ QUOTE :: t.
Proof.
  unfold member_line, quoted. simpl.
  rewrite <- !app_assoc. simpl. by rewrite <- !app_assoc.
Qed.

Lemma join_cons_cons sep p q ps :
  join sep (p :: q :: ps) = p ++ sep ++ join sep (q :: ps).
Proof. reflexivity. Qed.

Lemma parse_members_lines es fuel pad rest :
  es ≠ [] → length es < fuel →
  Forall (λ e, body_ok e.1 = true ∧ body_ok e.2 = true) es →
  skip_ws pad = [] →
  parse_members fuel (pad ++ members_text es ++ LF :: "}"%char :: rest)
  = Some (as_members es, rest).
Proof.
  revert fuel pad. induction es as [|[k x] es IH]; intros fuel pad Hne Hf Hok Hpad;
    [done|].
  apply Forall_cons in Hok as [[Hk Hx] Hok]. simpl in Hk, Hx.
  destruct fuel as [|fuel]; [simpl in Hf; lia|].
  destruct fuel as [|fuel]; [simpl in Hf; lia|].
  rewrite parse_members_unfold.
  assert (∀ t, skip_ws (pad ++ str "  " ++ QUOTE :: t) = QUOTE :: t) as Hskip.
  { intros t. clear -Hpad. induction pad as [|c pad IHp]; [done|].
    simpl in *. destruct (is_ws c); [by apply IHp|done]. }
  set (tail := match es with
               | [] => LF :: "}"%char :: rest
               | _ :: _ =>
                   ","%char :: LF :: members_text es ++ LF :: "}"%char :: rest
               end).
  assert (members_text ((k, x) :: es) ++ LF :: "}"%char :: rest
          = str "  " ++ QUOTE :: k ++ QUOTE :: str ": " ++ QUOTE :: x
              ++ QUOTE :: tail) as ->.
  { unfold members_text, tail. destruct es as [|e es].
    - change (join _ (map member_line [(k, x)])) with (member_line (k, x)).
      by rewrite member_line_app.
    - rewrite !map_cons, join_cons_cons, <- !app_assoc.
      by rewrite member_line_app. }
  rewrite Hskip, decide_True by done.
  rewrite (scan_string_body Plain [] k _ Hk). simpl reverse. simpl app at 1.
  rewrite skip_ws_stop by done. rewrite decide_True by done.
  rewrite (parse_value_string fuel _ x tail) by done.
  unfold tail. destruct es as [|e es].
  - rewrite skip_ws_skip, skip_ws_stop by done.
    rewrite decide_False, decide_True by done. done.
  - rewrite skip_ws_stop by done. rewrite decide_True by done.
    assert (parse_members (S fuel)
              ([LF] ++ members_text (e :: es) ++ LF :: "}"%char :: rest)
            = Some (as_members (e :: es), rest)) as Hrec
      by (apply IH; [done|simpl in *; lia|done|done]).
    change ([LF] ++ ?t) with (LF :: t) in Hrec. by rewrite Hrec.
Qed.

Lemma member_line_length e : 1 ≤ length (member_line e).
Proof. unfold member_line. rewrite length_app. simpl. lia. Qed.

Lemma members_text_length es : length es ≤ length (members_text es).
Proof.
  unfold members_text. induction es as [|e es IH]; [done|].
  pose proof (member_line_length e). destruct es as [|e' es].
  - simpl. lia.
  - rewrite !map_cons, join_cons_cons, !length_app.
    rewrite !map_cons in IH. simpl length in *. lia.
Qed.

(** The text built for a dictionary parses to an object with the entries
    of [Object.entries], in that order, verbatim, whenever every key and
    value can stand between JSON quotes as it is. *)
Lemma jsonString_parse dict :
  Forall (λ e, body_ok e.1 = true ∧ body_ok e.2 = true) dict →
  parse (jsonString dict) = Some (JObject (as_members (entries dict))).
Proof.
  intros Hok. assert (Forall (λ e, body_ok e.1 = true ∧ body_ok e.2 = true)
                        (entries dict)) as Hes by by rewrite entries_perm.
  unfold parse, jsonString. fold (members_text (entries dict)).
  generalize dependent (entries dict). intros es Hes.
  rewrite parse_value_unfold. simpl app. rewrite skip_ws_stop by done.
  rewrite decide_True by done.
  destruct es as [|e es].
  - simpl. done.
  - assert (∃ t, skip_ws (LF :: members_text (e :: es) ++ [LF; "}"%char])
                 = QUOTE :: t) as [t Ht].
    { unfold members_text. destruct e as [k x]. destruct es as [|e' es].
      - change (join _ (map member_line [(k, x)])) with (member_line (k, x)).
        rewrite member_line_app. by eexists.
      - rewrite !map_cons, join_cons_cons, <- !app_assoc, member_line_app.
        by eexists. }
    rewrite Ht. rewrite decide_False by done.
    assert (parse_members
              (length ("{"%char :: LF :: members_text (e :: es) ++ [LF; "}"%char]))
              ([LF] ++ members_text (e :: es) ++ LF :: "}"%char :: [])
            = Some (as_members (e :: es), [])) as Hrec.
    { apply parse_members_lines; [done| |done|done].
      pose proof (members_text_length (e :: es)).
      rewrite !length_cons, length_app. simpl length in *. lia. }
    change ([LF] ++ ?u) with (LF :: u) in Hrec. by rewrite Hrec.
Qed.
End JsonFacts.

(** ** Header resolution and accumulation *)

Section CoreFacts.
Import JS XLSX Core Spec.
Implicit Types (sh : sheet) (data : obj (obj jsstring)) (lang key : jsstring).

Lemma for_each_app {S I} (body : S → I → option S) l1 l2 s :
  for_each body (l1 ++ l2) s = for_each body l1 s ≫= for_each body l2.
Proof.
  revert s. induction l1 as [|i l1 IH]; intros s; simpl; [done|].
  destruct (body s i); simpl; [apply IH|done].
Qed.

(** A loop whose body keeps an invariant and never throws under it runs
    to its end and keeps the invariant. *)
Lemma for_each_inv {S I} (body : S → I → option S) (P : S → Prop) l s :
  P s →
  (∀ s i, i ∈ l → P s → ∃ s', body s i = Some s' ∧ P s') →
  ∃ s', for_each body l s = Some s' ∧ P s'.
Proof.
  revert s. induction l as [|i l IH]; intros s Hs Hbody; simpl; [by eexists|].
  destruct (Hbody s i) as (s1 & -> & Hs1); [by left|done|].
  apply IH; [done|]. intros s2 j Hj. apply Hbody. by right.
Qed.

(** A loop none of whose iterations changes an observation leaves it as
    it was. *)
Lemma for_each_keeps {S I O} (body : S → I → option S) (obs : S → O) l s s' :
  (∀ s1 s2 i, i ∈ l → body s1 i = Some s2 → obs s2 = obs s1) →
  for_each body l s = Some s' → obs s' = obs s.
Proof.
  revert s. induction l as [|i l IH]; intros s Hbody; simpl.
  - by intros [= ->].
  - destruct (body s i) as [s1|] eqn:E; [|done]. intros Hrest.
    rewrite (IH s1); [|intros ??? Hj; apply Hbody; by right|done].
    apply (Hbody _ _ i); [by left|done].
Qed.

(** The observation after a loop is the one set by the last iteration
    that sets it. *)
Lemma for_each_last {S I O} (body : S → I → option S) (obs : S → O)
    l1 i l2 s s' o :
  (∀ s1 s2, body s1 i = Some s2 → obs s2 = o) →
  (∀ s1 s2 j, j ∈ l2 → body s1 j = Some s2 → obs s2 = obs s1) →
  for_each body (l1 ++ i :: l2) s = Some s' → obs s' = o.
Proof.
  intros Hi Hl2. rewrite for_each_app.
  destruct (for_each body l1 s) as [s1|]; [|done]. simpl.
  destruct (body s1 i) as [s2|] eqn:E; [|done]. intros Hrest.
  rewrite (for_each_keeps body obs l2 s2 s' Hl2 Hrest). by apply (Hi s1).
Qed.

(** A member of a [seq] cuts it in two; what follows is larger. *)
Lemma seq_cut a n x :
  x ∈ seq a n →
  ∃ l1 l2, seq a n = l1 ++ x :: l2 ∧ Forall (λ y, x < y) l2.
Proof.
  intros [Ha Hx]%elem_of_seq.
  exists (seq a (x - a)), (seq (S x) (a + n - S x)). split.
  - replace n with ((x - a) + S (a + n - S x)) at 1 by lia.
    rewrite seq_app. simpl. by replace (a + (x - a)) with x by lia.
  - apply Forall_forall. intros y [? ?]%elem_of_seq. lia.
Qed.

Lemma header_at_range sh col :
  col ∈ translation_cols ++ eula_cols →
  header_at (headerRow sh) col = header_value (cells sh !! (1, col)).
Proof.
  intros Hcol. unfold translation_cols, eula_cols in Hcol. simpl in Hcol.
  repeat (apply elem_of_cons in Hcol as [->|Hcol]; [reflexivity|]).
  by apply elem_of_nil in Hcol.
Qed.

(** The body of the inner loops, by what the column and the cell hold. *)
Lemma process_cell_spec sh row data col :
  process_cell sh (headerRow sh) row data col =
    match column_language sh col, cell_pair sh row col with
    | Some lang, Some (key, value) => set_nested lang key value data
    | _, _ => Some data
    end.
Proof.
  unfold process_cell, column_language, cell_pair.
  destruct (truthy (header_at (headerRow sh) col)); simpl; [|done].
  destruct (cell_text (cells sh !! (row, col))) as [raw|]; simpl; [|done].
  by destruct (Regex.kv_match raw) as [[??]|].
Qed.

(** The initialisation loop, from any object: its keys are those it
    started with and the languages of the columns, [__proto__] left out,
    each once. *)
Lemma init_langs_from sh cols (acc : obj (obj jsstring)) :
  let r := foldl (λ data col,
                    let langName := header_at (headerRow sh) col in
                    if truthy langName then set_fresh (to_key langName) data
                    else data) acc cols in
  NoDup (keys acc) → (proto_key ∉ keys acc) →
  NoDup (keys r) ∧ proto_key ∉ keys r
  ∧ ∀ lang, lang ∈ keys r ↔
      lang ∈ keys acc ∨ (lang ∈ languages sh cols ∧ lang ≠ proto_key).
Proof.
  revert acc. induction cols as [|col cols IH]; intros acc; simpl.
  - intros ??. split_and!; [done..|]. intros lang. split; [by left|].
    intros [?|[?%elem_of_nil ?]]; done.
  - intros Hnd Hp. unfold languages. simpl. unfold column_language at 1.
    destruct (truthy (header_at (headerRow sh) col)) eqn:Ht; simpl.
    + set (lang0 := to_key (header_at (headerRow sh) col)).
      unfold set_fresh. destruct (decide (lang0 = proto_key)) as [Heq|Hne].
      * destruct (IH acc Hnd Hp) as (H1 & H2 & H3). split_and!; [done..|].
        intros lang. rewrite H3, elem_of_cons. fold (languages sh cols).
        naive_solver.
      * assert (proto_key ∉ keys (upsert lang0 [] acc)) as Hp'.
        { destruct (decide (lang0 ∈ keys acc)).
          - by rewrite keys_upsert_present.
          - rewrite keys_upsert_absent by done.
            rewrite elem_of_app, list_elem_of_singleton. naive_solver. }
        destruct (IH (upsert lang0 [] acc) (upsert_NoDup _ _ _ Hnd) Hp')
          as (H1 & H2 & H3).
        split_and!; [done..|]. intros lang. rewrite H3, elem_of_cons.
        fold (languages sh cols).
        assert (lang ∈ keys (upsert lang0 [] acc)
                ↔ lang ∈ keys acc ∨ lang = lang0) as ->.
        { destruct (decide (lang0 ∈ keys acc)).
          - rewrite keys_upsert_present by done. naive_solver.
          - rewrite keys_upsert_absent by done.
            by rewrite elem_of_app, list_elem_of_singleton. }
        naive_solver.
    + fold (languages sh cols). apply IH; done.
Qed.

Lemma init_langs_keys sh cols :
  NoDup (keys (init_langs (headerRow sh) cols))
  ∧ proto_key ∉ keys (init_langs (headerRow sh) cols)
  ∧ ∀ lang, lang ∈ keys (init_langs (headerRow sh) cols) ↔
      lang ∈ languages sh cols ∧ lang ≠ proto_key.
Proof.
  destruct (init_langs_from sh cols []) as (H1 & H2 & H3);
    [apply NoDup_nil_2|apply not_elem_of_nil|].
  split_and!; [done..|]. intros lang. rewrite (H3 lang).
  split; [intros [?%elem_of_nil|?]; done|by right].
Qed.

(** An assignment into the dictionary of a language that has one leaves
    the keys of the outer object as they are. *)
Lemma set_nested_keys lang key value data :
  lang = proto_key ∨ lang ∈ keys data →
  ∃ data', set_nested lang key value data = Some data' ∧ keys data' = keys data.
Proof.
  intros Hl. unfold set_nested.
  destruct (decide (lang = proto_key)); [by eexists|].
  destruct Hl as [?|Hl]; [done|].
  destruct (lookup_own_is_Some _ _ Hl) as [d ->].
  eexists. split; [done|]. by apply keys_upsert_present.
Qed.

(** The assignment of the row loop never meets an undefined dictionary:
    when every language of the columns is a key, the body of the inner
    loop returns and leaves the keys as they are. *)
Lemma process_cell_keys sh row data col :
  (∀ lang, column_language sh col = Some lang →
           lang = proto_key ∨ lang ∈ keys data) →
  ∃ data', process_cell sh (headerRow sh) row data col = Some data'
           ∧ keys data' = keys data.
Proof.
  intros Hl. rewrite process_cell_spec.
  destruct (column_language sh col) as [lang|]; [|by eexists].
  destruct (cell_pair sh row col) as [[key value]|]; [|by eexists].
  apply set_nested_keys. by apply Hl.
Qed.

Lemma for_each_cells_keys sh row cols data :
  keys data = keys (init_langs (headerRow sh) cols) →
  ∃ data', for_each (process_cell sh (headerRow sh) row) cols data = Some data'
           ∧ keys data' = keys (init_langs (headerRow sh) cols).
Proof.
  intros Hk.
  apply (for_each_inv _ (λ d, keys d = keys (init_langs (headerRow sh) cols)));
    [done|].
  intros d col Hcol Hd.
  destruct (process_cell_keys sh row d col) as (d' & -> & Hd').
  - intros lang Hlang. destruct (decide (lang = proto_key)); [by left|right].
    rewrite Hd. apply init_langs_keys. split; [|done].
    unfold languages. apply list_elem_of_omap. by exists col.
  - exists d'. split; [done|]. by rewrite Hd'.
Qed.

(** Accumulation always returns, and the keys of the two objects are
    those the initialisation gave them. *)
Lemma accumulate_keys sh end_row :
  ∃ st, accumulate sh end_row = Some st
        ∧ ∀ cat, keys (data_of cat st)
                 = keys (init_langs (headerRow sh) (cols_of cat)).
Proof.
  unfold accumulate.
  apply (for_each_inv _
    (λ st, ∀ cat, keys (data_of cat st)
                  = keys (init_langs (headerRow sh) (cols_of cat)))).
  - by intros [].
  - intros [ld ed] row _ Hst. unfold process_row. cbn [fst snd].
    destruct (for_each_cells_keys sh row translation_cols ld (Hst Translation))
      as (ld' & -> & Hld).
    destruct (for_each_cells_keys sh row eula_cols ed (Hst Eula))
      as (ed' & -> & Hed).
    exists (ld', ed'). split; [done|]. by intros [].
Qed.

(** What one cell does to the value stored under a key of a language. *)
Lemma process_cell_stored sh row data data' col lang key :
  lang ≠ proto_key → key ≠ proto_key →
  process_cell sh (headerRow sh) row data col = Some data' →
  match cell_pair sh row col with
  | Some (key', value) =>
      if decide (column_language sh col = Some lang ∧ key' = key)
      then stored lang key data' = Some value
      else stored lang key data' = stored lang key data
  | None => stored lang key data' = stored lang key data
  end.
Proof.
  intros Hl Hk. rewrite process_cell_spec.
  destruct (cell_pair sh row col) as [[key' value]|]; last first.
  { destruct (column_language sh col); by intros [= ->]. }
  destruct (column_language sh col) as [lang'|] eqn:El; last first.
  { intros [= ->]. by rewrite decide_False by naive_solver. }
  unfold set_nested. destruct (decide (lang' = proto_key)) as [->|Hl'].
  { intros [= ->]. rewrite decide_False; [done|]. intros [[= ?] _]. done. }
  destruct (lookup_own lang' data) as [d|] eqn:Ed; [|done]. intros [= <-].
  unfold stored. destruct (decide (lang' = lang)) as [->|Hne].
  - rewrite lookup_own_upsert, Ed. simpl. unfold set_string.
    destruct (decide (key' = key)) as [->|Hkey].
    + rewrite decide_True by done. rewrite decide_False by done.
      apply lookup_own_upsert.
    + rewrite decide_False by naive_solver.
      destruct (decide (key' = proto_key)); [done|].
      by apply lookup_own_upsert_ne.
  - rewrite decide_False by naive_solver.
    by rewrite lookup_own_upsert_ne.
Qed.

Lemma process_row_data sh row st st' cat :
  process_row sh (headerRow sh) st row = Some st' →
  for_each (process_cell sh (headerRow sh) row) (cols_of cat) (data_of cat st)
  = Some (data_of cat st').
Proof.
  unfold process_row.
  destruct (for_each _ translation_cols st.1) as [ld|] eqn:E1; [|done].
  destruct (for_each _ eula_cols st.2) as [ed|] eqn:E2; [|done].
  intros [= <-]. by destruct cat.
Qed.

(** A cell that does not write [key] for [lang] leaves the stored value
    as it is. *)
Lemma process_cell_stored_keeps sh row data data' col lang key :
  lang ≠ proto_key → key ≠ proto_key →
  (column_language sh col = Some lang →
   ∀ value, cell_pair sh row col ≠ Some (key, value)) →
  process_cell sh (headerRow sh) row data col = Some data' →
  stored lang key data' = stored lang key data.
Proof.
  intros Hl Hk Hno Hstep.
  pose proof (process_cell_stored sh row data data' col lang key Hl Hk Hstep)
    as Hst.
  destruct (cell_pair sh row col) as [[key' value]|]; [|done].
  destruct (decide _) as [[Hc ->]|]; [|done]. by destruct (Hno Hc value).
Qed.

(** X1.  Last write wins: the value stored under a key of a language,
    other than [__proto__], is the one of the last cell, in scan order,
    that parses to that key in a column of that language. *)
Lemma stored_is_last_write sh end_row st cat lang key value row col :
  accumulate sh end_row = Some st →
  lang ≠ proto_key → key ≠ proto_key →
  row ∈ data_rows end_row → col ∈ cols_of cat →
  column_language sh col = Some lang →
  cell_pair sh row col = Some (key, value) →
  (∀ row' col' value',
     row' ∈ data_rows end_row → col' ∈ cols_of cat → later row col row' col' →
     column_language sh col' = Some lang →
     cell_pair sh row' col' ≠ Some (key, value')) →
  stored lang key (data_of cat st) = Some value.
Proof.
  intros Hacc Hl Hk Hrow Hcol Hlang Hpair Hlast.
  unfold data_rows in *.
  destruct (seq_cut _ _ _ Hrow) as (r1 & r2 & Hrows & Hr2).
  assert (∃ c1 c2, cols_of cat = c1 ++ col :: c2 ∧ Forall (λ y, col < y) c2)
    as (c1 & c2 & Hcols & Hc2).
  { destruct cat; by apply seq_cut. }
  unfold accumulate, data_rows in Hacc. rewrite Hrows in Hacc.
  apply (for_each_last (process_row sh (headerRow sh))
           (λ st, stored lang key (data_of cat st)) r1 row r2 _ st (Some value))
    in Hacc; [done| |].
  - intros s1 s2 Hstep. apply (process_row_data _ _ _ _ cat) in Hstep.
    rewrite Hcols in Hstep.
    apply (for_each_last (process_cell sh (headerRow sh) row)
             (stored lang key) c1 col c2 _ _ (Some value)) in Hstep; [done| |].
    + intros d1 d2 Hcell.
      pose proof (process_cell_stored sh row d1 d2 col lang key Hl Hk Hcell) as Hs.
      rewrite Hpair in Hs. by rewrite decide_True in Hs.
    + intros d1 d2 col' Hcol' Hcell.
      apply (process_cell_stored_keeps sh row d1 d2 col'); [done..| |done].
      intros Hlang' value'. apply Hlast; [done| | |done].
      * rewrite Hcols. apply elem_of_app. right. by right.
      * right. split; [done|]. by apply (proj1 (Forall_forall _ _) Hc2).
  - intros s1 s2 row' Hrow' Hstep. apply (process_row_data _ _ _ _ cat) in Hstep.
    apply (for_each_keeps _ (stored lang key)) in Hstep; [done|].
    intros d1 d2 col' Hcol' Hcell.
    apply (process_cell_stored_keeps sh row' d1 d2 col'); [done..| |done].
    intros Hlang' value'. apply Hlast; [|done| |done].
    + rewrite Hrows. apply elem_of_app. right. by right.
    + left. by apply (proj1 (Forall_forall _ _) Hr2).
Qed.

Lemma stored_is_last_write_witness :
  ∃ st, accumulate Sample.overwritten 3 = Some st
        ∧ stored (str "English") (str "k") (data_of Translation st)
          = Some (str "new").
Proof.
  eexists. split; [vm_compute; reflexivity|].
  apply (stored_is_last_write Sample.overwritten 3 _ Translation
           (str "English") (str "k") (str "new") 3 1).
  - vm_compute. reflexivity.
  - discriminate.
  - discriminate.
  - unfold data_rows. apply elem_of_seq. lia.
  - apply elem_of_seq. lia.
  - vm_compute. reflexivity.
  - vm_compute. reflexivity.
  - intros row' col' value' Hr Hc Hlater Hlang.
    unfold data_rows in Hr. apply elem_of_seq in Hr. apply elem_of_seq in Hc.
    destruct Hlater as [?|[<- ?]]; [lia|]. exfalso.
    do 10 (destruct col' as [|col'];
           [try lia; try (vm_compute in Hlang; discriminate Hlang)|]).
    lia.
Defined.
End CoreFacts.

(** ** The handler *)

Section HandlerFacts.
Import JS XLSX Core Spec Node Handler.
Context `{Host}.

Lemma writes_app cs1 cs2 : writes (cs1 ++ cs2) = writes cs1 ++ writes cs2.
Proof. unfold writes. apply omap_app. Qed.

(** One iteration of a writing loop that returns: it issued one
    [writeFileSync], the file of the entry, and appended its path. *)
Lemma write_language_ok outputDir cfg fileName acc entry st files st' :
  write_language outputDir cfg fileName acc entry st = (inr files, st') →
  ∃ pd, emitted cfg outputDir fileName entry pd
        ∧ files = acc ++ [pd.1]
        ∧ writes (calls st') = writes (calls st) ++ [pd].
Proof.
  destruct entry as [lang dict].
  unfold write_language, bind, existsSync, mkdirSync, writeFileSync, read,
    lift, effect, ret, emitted, file_path. simpl.
  destruct (fs_existsSync _ (fs st)); simpl.
  - destruct (prettier_format _ _ _) as [e|out] eqn:Ef; [done|].
    destruct (fs_writeFileSync _ _ _) as [e|w']; [done|]. simpl.
    intros [= <- <-]. eexists (_, out). simpl. split_and!; [done..|].
    by rewrite writes_app.
  - destruct (fs_mkdirSync _ _ _) as [e|w1]; [done|]. simpl.
    destruct (prettier_format _ _ _) as [e|out] eqn:Ef; [done|].
    destruct (fs_writeFileSync _ _ _) as [e|w']; [done|]. simpl.
    intros [= <- <-]. eexists (_, out). simpl. split_and!; [done..|].
    rewrite !writes_app. simpl. by rewrite app_nil_r.
Qed.

(** A writing loop that returns wrote the file of every entry, in order,
    and nothing else, and appended their paths. *)
Lemma write_loop_ok outputDir cfg fileName es acc st files st' :
  for_of (write_language outputDir cfg fileName) es acc st = (inr files, st') →
  ∃ ws, Forall2 (emitted cfg outputDir fileName) es ws
        ∧ files = acc ++ ws.*1
        ∧ writes (calls st') = writes (calls st) ++ ws.
Proof.
  revert acc st. induction es as [|entry es IH]; intros acc st; simpl.
  - unfold ret. intros [= <- <-]. exists []. by rewrite !app_nil_r.
  - unfold bind at 1.
    destruct (write_language _ _ _ acc entry st) as [[e|acc1] st1] eqn:E;
      [done|].
    apply write_language_ok in E as (pd & Hpd & -> & Hw).
    intros (ws & Hws & -> & ->)%IH. exists (pd :: ws).
    split_and!; [by constructor| |].
    + rewrite <- app_assoc. done.
    + rewrite Hw, <- app_assoc. done.
Qed.

Lemma emitted_paths cfg outputDir fileName es ws :
  Forall2 (emitted cfg outputDir fileName) es ws →
  ws.*1 = map (file_path outputDir fileName) (keys es).
Proof.
  induction 1 as [|e pd es ws [Hp _] _ IH]; [done|].
  rewrite fmap_cons, IH, Hp. done.
Qed.

(** What a run of the [try] block that returns went through. *)
Lemma export_body_ok inputFile outputDir w files st :
  export_body inputFile outputDir (State w []) = (inr files, st) →
  ∃ wb sh end_row ld ed cfg ws1 ws2,
    XLSX_readFile inputFile w = inr wb
    ∧ Sheets wb !! sheetName = Some sh
    ∧ ref_end_row sh = Some end_row
    ∧ accumulate sh end_row = Some (ld, ed)
    ∧ Forall2 (emitted cfg outputDir (fileName_of Translation)) (entries ld) ws1
    ∧ Forall2 (emitted cfg outputDir (fileName_of Eula)) (entries ed) ws2
    ∧ files = (ws1 ++ ws2).*1
    ∧ writes (calls st) = ws1 ++ ws2.
Proof.
  unfold export_body, bind at 1, read at 1. simpl.
  destruct (XLSX_readFile inputFile w) as [e|wb] eqn:Ewb; [done|].
  unfold bind at 1.
  destruct (Sheets wb !! sheetName) as [sh|] eqn:Esh; [|done]. unfold ret at 1.
  unfold bind at 1.
  destruct (ref_end_row sh) as [end_row|] eqn:Eref; [|done]. unfold ret at 1.
  unfold bind at 1.
  destruct (accumulate sh end_row) as [[ld ed]|] eqn:Eacc; [|done].
  unfold ret at 1. unfold bind at 1, existsSync at 1, read at 1. simpl.
  unfold bind at 1.
  set (st0 := State w []).
  assert ((∃ st1, (if negb (fs_existsSync outputDir w)
                   then mkdirSync outputDir false else ret ()) st0
                  = (inr (), st1) ∧ writes (calls st1) = [])
          ∨ (∃ e st1, (if negb (fs_existsSync outputDir w)
                       then mkdirSync outputDir false else ret ()) st0
                      = (inl e, st1))) as Hmk.
  { destruct (fs_existsSync outputDir w); simpl.
    - left. by eexists.
    - unfold mkdirSync, effect. simpl.
      destruct (fs_mkdirSync outputDir false w); [right|left].
      + by do 2 eexists.
      + by eexists. }
  destruct Hmk as [(st1 & -> & Hw1)|(e & st1 & ->)]; [|done].
  unfold bind at 1, read at 1.
  destruct (prettier_resolveConfig (fs st1)) as [e|cfg]; [done|].
  unfold bind at 1.
  destruct (for_of _ (entries ld) [] st1) as [[e|files1] st2] eqn:E1; [done|].
  apply write_loop_ok in E1 as (ws1 & Hws1 & -> & Hw2). unfold bind at 1.
  destruct (for_of _ (entries ed) _ st2) as [[e|files2] st3] eqn:E2; [done|].
  apply write_loop_ok in E2 as (ws2 & Hws2 & -> & Hw3). unfold ret.
  intros [= <- <-].
  exists wb, sh, end_row, ld, ed, cfg, ws1, ws2. split_and!; [done..| |].
  - by rewrite fmap_app.
  - rewrite Hw3, Hw2, Hw1. done.
Qed.

(** One iteration of a writing loop, returning or not: it called
    [writeFileSync] at most once, on the file of its entry, and it did if
    it returned. *)
Lemma write_language_writes outputDir cfg fileName acc entry st res st' :
  write_language outputDir cfg fileName acc entry st = (res, st') →
  ∃ ws, writes (calls st') = writes (calls st) ++ ws
        ∧ Forall2 (emitted cfg outputDir fileName) (take (length ws) [entry]) ws
        ∧ (∀ files, res = inr files → length ws = 1).
Proof.
  destruct entry as [lang dict].
  unfold write_language, bind, existsSync, mkdirSync, writeFileSync, read,
    lift, effect, ret, emitted, file_path. simpl.
  destruct (fs_existsSync _ (fs st)); simpl.
  - destruct (prettier_format _ _ _) as [e|out] eqn:Ef.
    { intros [= <- <-]. exists []. rewrite app_nil_r.
      split_and!; [done|constructor|done]. }
    destruct (fs_writeFileSync _ _ _) as [e|w']; simpl;
      intros [= <- <-]; eexists [(_, out)]; simpl; rewrite writes_app;
      (split_and!; [done|by repeat constructor|done]).
  - destruct (fs_mkdirSync _ _ _) as [e|w1]; simpl.
    { intros [= <- <-]. exists []. simpl. rewrite ?writes_app, !app_nil_r.
      split_and!; [done|constructor|done]. }
    destruct (prettier_format _ _ _) as [e|out] eqn:Ef.
    { intros [= <- <-]. exists []. simpl. rewrite ?writes_app, !app_nil_r.
      split_and!; [done|constructor|done]. }
    destruct (fs_writeFileSync _ _ _) as [e|w']; simpl;
      intros [= <- <-]; eexists [(_, out)]; simpl; rewrite !writes_app; simpl;
      rewrite app_nil_r;
      (split_and!; [done|by repeat constructor|done]).
Qed.

Lemma one_write {A B} (P : A → B → Prop) e ws :
  Forall2 P (take (length ws) [e]) ws →
  ws = [] ∨ ∃ pd, ws = [pd] ∧ P e pd.
Proof.
  destruct ws as [|pd ws]; [by left|]. simpl.
  intros [Hp Hrest]%Forall2_cons. rewrite take_nil in Hrest.
  apply Forall2_nil_inv_l in Hrest as ->. right. by exists pd.
Qed.

(** A writing loop, returning or not, wrote the files of the entries it
    went through, in order, skipping none. *)
Lemma write_loop_writes outputDir cfg fileName es acc st res st' :
  for_of (write_language outputDir cfg fileName) es acc st = (res, st') →
  ∃ ws, writes (calls st') = writes (calls st) ++ ws
        ∧ Forall2 (emitted cfg outputDir fileName) (take (length ws) es) ws
        ∧ (∀ files, res = inr files → length ws = length es).
Proof.
  revert acc st. induction es as [|entry es IH]; intros acc st; simpl.
  - unfold ret. intros [= <- <-]. exists []. rewrite app_nil_r.
    split_and!; [done|constructor|done].
  - unfold bind at 1.
    destruct (write_language _ _ _ acc entry st) as [[e|acc1] st1] eqn:E;
      apply write_language_writes in E as (ws1 & Hw1 & Hws1 & Hlen1).
    + intros [= <- <-]. exists ws1. split_and!; [done| |done].
      apply one_write in Hws1 as [->|(pd & -> & Hpd)]; [constructor|].
      simpl. rewrite take_0. constructor; [done|constructor].
    + specialize (Hlen1 _ eq_refl).
      apply one_write in Hws1 as [->|(pd & -> & Hpd)]; [done|].
      intros (ws2 & Hw2 & Hws2 & Hlen2)%IH. exists (pd :: ws2).
      split_and!.
      * by rewrite Hw2, Hw1, <- app_assoc.
      * simpl. by constructor.
      * intros files Hres. simpl. by rewrite (Hlen2 _ Hres).
Qed.

(** *** The run against the answers of the host *)

Lemma made_unique dir recursive w w1 w2 :
  made dir recursive w w1 → made dir recursive w w2 → w1 = w2.
Proof.
  intros [[E1 ->]|[E1 M1]] [[E2 ->]|[E2 M2]]; try congruence.
Qed.

(** One iteration, as the handler runs it, against what the host
    answers. *)
Lemma write_language_run outputDir cfg fileName acc entry st :
  match write_language outputDir cfg fileName acc entry st with
  | (inr files, st') =>
      written outputDir cfg fileName entry (fs st) (fs st')
      ∧ files = acc ++ [file_path outputDir fileName entry.1]
  | (inl e, st') =>
      iteration_throws outputDir cfg fileName entry (fs st) e
  end.
Proof.
  destruct entry as [lang dict].
  unfold write_language, written, iteration_throws, made, file_path.
  cbn [fst snd].
  unfold bind, existsSync, mkdirSync, writeFileSync, read, lift, effect, ret.
  simpl.
  destruct (fs_existsSync _ (fs st)) eqn:Ex; simpl.
  - destruct (prettier_format _ _ _) as [e|out] eqn:Ef.
    { right. left. exists (fs st). split; [by left|done]. }
    destruct (fs_writeFileSync _ _ _) as [e|w'] eqn:Ew; simpl.
    + right. right. exists (fs st), out. split_and!; [by left|done..].
    + split; [|done]. exists (fs st), out. split_and!; [by left|done..].
  - destruct (fs_mkdirSync _ _ _) as [e|w1] eqn:Em; simpl.
    { by left. }
    destruct (prettier_format _ _ _) as [e|out] eqn:Ef.
    { right. left. exists w1. split; [by right|done]. }
    destruct (fs_writeFileSync _ _ _) as [e|w'] eqn:Ew; simpl.
    + right. right. exists w1, out. split_and!; [by right|done..].
    + split; [|done]. exists w1, out. split_and!; [by right|done..].
Qed.

Lemma written_not_throws outputDir cfg fileName entry w w' e :
  written outputDir cfg fileName entry w w' →
  iteration_throws outputDir cfg fileName entry w e → False.
Proof.
  intros (w1 & out & Hm & Hf & Hw) [[Ex Em]|[(w2 & Hm' & Hf')|(w2 & out' & Hm' & Hf' & Hw')]].
  - destruct Hm as [[? _]|[_ ?]]; congruence.
  - congruence.
  - rewrite Hf in Hf'. injection Hf' as <-.
    rewrite (made_unique _ _ _ _ _ Hm Hm') in Hw. congruence.
Qed.

Lemma written_unique outputDir cfg fileName entry w w1 w2 :
  written outputDir cfg fileName entry w w1 →
  written outputDir cfg fileName entry w w2 → w1 = w2.
Proof.
  intros (u1 & out1 & Hm1 & Hf1 & Hw1) (u2 & out2 & Hm2 & Hf2 & Hw2).
  rewrite Hf1 in Hf2. injection Hf2 as <-.
  rewrite (made_unique _ _ _ _ _ Hm1 Hm2) in Hw1. congruence.
Qed.

Lemma iteration_throws_unique outputDir cfg fileName entry w e1 e2 :
  iteration_throws outputDir cfg fileName entry w e1 →
  iteration_throws outputDir cfg fileName entry w e2 → e1 = e2.
Proof.
  intros [[Ex Em]|[(u1 & Hm & Hf)|(u1 & out & Hm & Hf & Hw)]]
         [[Ex' Em']|[(u2 & Hm' & Hf')|(u2 & out' & Hm' & Hf' & Hw')]];
    try congruence;
    try (destruct Hm as [[? _]|[_ ?]]; congruence);
    try (destruct Hm' as [[? _]|[_ ?]]; congruence).
  rewrite Hf in Hf'. injection Hf' as <-.
  rewrite (made_unique _ _ _ _ _ Hm Hm') in Hw. congruence.
Qed.

(** A writing loop, as the handler runs it, against what the host
    answers: it completes, or it throws after [k] iterations, having
    called [writeFileSync] for these and at most for the next one. *)
Lemma write_loop_run outputDir cfg fileName es acc st :
  match for_of (write_language outputDir cfg fileName) es acc st with
  | (inr files, st') =>
      loop_done outputDir cfg fileName es (fs st) (fs st')
  | (inl e, st') =>
      ∃ k ws, loop_throws outputDir cfg fileName es (fs st) e k
              ∧ writes (calls st') = writes (calls st) ++ ws
              ∧ k ≤ length ws ≤ S k
  end.
Proof.
  revert acc st. induction es as [|entry es IH]; intros acc st; simpl.
  - constructor.
  - unfold bind at 1.
    pose proof (write_language_run outputDir cfg fileName acc entry st) as Hit.
    destruct (write_language _ _ _ acc entry st) as [[e|acc1] st1] eqn:E.
    + apply write_language_writes in E as (ws & Hws & Hall & _).
      exists 0, ws. split_and!; [by constructor|done|lia|].
      apply Forall2_length in Hall. rewrite length_take in Hall.
      simpl in Hall. lia.
    + destruct Hit as [Hwr _].
      apply write_language_writes in E as (ws & Hws & _ & Hlen).
      specialize (Hlen _ eq_refl).
      specialize (IH acc1 st1).
      destruct (for_of _ es acc1 st1) as [[e|files] st2].
      * destruct IH as (k & ws2 & Hk & Hws2 & Hn). exists (S k), (ws ++ ws2).
        split_and!; [by econstructor|by rewrite Hws2, Hws, app_assoc|..];
          rewrite length_app; lia.
      * by econstructor.
Qed.

Lemma loop_done_not_throws outputDir cfg fileName es w w' e k :
  loop_done outputDir cfg fileName es w w' →
  loop_throws outputDir cfg fileName es w e k → False.
Proof.
  intros Hd. revert e k. induction Hd as [|entry es w w1 w' Hwr _ IH];
    intros e k Ht; inversion Ht as [? ? ? ? Hit|? ? ? u ? ? Hwr' Ht']; subst.
  - by eapply written_not_throws.
  - eapply IH. by rewrite (written_unique _ _ _ _ _ _ _ Hwr Hwr').
Qed.

Lemma loop_done_unique outputDir cfg fileName es w w1 w2 :
  loop_done outputDir cfg fileName es w w1 →
  loop_done outputDir cfg fileName es w w2 → w1 = w2.
Proof.
  intros Hd. revert w2. induction Hd as [|entry es w u w' Hwr _ IH];
    intros w2 Hd2; inversion Hd2 as [|? ? ? u' ? Hwr' Hd']; subst; [done|].
  apply IH. by rewrite (written_unique _ _ _ _ _ _ _ Hwr Hwr').
Qed.

Lemma loop_throws_unique outputDir cfg fileName es w e1 k1 e2 k2 :
  loop_throws outputDir cfg fileName es w e1 k1 →
  loop_throws outputDir cfg fileName es w e2 k2 → e1 = e2 ∧ k1 = k2.
Proof.
  intros Ht. revert e2 k2.
  induction Ht as [entry es w e1 Hit|entry es w w1 e1 k1 Hwr _ IH];
    intros e2 k2 Ht2;
    inversion Ht2 as [? ? ? ? Hit'|? ? ? u ? ? Hwr' Ht']; subst.
  - split; [by eapply iteration_throws_unique|done].
  - exfalso. by eapply written_not_throws.
  - exfalso. by eapply written_not_throws.
  - rewrite <- (written_unique _ _ _ _ _ _ _ Hwr Hwr') in Ht'.
    destruct (IH _ _ Ht') as [-> ->]. done.
Qed.

Lemma opened_unique inputFile w sh1 r1 sh2 r2 :
  opened inputFile w sh1 r1 → opened inputFile w sh2 r2 → sh1 = sh2 ∧ r1 = r2.
Proof.
  intros (wb1 & Hwb1 & Hsh1 & Hr1) (wb2 & Hwb2 & Hsh2 & Hr2).
  assert (wb1 = wb2) as -> by congruence.
  assert (sh1 = sh2) as -> by congruence. split; congruence.
Qed.

Lemma prepared_unique inputFile outputDir w sh1 r1 ld1 ed1 w1 cfg1
    sh2 r2 ld2 ed2 w2 cfg2 :
  opened inputFile w sh1 r1 → accumulate sh1 r1 = Some (ld1, ed1) →
  made outputDir false w w1 → prettier_resolveConfig w1 = inr cfg1 →
  opened inputFile w sh2 r2 → accumulate sh2 r2 = Some (ld2, ed2) →
  made outputDir false w w2 → prettier_resolveConfig w2 = inr cfg2 →
  ld1 = ld2 ∧ ed1 = ed2 ∧ w1 = w2 ∧ cfg1 = cfg2.
Proof.
  intros Ho1 Ha1 Hm1 Hc1 Ho2 Ha2 Hm2 Hc2.
  destruct (opened_unique _ _ _ _ _ _ Ho1 Ho2) as [-> ->].
  rewrite (made_unique _ _ _ _ _ Hm1 Hm2) in *.
  split_and!; congruence.
Qed.

(** The steps before the loops do not both throw and go through. *)
Lemma early_raise_excludes inputFile outputDir w e sh r w1 cfg :
  opened inputFile w sh r → made outputDir false w w1 →
  prettier_resolveConfig w1 = inr cfg →
  (XLSX_readFile inputFile w = inl e
   ∨ (∃ wb, XLSX_readFile inputFile w = inr wb
            ∧ Sheets wb !! sheetName = None ∧ e = sheet_not_found)
   ∨ (∃ wb sh', XLSX_readFile inputFile w = inr wb
                ∧ Sheets wb !! sheetName = Some sh'
                ∧ ref_end_row sh' = None ∧ e = no_ref_error)
   ∨ (∃ sh' r', opened inputFile w sh' r'
                ∧ fs_existsSync outputDir w = false
                ∧ fs_mkdirSync outputDir false w = inl e)
   ∨ (∃ sh' r' w2, opened inputFile w sh' r' ∧ made outputDir false w w2
                   ∧ prettier_resolveConfig w2 = inl e)) →
  False.
Proof.
  intros (wb & Hwb & Hsh & Hr) Hm Hc
    [?|[(wb' & ? & ? & _)|[(wb' & sh' & ? & ? & ? & _)
       |[(sh' & r' & _ & ? & ?)|(sh' & r' & w2 & _ & Hm' & ?)]]]].
  - congruence.
  - assert (wb' = wb) as -> by congruence. congruence.
  - assert (wb' = wb) as -> by congruence.
    assert (sh' = sh) as -> by congruence. congruence.
  - destruct Hm as [[? _]|[_ ?]]; congruence.
  - rewrite (made_unique _ _ _ _ _ Hm Hm') in *. congruence.
Qed.

(** What a raise before the loops is. *)
Lemma raised_cases inputFile outputDir w e k :
  raised inputFile outputDir w e k →
  (k = 0
   ∧ (XLSX_readFile inputFile w = inl e
      ∨ (∃ wb, XLSX_readFile inputFile w = inr wb
               ∧ Sheets wb !! sheetName = None ∧ e = sheet_not_found)
      ∨ (∃ wb sh', XLSX_readFile inputFile w = inr wb
                   ∧ Sheets wb !! sheetName = Some sh'
                   ∧ ref_end_row sh' = None ∧ e = no_ref_error)
      ∨ (∃ sh' r', opened inputFile w sh' r'
                   ∧ fs_existsSync outputDir w = false
                   ∧ fs_mkdirSync outputDir false w = inl e)
      ∨ (∃ sh' r' w2, opened inputFile w sh' r' ∧ made outputDir false w w2
                      ∧ prettier_resolveConfig w2 = inl e)))
  ∨ (∃ sh r ld ed w1 cfg,
       opened inputFile w sh r ∧ accumulate sh r = Some (ld, ed)
       ∧ made outputDir false w w1 ∧ prettier_resolveConfig w1 = inr cfg
       ∧ (loop_throws outputDir cfg (str "translation.json") (entries ld)
            w1 e k
          ∨ ∃ w2 k', loop_done outputDir cfg (str "translation.json")
                       (entries ld) w1 w2
                     ∧ loop_throws outputDir cfg (str "eula.json")
                         (entries ed) w2 e k'
                     ∧ k = length (entries ld) + k')).
Proof.
  intros [?|wb ? ? ?|wb sh ? ? ? ?|sh r ? ? ?|sh r w1 ? ? ?
          |sh r w1 cfg ld ed k' ? ? ? ? ?|sh r w1 cfg ld ed w2 k' ? ? ? ? ? ?].
  - left. split; [done|]. by left.
  - left. split; [done|]. right. left. by exists wb.
  - left. split; [done|]. right. right. left. by exists wb, sh.
  - left. split; [done|]. do 3 right. left. by exists sh, r.
  - left. split; [done|]. do 4 right. by exists sh, r, w1.
  - right. exists sh, r, ld, ed, w1, cfg. split_and!; [done..|]. by left.
  - right. exists sh, r, ld, ed, w1, cfg. split_and!; [done..|]. right.
    by exists w2, k'.
Qed.

(** The run from the configuration on. *)
Lemma export_tail_run inputFile outputDir w sh end_row ld ed st1 :
  opened inputFile w sh end_row →
  accumulate sh end_row = Some (ld, ed) →
  made outputDir false w (fs st1) →
  writes (calls st1) = [] →
  match (let* prettierConfig := read prettier_resolveConfig in
         let* createdFiles :=
           for_of (write_language outputDir prettierConfig
                     (str "translation.json")) (entries ld) [] in
         let* createdFiles :=
           for_of (write_language outputDir prettierConfig (str "eula.json"))
                  (entries ed) createdFiles in
         ret createdFiles) st1 with
  | (inr files, st) => completed inputFile outputDir w (fs st)
  | (inl e, st) =>
      ∃ k, raised inputFile outputDir w e k
           ∧ k ≤ length (writes (calls st)) ≤ S k
  end.
Proof.
  intros Hop Hacc Hm Hw0. unfold bind at 1, read at 1.
  destruct (prettier_resolveConfig (fs st1)) as [e|cfg] eqn:Ec.
  { exists 0. split; [by eapply raised_resolveConfig|]. rewrite Hw0. simpl. lia. }
  unfold bind at 1.
  pose proof (write_loop_run outputDir cfg (str "translation.json")
                (entries ld) [] st1) as H1.
  destruct (for_of _ (entries ld) [] st1) as [[e|files1] st2] eqn:E1.
  { destruct H1 as (k & ws & Hk & Hws & Hn). exists k.
    split; [by eapply raised_translation|].
    rewrite Hws, Hw0. simpl. lia. }
  apply write_loop_writes in E1 as (ws1 & Hws1 & _ & Hlen1).
  specialize (Hlen1 _ eq_refl). rewrite Hw0 in Hws1. simpl in Hws1.
  unfold bind at 1.
  pose proof (write_loop_run outputDir cfg (str "eula.json")
                (entries ed) files1 st2) as H2.
  destruct (for_of _ (entries ed) files1 st2) as [[e|files2] st3] eqn:E2.
  { destruct H2 as (k & ws & Hk & Hws & Hn).
    exists (length (entries ld) + k).
    split; [by eapply raised_eula|].
    rewrite Hws, Hws1, length_app. lia. }
  unfold ret. by exists sh, end_row, ld, ed, (fs st1), cfg, (fs st2).
Qed.

(** The run, as the handler makes it, against what the host answers: it
    goes through every step, or a step throws the error it ends with,
    after the files before it were written. *)
Lemma export_body_run inputFile outputDir w :
  match export_body inputFile outputDir (State w []) with
  | (inr files, st) => completed inputFile outputDir w (fs st)
  | (inl e, st) =>
      ∃ k, raised inputFile outputDir w e k
           ∧ k ≤ length (writes (calls st)) ≤ S k
  end.
Proof.
  unfold export_body, bind at 1, read at 1. simpl.
  destruct (XLSX_readFile inputFile w) as [e|wb] eqn:Ewb.
  { exists 0. split; [by apply raised_readFile|simpl; lia]. }
  unfold bind at 1.
  destruct (Sheets wb !! sheetName) as [sh|] eqn:Esh; last first.
  { unfold throw. exists 0. split; [by eapply raised_sheet|simpl; lia]. }
  unfold ret at 1. unfold bind at 1.
  destruct (ref_end_row sh) as [end_row|] eqn:Eref; last first.
  { unfold throw. exists 0.
    split; [by eapply raised_decode_range|simpl; lia]. }
  assert (opened inputFile w sh end_row) as Hop by by exists wb.
  unfold ret at 1. unfold bind at 1.
  destruct (accumulate_keys sh end_row) as ([ld ed] & Hacc & _). rewrite Hacc.
  unfold ret at 1. unfold bind at 1, existsSync at 1, read at 1. simpl.
  unfold bind at 1.
  destruct (fs_existsSync outputDir w) eqn:Ex; simpl.
  - unfold ret at 1.
    apply (export_tail_run inputFile outputDir w sh end_row ld ed (State w []));
      [done|done|by left|done].
  - unfold mkdirSync at 1, effect at 1. simpl.
    destruct (fs_mkdirSync outputDir false w) as [e|w1] eqn:Em.
    { exists 0. split; [by eapply raised_mkdir|simpl; lia]. }
    apply (export_tail_run inputFile outputDir w sh end_row ld ed
             (State w1 [Mkdir outputDir false])); [done|done|by right|done].
Qed.

(** A run does not both go through and throw, and it throws one error
    only. *)
Lemma completed_not_raised inputFile outputDir w w' e k :
  completed inputFile outputDir w w' → raised inputFile outputDir w e k → False.
Proof.
  intros (sh & r & ld & ed & w1 & cfg & w2 & Hop & Hacc & Hm & Hc & Hd1 & Hd2).
  intros [[_ Hearly]|(sh' & r' & ld' & ed' & w1' & cfg' & Hop' & Hacc' & Hm' & Hc'
                       & Hloops)]%raised_cases.
  - by eapply early_raise_excludes.
  - destruct (prepared_unique _ _ _ _ _ _ _ _ _ _ _ _ _ _ _ Hop Hacc Hm Hc
                Hop' Hacc' Hm' Hc') as (<- & <- & <- & <-).
    destruct Hloops as [Ht|(w2' & k' & Hd1' & Ht & _)].
    + exact (loop_done_not_throws _ _ _ _ _ _ _ _ Hd1 Ht).
    + rewrite <- (loop_done_unique _ _ _ _ _ _ _ Hd1 Hd1') in Ht.
      exact (loop_done_not_throws _ _ _ _ _ _ _ _ Hd2 Ht).
Qed.

Lemma raised_unique inputFile outputDir w e1 k1 e2 k2 :
  raised inputFile outputDir w e1 k1 → raised inputFile outputDir w e2 k2 →
  e1 = e2 ∧ k1 = k2.
Proof.
  intros H1 H2.
  pose proof (export_body_run inputFile outputDir w) as Hrun.
  destruct (export_body inputFile outputDir (State w [])) as [[e|files] st].
  2:{ exfalso. by eapply completed_not_raised. }
  clear Hrun st e.
  apply raised_cases in H1
    as [[-> Hearly1]|(sh & r & ld & ed & w1 & cfg & Hop & Hacc & Hm & Hc & Hl1)];
  apply raised_cases in H2
    as [[-> Hearly2]|(sh' & r' & ld' & ed' & w1' & cfg' & Hop' & Hacc' & Hm'
                      & Hc' & Hl2)].
  - split; [|done].
    destruct Hearly1
      as [?|[(wb & ? & ? & ?)|[(wb & s1 & ? & ? & ? & ?)
         |[(s1 & r1 & (wb & ? & ? & ?) & ? & ?)
          |(s1 & r1 & u & (wb & ? & ? & ?) & Hu & ?)]]]];
    destruct Hearly2
      as [?|[(wb' & ? & ? & ?)|[(wb' & s2 & ? & ? & ? & ?)
         |[(s2 & r2 & (wb' & ? & ? & ?) & ? & ?)
          |(s2 & r2 & u' & (wb' & ? & ? & ?) & Hu' & ?)]]]];
      repeat match goal with
             | Hx : made _ _ _ _ |- _ => destruct Hx as [[? ?]|[? ?]]
             end;
      subst; congruence.
  - exfalso. by eapply early_raise_excludes.
  - exfalso. by eapply early_raise_excludes.
  - destruct (prepared_unique _ _ _ _ _ _ _ _ _ _ _ _ _ _ _ Hop Hacc Hm Hc
                Hop' Hacc' Hm' Hc') as (<- & <- & <- & <-).
    destruct Hl1 as [Ht1|(w2 & j1 & Hd1 & Ht1 & ->)];
      destruct Hl2 as [Ht2|(w2' & j2 & Hd2 & Ht2 & ->)].
    + by eapply loop_throws_unique.
    + exfalso. exact (loop_done_not_throws _ _ _ _ _ _ _ _ Hd2 Ht1).
    + exfalso. exact (loop_done_not_throws _ _ _ _ _ _ _ _ Hd1 Ht2).
    + rewrite <- (loop_done_unique _ _ _ _ _ _ _ Hd1 Hd2) in Ht2.
      destruct (loop_throws_unique _ _ _ _ _ _ _ _ _ Ht1 Ht2) as [-> ->]. done.
Qed.
End HandlerFacts.

(** * The claims *)

Section Claims.
Import JS XLSX Core Spec Node Handler.

(** C1 (amended).  The text the emitter builds and passes to the formatter
    copies every key and value between double quotes with no escaping at
    all.  When every key and value can stand between JSON quotes as it is
    (no bare quote, no bare control character, only legal escapes), that
    text is a JSON object whose members are the entries of
    [Object.entries], each verbatim; these are the properties of the
    dictionary, and they are in insertion order when no key is an array
    index. *)
Theorem jsonString_members_verbatim (dict : obj jsstring) :
  Forall (λ e, Json.body_ok e.1 = true ∧ Json.body_ok e.2 = true) dict →
  Json.parse (jsonString dict) = Some (Json.JObject (as_members (entries dict)))
  ∧ entries dict ≡ₚ dict
  ∧ (Forall (λ e, array_index e.1 = None) dict → entries dict = dict).
Proof.
  intros Hok. split_and!.
  - by apply jsonString_parse.
  - apply entries_perm.
  - apply entries_named.
Qed.

Lemma jsonString_members_verbatim_witness :
  Json.parse (jsonString [(str "hello", str "Hi there")])
  = Some (Json.JObject [(str "hello", Json.JString (str "Hi there"))]).
Proof.
  refine (proj1 (jsonString_members_verbatim [(str "hello", str "Hi there")] _)).
  repeat constructor.
Defined.

(** C1, as stated, fails: a value holding a double quote is copied as it
    is and the text is no JSON document; and array-index keys are listed
    first, whatever the insertion order. *)
Lemma jsonString_not_json :
  Json.parse (jsonString [(str "a", Sample.quote_in_value)]) = None
  ∧ Regex.kv_match (Sample.pair_text (str "a") Sample.quote_in_value)
    = Some (str "a", Sample.quote_in_value)
  ∧ Json.parse (jsonString [(str "b", str "x"); (str "1", str "y")])
    = Some (Json.JObject [(str "1", Json.JString (str "y"));
                          (str "b", Json.JString (str "x"))]).
Proof. split_and!; vm_compute; reflexivity. Qed.

(** C3.  When the workbook opens and has no sheet of the expected name,
    the handler returns the failure [Sheet not found], having issued no
    call that changes the file system: the world is as it was. *)
Theorem missing_sheet_no_side_effect `{Host} inputFile outputDir w wb :
  XLSX_readFile inputFile w = inr wb →
  Sheets wb !! sheetName = None →
  export_translation inputFile outputDir w
  = (Result false sheet_not_found None None, State w []).
Proof.
  intros Hwb Hsh.
  unfold export_translation, export_body, bind at 1, read at 1. simpl.
  rewrite Hwb. unfold bind at 1. rewrite Hsh. done.
Qed.

Lemma missing_sheet_no_side_effect_witness :
  @export_translation Sample.host (str "/in.xlsx") (str "/out")
    Sample.disk_other_sheet
  = (Result false sheet_not_found None None,
     @State Sample.host Sample.disk_other_sheet []).
Proof.
  apply (@missing_sheet_no_side_effect Sample.host (str "/in.xlsx") (str "/out")
           Sample.disk_other_sheet
           (Workbook {[ str "Sheet1" := Sample.greetings ]}));
    vm_compute; reflexivity.
Defined.

(** The directory of the output is made without [recursive]: when it is
    absent and [mkdirSync] throws, the handler fails with that error,
    before any file is written. *)
Lemma outputDir_mkdir_error `{Host} inputFile outputDir w wb sh end_row e :
  XLSX_readFile inputFile w = inr wb →
  Sheets wb !! sheetName = Some sh →
  ref_end_row sh = Some end_row →
  fs_existsSync outputDir w = false →
  fs_mkdirSync outputDir false w = inl e →
  export_translation inputFile outputDir w
  = (Result false e None None, State w [Mkdir outputDir false]).
Proof.
  intros Hwb Hsh Href Hex Hmk.
  unfold export_translation, export_body, bind at 1, read at 1. simpl.
  rewrite Hwb. unfold bind at 1. rewrite Hsh. unfold ret at 1.
  unfold bind at 1. rewrite Href. unfold ret at 1. unfold bind at 1.
  destruct (accumulate_keys sh end_row) as ([ld ed] & -> & _).
  unfold ret at 1. unfold bind at 1, existsSync at 1, read at 1. simpl.
  rewrite Hex. unfold bind at 1. simpl.
  unfold mkdirSync, effect. simpl. rewrite Hmk. done.
Qed.

(** C4, the failing run: the output directory [/a/b] under a missing
    [/a].  The handler calls [mkdirSync] without [recursive], which throws
    ENOENT, and returns a failure, the disk left as it was; the same call
    with [recursive], as the language folders get it, makes both
    directories. *)
Theorem export_into_missing_parent :
  (@export_translation Sample.host (str "/in.xlsx") (str "/a/b")
     (Sample.disk_with Sample.greetings)).1
  = Result false (Sample.errno Sample.ENOENT (str "mkdir") (str "/a/b"))
           None None
  ∧ calls (@export_translation Sample.host (str "/in.xlsx") (str "/a/b")
             (Sample.disk_with Sample.greetings)).2
    = [Mkdir (str "/a/b") false]
  ∧ fs (@export_translation Sample.host (str "/in.xlsx") (str "/a/b")
          (Sample.disk_with Sample.greetings)).2
    = Sample.disk_with Sample.greetings
  ∧ match Sample.mkdir (str "/a/b") true (Sample.disk_with Sample.greetings) with
    | inr d => Sample.is_dir [str "a"] d && Sample.is_dir [str "a"; str "b"] d
    | inl _ => false
    end = true.
Proof. split_and!; vm_compute; reflexivity. Qed.

(** C9.  The handler returns a result for every input, and never throws.
    When a step of the run throws (the reader, the sheet lookup, the
    range, the [mkdirSync] of the output directory, the configuration, a
    [mkdirSync], the formatter or a [writeFileSync] of a loop, in the
    world that step meets), the result is the failure whose message is
    the error of that step, and no other step throws; when no step
    throws, the run goes through every step and the result is the success
    with the list of files and its length. *)
Theorem export_never_throws `{Host} inputFile outputDir w :
  ∃ r st,
    export_translation inputFile outputDir w = (r, st)
    ∧ ((∃ createdFiles,
          r = Result true (str "Export completed successfully!")
                (Some (length createdFiles)) (Some createdFiles)
          ∧ completed inputFile outputDir w (fs st)
          ∧ ∀ e k, ¬ raised inputFile outputDir w e k)
       ∨ (∃ e k,
            r = Result false e None None
            ∧ raised inputFile outputDir w e k
            ∧ ∀ e' k', raised inputFile outputDir w e' k' → e' = e)).
Proof.
  unfold export_translation.
  pose proof (export_body_run inputFile outputDir w) as Hrun.
  destruct (export_body inputFile outputDir (State w []))
    as [[e|createdFiles] st] eqn:E.
  - destruct Hrun as (k & Hk & _). eexists _, st. split; [done|]. right.
    exists e, k. split_and!; [done..|]. intros e' k' Hk'.
    by destruct (raised_unique _ _ _ _ _ _ _ Hk' Hk).
  - eexists _, st. split; [done|]. left. exists createdFiles.
    split_and!; [done..|]. intros e k Hk.
    by eapply completed_not_raised.
Qed.





(** X2.  One dictionary and one file per language.  On success, each
    category has an object whose keys are the languages of its columns
    other than [__proto__], each once; the [writeFileSync] calls are, in
    the order of [Object.entries], one per dictionary of the translation
    object then one per dictionary of the licence object, each on the path
    of its language with the formatter's output for the text built from
    the dictionary; and [files] lists the paths of these calls. *)
Theorem one_file_per_language `{Host} inputFile outputDir w wb sh r st :
  XLSX_readFile inputFile w = inr wb →
  Sheets wb !! sheetName = Some sh →
  export_translation inputFile outputDir w = (r, st) →
  success r = true →
  ∃ ld ed cfg ws1 ws2,
    (∀ cat, NoDup (keys (data_of cat (ld, ed)))
            ∧ ∀ lang, lang ∈ keys (data_of cat (ld, ed))
                      ↔ lang ∈ languages sh (cols_of cat) ∧ lang ≠ proto_key)
    ∧ keys (entries ld) ≡ₚ keys ld
    ∧ keys (entries ed) ≡ₚ keys ed
    ∧ Forall2 (emitted cfg outputDir (fileName_of Translation)) (entries ld) ws1
    ∧ Forall2 (emitted cfg outputDir (fileName_of Eula)) (entries ed) ws2
    ∧ writes (calls st) = ws1 ++ ws2
    ∧ files r = Some (writes (calls st)).*1
    ∧ files r
      = Some (map (file_path outputDir (fileName_of Translation))
                  (keys (entries ld))
              ++ map (file_path outputDir (fileName_of Eula))
                     (keys (entries ed))).
Proof.
  intros Hwb Hsh Hrun Hok. unfold export_translation in Hrun.
  destruct (export_body inputFile outputDir (State w []))
    as [[e|createdFiles] st'] eqn:E.
  { injection Hrun as <- <-. done. }
  injection Hrun as <- <-.
  apply export_body_ok in E
    as (wb' & sh' & end_row & ld & ed & cfg & ws1 & ws2 & Hwb' & Hsh' & _
        & Hacc & Hws1 & Hws2 & Hfiles & Hwr).
  rewrite Hwb in Hwb'. injection Hwb' as <-.
  rewrite Hsh in Hsh'. injection Hsh' as <-.
  exists ld, ed, cfg, ws1, ws2. split_and!; [|..|done|done|done| |].
  - intros cat. destruct (accumulate_keys sh end_row) as (acc & Hacc' & Hk).
    rewrite Hacc in Hacc'. injection Hacc' as <-. rewrite Hk.
    destruct (init_langs_keys sh (cols_of cat)) as (Hnd & _ & Hin). done.
  - unfold keys. by rewrite entries_perm.
  - unfold keys. by rewrite entries_perm.
  - simpl. by rewrite Hfiles, Hwr.
  - simpl. rewrite Hfiles, fmap_app.
    by rewrite (emitted_paths _ _ _ _ _ Hws1), (emitted_paths _ _ _ _ _ Hws2).
Qed.

Lemma one_file_per_language_witness :
  files (@export_translation Sample.host (str "/in.xlsx") (str "/out")
           (Sample.disk_with Sample.greetings)).1
  = Some (writes
            (calls (@export_translation Sample.host (str "/in.xlsx")
                      (str "/out") (Sample.disk_with Sample.greetings)).2)).*1.
Proof.
  destruct (@one_file_per_language Sample.host (str "/in.xlsx")
              (str "/out") (Sample.disk_with Sample.greetings)
              (Workbook {[ sheetName := Sample.greetings ]})
              Sample.greetings
              (@export_translation Sample.host (str "/in.xlsx") (str "/out")
                 (Sample.disk_with Sample.greetings)).1
              (@export_translation Sample.host (str "/in.xlsx") (str "/out")
                 (Sample.disk_with Sample.greetings)).2)
    as (ld & ed & cfg & ws1 & ws2 & _ & _ & _ & _ & _ & _ & Hw & _).
  - vm_compute. reflexivity.
  - vm_compute. reflexivity.
  - by destruct (export_translation _ _ _).
  - vm_compute. reflexivity.
  - exact Hw.
Defined.

(** C6, the failing run: a column whose header text is [__proto__].  The
    header is non-empty text, the cell below it parses, the export
    succeeds, and no dictionary and no file exist for that name. *)
Theorem proto_header_gets_no_file :
  column_language Sample.proto_header 1 = Some proto_key
  ∧ cell_pair Sample.proto_header 2 1 = Some (str "hello", str "Hi")
  ∧ accumulate Sample.proto_header 2 = Some ([], [])
  ∧ (@export_translation Sample.host (str "/in.xlsx") (str "/out")
       (Sample.disk_with Sample.proto_header)).1
    = Result true (str "Export completed successfully!") (Some 0) (Some [])
  ∧ calls (@export_translation Sample.host (str "/in.xlsx") (str "/out")
             (Sample.disk_with Sample.proto_header)).2 = [].
Proof. split_and!; vm_compute; reflexivity. Qed.

(** C5, the failing run: two rows give the key [__proto__] a value for
    English.  Both cells parse, and the dictionary of English ends up
    empty: the file holds neither value. *)
Theorem proto_key_is_never_stored :
  cell_pair Sample.proto_rows 2 1 = Some (proto_key, str "first")
  ∧ cell_pair Sample.proto_rows 3 1 = Some (proto_key, str "second")
  ∧ accumulate Sample.proto_rows 3 = Some ([(str "English", [])], [])
  ∧ calls (@export_translation Sample.host (str "/in.xlsx") (str "/out")
             (Sample.disk_with Sample.proto_rows)).2
    = [Mkdir (str "/out/en") true;
       WriteFile (str "/out/en/translation.json") (str "{}" ++ [LF])].
Proof. split_and!; vm_compute; reflexivity. Qed.

(** C7.  The folder of a non-empty language name: the name is lower-cased
    code unit by code unit; when that gives [italian] the folder is
    [ita]; otherwise the folder is the first two code units of the
    lower-cased name (the whole of it when it has one); it is never
    empty. *)
Theorem folderName_rule (lang : jsstring) :
  lang ≠ [] →
  (∀ i, toLowerCase lang !! i = lower_unit <$> lang !! i)
  ∧ (toLowerCase lang = str "italian" → folderName lang = str "ita")
  ∧ (toLowerCase lang ≠ str "italian" →
     folderName lang `prefix_of` toLowerCase lang
     ∧ length (folderName lang) = 2 `min` length lang)
  ∧ folderName lang ≠ [].
Proof.
  intros Hne. split_and!.
  - intros i. unfold toLowerCase. apply list_lookup_fmap.
  - intros Hit. unfold folderName. by rewrite decide_True.
  - intros Hnit. unfold folderName, substring0. rewrite decide_False by done.
    split; [apply prefix_take|].
    unfold toLowerCase. by rewrite length_take, length_map.
  - unfold folderName, substring0, toLowerCase.
    destruct (decide _); [done|]. by destruct lang.
Qed.

Lemma folderName_rule_witness :
  folderName (str "Italian") = str "ita"
  ∧ folderName (str "English") = str "en".
Proof.
  split.
  - apply (folderName_rule (str "Italian")); [discriminate|reflexivity].
  - destruct (folderName_rule (str "English")) as (_ & _ & _ & _);
      [discriminate|reflexivity].
Defined.

(** C8 (amended).  An absent cell gives nothing.  Otherwise the extractor
    takes the formatted text when it is a non-empty string and the raw
    value in every other case.  In the data loops the result counts only
    when it is a non-empty string.  In the header loop it is kept as it
    is, whatever its type. *)
Theorem cell_extraction (c : option cell) :
  match c with
  | None => header_value c = VUndefined ∧ cell_text c = None
  | Some c' =>
      display_or_raw c'
      = match w c' with
        | Some (u :: s) => VString (u :: s)
        | _ => v c'
        end
      ∧ header_value c = display_or_raw c'
      ∧ cell_text c
        = match display_or_raw c' with
          | VString (u :: s) => Some (u :: s)
          | _ => None
          end
  end.
Proof.
  destruct c as [[ww x]|]; [|done].
  unfold header_value, cell_text, display_or_raw, or_else. simpl.
  destruct ww as [[|u s]|]; simpl; split_and!; try done;
    destruct x as [|[|??]|n|[]]; simpl; rewrite ?orb_true_r; done.
Qed.

(** C8, as stated, fails in the header loop: a numeric header is not
    dropped, it names the language [5]; and an empty formatted text does
    not stop the raw value from being taken. *)
Lemma header_value_keeps_number :
  header_value (Some (Cell None (VNumber 5))) = VNumber 5
  ∧ column_language Sample.numeric_header 1 = Some (str "5")
  ∧ accumulate Sample.numeric_header 2 = Some ([(str "5", [])], [])
  ∧ cell_text (Some (Cell (Some []) (VString (str "raw")))) = Some (str "raw").
Proof. split_and!; vm_compute; reflexivity. Qed.

(** The scenario of the specification, run on the model disk. *)
Example greetings_files :
  (@export_translation Sample.host (str "/in.xlsx") (str "/out")
     (Sample.disk_with Sample.greetings)).1
  = Result true (str "Export completed successfully!") (Some 2)
      (Some [str "/out/en/translation.json"; str "/out/ita/translation.json"])
  ∧ calls (@export_translation Sample.host (str "/in.xlsx") (str "/out")
             (Sample.disk_with Sample.greetings)).2
    = [Mkdir (str "/out/en") true;
       WriteFile (str "/out/en/translation.json")
         (str "{" ++ [LF] ++ str "  " ++ Sample.pair_text (str "hello") (str "Hi there")
            ++ [LF] ++ str "}" ++ [LF]);
       Mkdir (str "/out/ita") true;
       WriteFile (str "/out/ita/translation.json")
         (str "{" ++ [LF] ++ str "  " ++ Sample.pair_text (str "hello") (str "Ciao")
            ++ [LF] ++ str "}" ++ [LF])].
Proof. split; vm_compute; reflexivity. Qed.

(** Free text without a quoted pair contributes nothing. *)
Example free_text_no_match : Regex.kv_match (str "Some note") = None.
Proof. reflexivity. Qed.

Example folderName_cases :
  folderName (str "ITALIAN") = str "ita"
  ∧ folderName (str "Italiano") = str "it"
  ∧ folderName (str "Deutsch") = str "de"
  ∧ folderName (str "E") = str "e".
Proof. split_and!; reflexivity. Qed.
End Claims.

(** * Further properties *)

(** ** The pattern and the emitter *)

Section MoreRegexFacts.
Import Regex Spec.

Lemma split_last_quote_end a b :
  QUOTE ∉ b → split_last_quote (a ++ QUOTE :: b) = Some (a, b).
Proof.
  intros Hb.
  assert (split_last_quote b = None) as Hnone.
  { destruct (split_last_quote b) as [[a' b']|] eqn:E; [|done].
    apply split_last_quote_Some in E as [-> _]. exfalso. apply Hb.
    apply elem_of_app. right. by left. }
  induction a as [|c a IH]; simpl.
  - by rewrite Hnone.
  - by rewrite IH.
Qed.

(** An occurrence at the start of the input that no quote follows is the
    anchored match, key and value. *)
Lemma kv_at_exact s key value post :
  occurrence s [] key value post → (QUOTE ∉ post) →
  kv_at s = Some (key, value).
Proof.
  intros (ws1 & ws2 & -> & Hne & Hq & Hws1 & Hws2) Hpost.
  apply not_quote_run in Hq.
  replace ([] ++ quoted key ++ ws1 ++ [COLON] ++ ws2 ++ quoted value ++ post)
    with (QUOTE :: key ++ QUOTE :: ws1 ++ COLON :: ws2 ++ QUOTE :: value
            ++ QUOTE :: post)
    by (unfold quoted; simpl; by rewrite <- !app_assoc).
  unfold kv_at. rewrite chr_hit.
  rewrite plus_follow by (intros m c r Hc; apply chr_miss; intros <-;
                          by apply not_quote_true in Hc).
  rewrite (span_unique not_quote key QUOTE) by done. simpl fst; simpl snd.
  destruct key as [|k0 k]; [done|]. rewrite chr_hit.
  rewrite star_follow by (intros m c r Hc; apply chr_miss; intros <-;
                          by rewrite colon_is_no_space in Hc).
  rewrite (span_unique is_space ws1 COLON) by done. simpl fst; simpl snd.
  rewrite chr_hit.
  rewrite star_follow by (intros m c r Hc; apply chr_miss; intros <-;
                          by rewrite quote_is_no_space in Hc).
  rewrite (span_unique is_space ws2 QUOTE) by done. simpl fst; simpl snd.
  rewrite chr_hit.
  rewrite (star_any_last (λ m, (k0 :: k, m))).
  by rewrite split_last_quote_end.
Qed.

Lemma kv_match_key s key value :
  kv_match s = Some (key, value) → key ≠ [] ∧ QUOTE ∉ key.
Proof.
  intros (pre & rest & -> & Hat & _)%kv_match_Some.
  apply kv_at_Some in Hat as (post & (ws1 & ws2 & _ & ? & ? & _) & _). done.
Qed.
End MoreRegexFacts.

Section RoundTrip.
Import JS Core Regex Spec.

(** X6.  Parsing and emitting compose: whatever pair the pattern of the
    row loop gives for a cell text, the member line the emitter builds
    for that pair parses back, under the same pattern, to the same key and
    the same value, also when the value holds double quotes. *)
Theorem member_line_parses_back (s key value : jsstring) :
  kv_match s = Some (key, value) →
  kv_match (member_line (key, value)) = Some (key, value).
Proof.
  intros [Hne Hq]%kv_match_key.
  unfold member_line. cbn [fst snd].
  change (str "  ") with [" "%char; " "%char]. cbn [app].
  rewrite kv_match_unfold.
  replace (kv_at (" "%char :: " "%char :: _)) with (@None (jsstring * jsstring))
    by (symmetry; by apply chr_miss).
  rewrite kv_match_unfold.
  replace (kv_at (" "%char :: _)) with (@None (jsstring * jsstring))
    by (symmetry; by apply chr_miss).
  rewrite kv_match_unfold.
  rewrite (kv_at_exact _ key value []); [done| |apply not_elem_of_nil].
  exists [], [" "%char]. split_and!; [|done|done|constructor|by repeat constructor].
  simpl. by rewrite app_nil_r.
Qed.
Lemma member_line_parses_back_witness :
  kv_match (member_line (str "a", Sample.quote_in_value))
  = Some (str "a", Sample.quote_in_value).
Proof.
  apply (member_line_parses_back
           (Sample.pair_text (str "a") Sample.quote_in_value)).
  vm_compute. reflexivity.
Defined.
End RoundTrip.

Section MoreCoreFacts.
Import JS XLSX Core Spec.
Implicit Types (sh : sheet) (data : obj (obj jsstring)) (lang key : jsstring).

(** A loop that returns keeps what every iteration that returns keeps. *)
Lemma for_each_preserves {S I} (body : S → I → option S) (P : S → Prop) l s s' :
  P s →
  (∀ s1 s2 i, i ∈ l → P s1 → body s1 i = Some s2 → P s2) →
  for_each body l s = Some s' → P s'.
Proof.
  revert s. induction l as [|i l IH]; intros s Hs Hbody; simpl.
  - by intros [= <-].
  - destruct (body s i) as [s1|] eqn:E; [|done].
    apply IH; [by apply (Hbody s s1 i); [left| |]|].
    intros s2 s3 j Hj. apply Hbody. by right.
Qed.

(** Two bodies that agree on the items of the list give the same loop. *)
Lemma for_each_ext {S I} (f g : S → I → option S) l s :
  (∀ s i, i ∈ l → f s i = g s i) → for_each f l s = for_each g l s.
Proof.
  revert s. induction l as [|i l IH]; intros s Hfg; simpl; [done|].
  rewrite <- (Hfg s i) by left.
  destruct (f s i); [|done]. apply IH. intros s' j Hj. apply Hfg. by right.
Qed.

Lemma foldl_ext_in {S I} (f g : S → I → S) l s :
  (∀ s i, i ∈ l → f s i = g s i) → foldl f s l = foldl g s l.
Proof.
  revert s. induction l as [|i l IH]; intros s Hfg; simpl; [done|].
  rewrite <- (Hfg s i) by left. apply IH. intros s' j Hj. apply Hfg. by right.
Qed.

(** Every dictionary is empty when the row loop starts. *)
Lemma init_langs_empty (hdr : list value) cols :
  Forall (λ e, e.2 = []) (init_langs hdr cols).
Proof.
  unfold init_langs.
  assert (∀ acc : obj (obj jsstring),
            Forall (λ e, e.2 = []) acc →
            Forall (λ e, e.2 = [])
              (foldl (λ data col,
                        let langName := header_at hdr col in
                        if truthy langName then set_fresh (to_key langName) data
                        else data) acc cols)) as Hgen; [|by apply Hgen].
  induction cols as [|col cols IH]; intros acc Hacc; simpl; [done|].
  apply IH. destruct (truthy _); [|done]. unfold set_fresh.
  destruct (decide _); [done|].
  induction Hacc as [|[k d] acc Hd Hacc IHacc]; simpl.
  - by repeat constructor.
  - destruct (decide _); constructor; done.
Qed.

Lemma stored_init lang key (hdr : list value) cols :
  stored lang key (init_langs hdr cols) = None.
Proof.
  unfold stored.
  destruct (lookup_own lang (init_langs hdr cols)) as [d|] eqn:E; [|done].
  apply lookup_own_elem in E.
  pose proof (init_langs_empty hdr cols) as Hall.
  rewrite Forall_forall in Hall. apply Hall in E. simpl in E. by subst d.
Qed.

(** Where a stored value comes from: it was there before the cell, or
    the cell parses to it in a column of the language. *)
Lemma process_cell_stored_source sh row data data' col lang key value :
  process_cell sh (headerRow sh) row data col = Some data' →
  stored lang key data' = Some value →
  stored lang key data = Some value
  ∨ (column_language sh col = Some lang
     ∧ cell_pair sh row col = Some (key, value)).
Proof.
  rewrite process_cell_spec.
  destruct (column_language sh col) as [lang'|] eqn:El; last first.
  { intros [= ->]. by left. }
  destruct (cell_pair sh row col) as [[key' value']|]; last first.
  { intros [= ->]. by left. }
  unfold set_nested. destruct (decide (lang' = proto_key)) as [->|Hl'].
  { intros [= ->]. by left. }
  destruct (lookup_own lang' data) as [d|] eqn:Ed; [|done]. intros [= <-].
  unfold stored. destruct (decide (lang' = lang)) as [->|Hne].
  - rewrite lookup_own_upsert, Ed. simpl. unfold set_string.
    destruct (decide (key' = proto_key)); [by left|].
    destruct (decide (key' = key)) as [->|Hkey].
    + rewrite lookup_own_upsert. intros [= ->]. by right.
    + rewrite lookup_own_upsert_ne by done. by left.
  - rewrite lookup_own_upsert_ne by done. by left.
Qed.

(** X4.  Nothing is stored that no cell gave: a value stored under a key
    in the dictionary of a language, after the row loop, is the value some
    cell of a data row, in a column of that language and category, parses
    to under that key. *)
Theorem stored_has_source sh end_row st cat lang key value :
  accumulate sh end_row = Some st →
  stored lang key (data_of cat st) = Some value →
  ∃ row col,
    row ∈ data_rows end_row ∧ col ∈ cols_of cat
    ∧ column_language sh col = Some lang
    ∧ cell_pair sh row col = Some (key, value).
Proof.
  intros Hacc. revert value.
  set (P := λ data : obj (obj jsstring),
         ∀ value, stored lang key data = Some value →
           ∃ row col, row ∈ data_rows end_row ∧ col ∈ cols_of cat
             ∧ column_language sh col = Some lang
             ∧ cell_pair sh row col = Some (key, value)).
  change (P (data_of cat st)). unfold accumulate in Hacc.
  refine (for_each_preserves _ (λ st, P (data_of cat st)) _ _ _ _ _ Hacc).
  - intros value. destruct cat; simpl; by rewrite stored_init.
  - intros s1 s2 row Hrow Hs1 Hstep.
    apply (process_row_data _ _ _ _ cat) in Hstep.
    refine (for_each_preserves _ P _ _ _ Hs1 _ Hstep).
    intros d1 d2 col Hcol Hd1 Hcell value Hst.
    destruct (process_cell_stored_source _ _ _ _ _ _ _ _ Hcell Hst)
      as [Hold|[Hlang Hpair]]; [by apply Hd1|].
    by exists row, col.
Qed.

Lemma stored_has_source_witness :
  ∃ row col,
    row ∈ data_rows 2 ∧ col ∈ cols_of Translation
    ∧ column_language Sample.greetings col = Some (str "Italian")
    ∧ cell_pair Sample.greetings row col = Some (str "hello", str "Ciao").
Proof.
  apply (stored_has_source Sample.greetings 2
           ([(str "English", [(str "hello", str "Hi there")]);
             (str "Italian", [(str "hello", str "Ciao")])], [])
           Translation (str "Italian") (str "hello") (str "Ciao"));
    vm_compute; reflexivity.
Defined.

(** X5.  What the two objects depend on: the header row and the data rows
    up to the end of the range, in columns 1 to 9 and 13 to 21, and
    nothing else.  Two sheets that agree on these cells give the same two
    objects, whatever row 0, column 0, columns 10 to 12, the columns past
    21 and the rows below the range hold. *)
Theorem accumulate_depends_on_ranges sh1 sh2 end_row :
  (∀ row col,
     row = 1 ∨ row ∈ data_rows end_row →
     col ∈ translation_cols ++ eula_cols →
     cells sh1 !! (row, col) = cells sh2 !! (row, col)) →
  accumulate sh1 end_row = accumulate sh2 end_row.
Proof.
  intros Hsame.
  assert (∀ col, col ∈ translation_cols ++ eula_cols →
            header_at (headerRow sh1) col = header_at (headerRow sh2) col)
    as Hhdr.
  { intros col Hcol. rewrite !header_at_range by done.
    by rewrite Hsame; [|left|]. }
  assert (∀ cols, cols ⊆ translation_cols ++ eula_cols →
            init_langs (headerRow sh1) cols = init_langs (headerRow sh2) cols)
    as Hinit.
  { intros cols Hcols. unfold init_langs. apply foldl_ext_in.
    intros data col Hcol. simpl. by rewrite Hhdr by by apply Hcols. }
  assert (∀ row cols data,
            row ∈ data_rows end_row → cols ⊆ translation_cols ++ eula_cols →
            for_each (process_cell sh1 (headerRow sh1) row) cols data
            = for_each (process_cell sh2 (headerRow sh2) row) cols data)
    as Hcells.
  { intros row cols data Hrow Hcols. apply for_each_ext.
    intros d col Hcol. unfold process_cell.
    rewrite Hhdr by by apply Hcols.
    by rewrite Hsame; [|right|apply Hcols]. }
  unfold accumulate.
  rewrite !Hinit by (intros col Hcol; apply elem_of_app; auto).
  apply for_each_ext. intros [ld ed] row Hrow. unfold process_row.
  cbn [fst snd].
  rewrite !Hcells by (try done; intros col Hcol; apply elem_of_app; auto).
  done.
Qed.

Lemma accumulate_depends_on_ranges_witness :
  accumulate Sample.with_notes 2 = accumulate Sample.greetings 2.
Proof.
  apply accumulate_depends_on_ranges.
  intros row col Hrow Hcol.
  assert (row = 1 ∨ row = 2) as Hr.
  { destruct Hrow as [?|Hr]; [by left|]. right.
    unfold data_rows in Hr. apply elem_of_seq in Hr. lia. }
  unfold translation_cols, eula_cols in Hcol. simpl in Hcol.
  repeat (apply elem_of_cons in Hcol as [->|Hcol];
          [destruct Hr as [-> | ->]; vm_compute; reflexivity|]).
  by apply elem_of_nil in Hcol.
Defined.

(** X3.  Accumulation never throws: every language the row loop assigns
    into has a dictionary, so the TypeError of an assignment to a
    property of undefined is out of reach; and each of the two objects
    ends with one dictionary per language of its columns other than
    [__proto__], each once. *)
Theorem accumulate_never_throws sh end_row :
  ∃ ld ed,
    accumulate sh end_row = Some (ld, ed)
    ∧ ∀ cat,
        NoDup (keys (data_of cat (ld, ed)))
        ∧ ∀ lang, lang ∈ keys (data_of cat (ld, ed))
                  ↔ lang ∈ languages sh (cols_of cat) ∧ lang ≠ proto_key.
Proof.
  destruct (accumulate_keys sh end_row) as ([ld ed] & Hacc & Hk).
  exists ld, ed. split; [done|]. intros cat. rewrite Hk.
  destruct (init_langs_keys sh (cols_of cat)) as (Hnd & _ & Hin). done.
Qed.
End MoreCoreFacts.

Section ReplayFacts.
Import JS XLSX Core Spec Replay.
Implicit Types (sh : sheet) (data : obj (obj jsstring)) (lang key : jsstring).

Lemma replay_app ws1 ws2 d : replay (ws1 ++ ws2) d = replay ws2 (replay ws1 d).
Proof. unfold replay. apply foldl_app. Qed.

(** A loop whose iterations each replay their pairs on an observed
    dictionary replays them all, in order. *)
Lemma for_each_replay {S I} (body : S → I → option S)
    (obs : S → option (obj jsstring)) (ws : I → list (jsstring * jsstring))
    l s s' d :
  (∀ s1 s2 i d, i ∈ l → body s1 i = Some s2 → obs s1 = Some d →
                obs s2 = Some (replay (ws i) d)) →
  for_each body l s = Some s' → obs s = Some d →
  obs s' = Some (replay (flat_map ws l) d).
Proof.
  revert s d. induction l as [|i l IH]; intros s d Hbody; simpl.
  - by intros [= <-].
  - destruct (body s i) as [s1|] eqn:E; [|done]. intros Hrest Hd.
    rewrite replay_app. apply (IH s1); [|done|].
    + intros s2 s3 j d' Hj. apply Hbody. by right.
    + apply (Hbody s s1 i); [by left|done..].
Qed.

Lemma process_cell_replay sh row data data' col lang d :
  lang ≠ proto_key →
  process_cell sh (headerRow sh) row data col = Some data' →
  lookup_own lang data = Some d →
  lookup_own lang data' = Some (replay (cell_writes sh row lang col) d).
Proof.
  intros Hl. rewrite process_cell_spec. unfold cell_writes.
  destruct (column_language sh col) as [lang'|] eqn:El; last first.
  { intros [= ->]. by rewrite decide_False. }
  destruct (cell_pair sh row col) as [[key value]|]; last first.
  { intros [= ->]. by destruct (decide _). }
  unfold set_nested. destruct (decide (lang' = proto_key)) as [->|Hl'].
  { intros [= ->]. rewrite decide_False; [done|]. by intros [= ?]. }
  destruct (lookup_own lang' data) as [d'|] eqn:Ed; [|done]. intros [= <-].
  destruct (decide (lang' = lang)) as [->|Hne].
  - rewrite decide_True by done. rewrite Ed. intros [= ->].
    by rewrite lookup_own_upsert.
  - rewrite decide_False by (by intros [= ?]).
    by rewrite lookup_own_upsert_ne.
Qed.

Lemma keys_replay ws d :
  keys (replay ws d)
  = foldl (λ acc k, if decide (k ∈ acc) then acc else acc ++ [k]) (keys d)
          (filter (λ k, k ≠ proto_key) ws.*1).
Proof.
  revert d. induction ws as [|[k x] ws IH]; intros d; [done|].
  unfold replay in *. cbn [foldl fmap list_fmap fst snd].
  rewrite IH. unfold set_string.
  destruct (decide (k = proto_key)) as [->|Hk].
  - by rewrite filter_cons_False by (by intros ?).
  - rewrite filter_cons_True by done. cbn [foldl].
    destruct (decide (k ∈ keys d)).
    + by rewrite keys_upsert_present.
    + by rewrite keys_upsert_absent.
Qed.

(** X16.  A dictionary is the assignments of its language, replayed in
    the order of the scan: the dictionary of a language after the row
    loop is what the assignments [d[key] = value] of the cells in the
    columns of that language give, row by row and column by column,
    from the empty object.  Its keys are therefore in the order of their
    first occurrence in the sheet, and, when none is an array index, so
    are the members of the file. *)
Theorem dictionary_replays_writes sh end_row st cat lang d :
  accumulate sh end_row = Some st →
  lookup_own lang (data_of cat st) = Some d →
  d = replay (language_writes sh end_row cat lang) []
  ∧ keys d
    = first_seen (filter (λ k, k ≠ proto_key)
                    (language_writes sh end_row cat lang).*1)
  ∧ (Forall (λ e, array_index e.1 = None) d →
     keys (entries d)
     = first_seen (filter (λ k, k ≠ proto_key)
                     (language_writes sh end_row cat lang).*1)).
Proof.
  intros Hacc Hd.
  assert (lang ≠ proto_key) as Hl.
  { intros ->. apply lookup_own_Some_keys in Hd.
    destruct (accumulate_keys sh end_row) as (st' & Hacc' & Hk).
    rewrite Hacc in Hacc'. injection Hacc' as <-. rewrite Hk in Hd.
    by apply init_langs_keys in Hd as [_ ?]. }
  assert (d = replay (language_writes sh end_row cat lang) []) as Hrep.
  { destruct (accumulate_keys sh end_row) as (st' & Hacc' & Hk).
    rewrite Hacc in Hacc'. injection Hacc' as <-.
    pose proof (lookup_own_Some_keys _ _ _ Hd) as Hin. rewrite Hk in Hin.
    destruct (lookup_own_is_Some _ _ Hin) as [d0 Hd0].
    assert (d0 = []) as ->.
    { apply lookup_own_elem in Hd0.
      pose proof (init_langs_empty (headerRow sh) (cols_of cat)) as Hall.
      rewrite Forall_forall in Hall. by apply Hall in Hd0. }
    unfold accumulate in Hacc.
    apply (for_each_replay _ (λ st, lookup_own lang (data_of cat st))
             (λ row, flat_map (cell_writes sh row lang) (cols_of cat))
             _ _ _ []) in Hacc.
    - unfold language_writes. rewrite Hd in Hacc. by injection Hacc.
    - intros s1 s2 row d1 _ Hstep Hd1.
      apply (process_row_data _ _ _ _ cat) in Hstep.
      apply (for_each_replay _ (lookup_own lang) (cell_writes sh row lang)
               _ _ _ d1) in Hstep; [done| |done].
      intros data1 data2 col d2 _. by apply process_cell_replay.
    - by destruct cat. }
  assert (keys d = first_seen (filter (λ k, k ≠ proto_key)
                                 (language_writes sh end_row cat lang).*1))
    as Hkeys.
  { rewrite Hrep at 1. by rewrite keys_replay. }
  split_and!; [done..|]. intros Hnamed. by rewrite entries_named.
Qed.

Lemma dictionary_replays_writes_witness :
  [(str "b", str "3"); (str "a", str "2")]
  = replay (language_writes Sample.revisited 4 Translation (str "English")) []
  ∧ keys [(str "b", str "3"); (str "a", str "2")]
    = first_seen (filter (λ k, k ≠ proto_key)
                    (language_writes Sample.revisited 4 Translation (str "English")).*1)
  ∧ (Forall (λ e, array_index e.1 = None)
       [(str "b", str "3"); (str "a", str "2")] →
     keys (entries [(str "b", str "3"); (str "a", str "2")])
     = first_seen (filter (λ k, k ≠ proto_key)
                     (language_writes Sample.revisited 4 Translation (str "English")).*1)).
Proof.
  apply (dictionary_replays_writes Sample.revisited 4
           ([(str "English", [(str "b", str "3"); (str "a", str "2")])], [])
           Translation (str "English")); vm_compute; reflexivity.
Defined.
End ReplayFacts.

(** ** The footprint of the handler *)

Section FootprintFacts.
Import JS XLSX Core Spec Node Handler Footprint.
Context `{Host}.

Lemma write_language_calls outputDir cfg fileName acc lang dict st res st' :
  write_language outputDir cfg fileName acc (lang, dict) st = (res, st') →
  ∃ cs, calls st' = calls st ++ cs
        ∧ Forall (language_call outputDir fileName lang) cs.
Proof.
  unfold write_language, bind, existsSync, mkdirSync, writeFileSync, read,
    lift, effect, ret, file_path. simpl.
  destruct (fs_existsSync _ (fs st)); simpl.
  - destruct (prettier_format _ _ _) as [e|out] eqn:Ef.
    { intros [= <- <-]. exists []. by rewrite app_nil_r. }
    destruct (fs_writeFileSync _ _ _) as [e|w']; simpl;
      intros [= <- <-]; eexists [_]; (split; [done|]);
      repeat constructor.
  - destruct (fs_mkdirSync _ _ _) as [e|w1]; simpl.
    { intros [= <- <-]. eexists [_]. split; [done|]. repeat constructor. }
    destruct (prettier_format _ _ _) as [e|out] eqn:Ef.
    { intros [= <- <-]. eexists [_]. split; [done|]. repeat constructor. }
    destruct (fs_writeFileSync _ _ _) as [e|w']; simpl;
      intros [= <- <-]; eexists [_; _]; (split; [by rewrite <- app_assoc|]);
      repeat constructor.
Qed.

Lemma write_loop_calls outputDir cfg fileName es acc st res st' :
  for_of (write_language outputDir cfg fileName) es acc st = (res, st') →
  ∃ cs, calls st' = calls st ++ cs
        ∧ Forall (λ c, ∃ lang, lang ∈ keys es
                               ∧ language_call outputDir fileName lang c) cs.
Proof.
  revert acc st. induction es as [|entry es IH]; intros acc st; simpl.
  - unfold ret. intros [= <- <-]. exists []. by rewrite app_nil_r.
  - unfold bind at 1.
    destruct (write_language _ _ _ acc entry st) as [[e|acc1] st1] eqn:E;
      destruct entry as [lang dict];
      apply write_language_calls in E as (cs1 & Hcs1 & Hall1).
    + intros [= <- <-]. exists cs1. split; [done|].
      eapply Forall_impl; [done|]. intros c Hc. exists lang. split; [by left|done].
    + intros (cs2 & Hcs2 & Hall2)%IH. exists (cs1 ++ cs2).
      split; [by rewrite Hcs2, Hcs1, app_assoc|].
      apply Forall_app. split.
      * eapply Forall_impl; [exact Hall1|]. intros c Hc. exists lang.
        split; [by left|done].
      * eapply Forall_impl; [exact Hall2|]. intros c (l & Hl & Hc). exists l.
        split; [by right|done].
Qed.

Lemma entries_keys_in {A} (o : obj A) lang : lang ∈ keys (entries o) → lang ∈ keys o.
Proof. unfold keys. by rewrite entries_perm. Qed.

Lemma export_body_calls inputFile outputDir w res st :
  export_body inputFile outputDir (State w []) = (res, st) →
  ∃ pre rest,
    calls st = pre ++ rest
    ∧ (pre = []
       ∨ (pre = [Mkdir outputDir false] ∧ fs_existsSync outputDir w = false))
    ∧ ∀ c, c ∈ rest →
        ∃ wb sh cat lang,
          XLSX_readFile inputFile w = inr wb
          ∧ Sheets wb !! sheetName = Some sh
          ∧ lang ∈ languages sh (cols_of cat) ∧ lang ≠ proto_key
          ∧ language_call outputDir (fileName_of cat) lang c.
Proof.
  assert (∀ st0 : state, calls st0 = [] →
            ∃ pre rest, calls st0 = pre ++ rest
              ∧ (pre = [] ∨ (pre = [Mkdir outputDir false]
                             ∧ fs_existsSync outputDir w = false))
              ∧ ∀ c, c ∈ rest →
                  ∃ wb sh cat lang,
                    XLSX_readFile inputFile w = inr wb
                    ∧ Sheets wb !! sheetName = Some sh
                    ∧ lang ∈ languages sh (cols_of cat) ∧ lang ≠ proto_key
                    ∧ language_call outputDir (fileName_of cat) lang c)
    as Hnone.
  { intros st0 ->. exists [], []. split_and!; [done|by left|].
    by intros c ?%elem_of_nil. }
  unfold export_body, bind at 1, read at 1. simpl.
  destruct (XLSX_readFile inputFile w) as [e|wb] eqn:Ewb.
  { intros [= <- <-]. by apply Hnone. }
  unfold bind at 1.
  destruct (Sheets wb !! sheetName) as [sh|] eqn:Esh; last first.
  { unfold throw. intros [= <- <-]. by apply Hnone. }
  unfold ret at 1. unfold bind at 1.
  destruct (ref_end_row sh) as [end_row|] eqn:Eref; last first.
  { unfold throw. intros [= <- <-]. by apply Hnone. }
  unfold ret at 1. unfold bind at 1.
  destruct (accumulate_keys sh end_row) as ([ld ed] & -> & Hk).
  unfold ret at 1. unfold bind at 1, existsSync at 1, read at 1. simpl.
  unfold bind at 1.
  set (st0 := State w []).
  assert (∃ r1 st1 pre,
            (if negb (fs_existsSync outputDir w)
             then mkdirSync outputDir false else ret ()) st0 = (r1, st1)
            ∧ calls st1 = pre
            ∧ (pre = [] ∨ (pre = [Mkdir outputDir false]
                           ∧ fs_existsSync outputDir w = false))) as Hmk.
  { destruct (fs_existsSync outputDir w); simpl.
    - eexists _, _, []. split_and!; [done..|by left].
    - unfold mkdirSync, effect. simpl.
      destruct (fs_mkdirSync outputDir false w);
        eexists _, _, _; (split_and!; [done|done|by right]). }
  destruct Hmk as (r1 & st1 & pre & -> & Hpre & Hwhy).
  assert (∀ cat lang, lang ∈ keys (entries (data_of cat (ld, ed))) →
            lang ∈ languages sh (cols_of cat) ∧ lang ≠ proto_key) as Hlangs.
  { intros cat lang Hin%entries_keys_in. rewrite Hk in Hin.
    by apply init_langs_keys in Hin. }
  destruct r1 as [e|[]].
  { intros [= <- <-]. exists pre, []. rewrite app_nil_r. split_and!; [done..|].
    by intros c ?%elem_of_nil. }
  unfold bind at 1, read at 1.
  destruct (prettier_resolveConfig (fs st1)) as [e|cfg].
  { intros [= <- <-]. exists pre, []. rewrite app_nil_r. split_and!; [done..|].
    by intros c ?%elem_of_nil. }
  unfold bind at 1.
  destruct (for_of _ (entries ld) [] st1) as [r2 st2] eqn:E1.
  apply write_loop_calls in E1 as (cs1 & Hcs1 & Hall1).
  assert (∀ c, c ∈ cs1 →
            ∃ wb' sh' cat lang,
              @inr error workbook wb = inr wb'
              ∧ Sheets wb' !! sheetName = Some sh'
              ∧ lang ∈ languages sh' (cols_of cat) ∧ lang ≠ proto_key
              ∧ language_call outputDir (fileName_of cat) lang c) as H1.
  { intros c Hc. rewrite Forall_forall in Hall1.
    destruct (Hall1 c Hc) as (lang & Hlang & Hcall).
    destruct (Hlangs Translation lang Hlang). by exists wb, sh, Translation, lang. }
  destruct r2 as [e|files1].
  { intros [= <- <-]. exists pre, cs1. rewrite Hcs1, Hpre. done. }
  unfold bind at 1.
  destruct (for_of _ (entries ed) files1 st2) as [r3 st3] eqn:E2.
  apply write_loop_calls in E2 as (cs2 & Hcs2 & Hall2).
  assert (∀ c, c ∈ cs1 ++ cs2 →
            ∃ wb' sh' cat lang,
              @inr error workbook wb = inr wb'
              ∧ Sheets wb' !! sheetName = Some sh'
              ∧ lang ∈ languages sh' (cols_of cat) ∧ lang ≠ proto_key
              ∧ language_call outputDir (fileName_of cat) lang c) as H2.
  { intros c [Hc|Hc]%elem_of_app; [by apply H1|].
    rewrite Forall_forall in Hall2.
    destruct (Hall2 c Hc) as (lang & Hlang & Hcall).
    destruct (Hlangs Eula lang Hlang). by exists wb, sh, Eula, lang. }
  assert (calls st3 = pre ++ cs1 ++ cs2) as Hcalls.
  { by rewrite Hcs2, Hcs1, Hpre, app_assoc. }
  destruct r3 as [e|files2]; unfold ret; intros [= <- <-];
    exists pre, (cs1 ++ cs2); done.
Qed.

(** X7.  The footprint of the handler, on every run, failing or not: at
    most one [mkdirSync] of the output directory, without [recursive], as
    the first call and only when [existsSync] did not find it; every other
    call makes the folder of a language of the sheet under the output
    directory, with [recursive], or writes the file of such a language in
    its folder.  Nothing is removed or renamed, and no other path is
    written. *)
Theorem calls_confined inputFile outputDir w :
  ∃ pre rest,
    calls (export_translation inputFile outputDir w).2 = pre ++ rest
    ∧ (pre = []
       ∨ (pre = [Mkdir outputDir false] ∧ fs_existsSync outputDir w = false))
    ∧ ∀ c, c ∈ rest →
        ∃ wb sh cat lang,
          XLSX_readFile inputFile w = inr wb
          ∧ Sheets wb !! sheetName = Some sh
          ∧ lang ∈ languages sh (cols_of cat) ∧ lang ≠ proto_key
          ∧ language_call outputDir (fileName_of cat) lang c.
Proof.
  unfold export_translation.
  destruct (export_body inputFile outputDir (State w [])) as [res st] eqn:E.
  apply export_body_calls in E. by destruct res.
Qed.
End FootprintFacts.

Section SharedFolder.
Import JS XLSX Core Spec Node Handler.
Context `{Host}.

(** The write of a language that has a dictionary. *)
Lemma emitted_lookup cfg outputDir fileName (es : obj (obj jsstring)) ws lang :
  Forall2 (emitted cfg outputDir fileName) es ws →
  lang ∈ keys es →
  ∃ i data, ws !! i = Some (file_path outputDir fileName lang, data)
            ∧ keys es !! i = Some lang.
Proof.
  intros Hws Hlang. unfold keys in *.
  apply list_elem_of_lookup in Hlang as [i Hi].
  rewrite list_lookup_fmap in Hi.
  destruct (es !! i) as [[l d]|] eqn:Ei; [|done]. simpl in Hi.
  injection Hi as ->.
  destruct (Forall2_lookup_l _ _ _ _ _ Hws Ei) as ([p data] & Hpd & Hp & _).
  simpl in Hp. subst p. exists i, data. split; [done|].
  by rewrite list_lookup_fmap, Ei.
Qed.

(** X8.  Two languages of a category whose folder is the same share one
    file: on success the handler writes the same path twice, the second
    write replacing what the first one stored, and [files] lists that path
    twice, so [filesCreated] counts more files than there are. *)
Theorem shared_folder_shared_file inputFile outputDir w wb sh r st cat
    lang1 lang2 :
  XLSX_readFile inputFile w = inr wb →
  Sheets wb !! sheetName = Some sh →
  export_translation inputFile outputDir w = (r, st) →
  success r = true →
  lang1 ∈ languages sh (cols_of cat) → lang2 ∈ languages sh (cols_of cat) →
  lang1 ≠ proto_key → lang2 ≠ proto_key → lang1 ≠ lang2 →
  folderName lang1 = folderName lang2 →
  ∃ i j data1 data2 createdFiles,
    i ≠ j
    ∧ writes (calls st) !! i
      = Some (file_path outputDir (fileName_of cat) lang1, data1)
    ∧ writes (calls st) !! j
      = Some (file_path outputDir (fileName_of cat) lang1, data2)
    ∧ files r = Some createdFiles
    ∧ filesCreated r = Some (length createdFiles)
    ∧ ¬ NoDup createdFiles.
Proof.
  intros Hwb Hsh Hrun Hok Hl1 Hl2 Hp1 Hp2 Hne Hfolder.
  unfold export_translation in Hrun.
  destruct (export_body inputFile outputDir (State w []))
    as [[e|createdFiles] st'] eqn:E.
  { injection Hrun as <- <-. done. }
  injection Hrun as <- <-.
  apply export_body_ok in E
    as (wb' & sh' & end_row & ld & ed & cfg & ws1 & ws2 & Hwb' & Hsh' & _
        & Hacc & Hws1 & Hws2 & Hfiles & Hwr).
  rewrite Hwb in Hwb'. injection Hwb' as <-.
  rewrite Hsh in Hsh'. injection Hsh' as <-.
  destruct (accumulate_keys sh end_row) as (acc & Hacc' & Hk).
  rewrite Hacc in Hacc'. injection Hacc' as <-.
  assert (∀ lang, lang ∈ languages sh (cols_of cat) → lang ≠ proto_key →
            lang ∈ keys (entries (data_of cat (ld, ed)))) as Hin.
  { intros lang Hl Hp. unfold keys. rewrite entries_perm.
    fold (keys (data_of cat (ld, ed))). rewrite Hk.
    by apply init_langs_keys. }
  assert (file_path outputDir (fileName_of cat) lang2
          = file_path outputDir (fileName_of cat) lang1) as Hsame.
  { unfold file_path. by rewrite Hfolder. }
  assert (∃ i j data1 data2, i ≠ j
            ∧ (ws1 ++ ws2) !! i
              = Some (file_path outputDir (fileName_of cat) lang1, data1)
            ∧ (ws1 ++ ws2) !! j
              = Some (file_path outputDir (fileName_of cat) lang1, data2))
    as (i & j & data1 & data2 & Hij & Hi & Hj).
  { destruct cat; simpl in Hin.
    - destruct (emitted_lookup _ _ _ _ _ lang1 Hws1 (Hin _ Hl1 Hp1))
        as (i & data1 & Hi & Hki).
      destruct (emitted_lookup _ _ _ _ _ lang2 Hws1 (Hin _ Hl2 Hp2))
        as (j & data2 & Hj & Hkj).
      exists i, j, data1, data2. split_and!.
      + intros ->. rewrite Hki in Hkj. by injection Hkj.
      + rewrite lookup_app_l; [done|]. by eapply lookup_lt_Some.
      + rewrite lookup_app_l; [|by eapply lookup_lt_Some]. by rewrite Hj, Hsame.
    - destruct (emitted_lookup _ _ _ _ _ lang1 Hws2 (Hin _ Hl1 Hp1))
        as (i & data1 & Hi & Hki).
      destruct (emitted_lookup _ _ _ _ _ lang2 Hws2 (Hin _ Hl2 Hp2))
        as (j & data2 & Hj & Hkj).
      exists (length ws1 + i), (length ws1 + j), data1, data2. split_and!.
      + intros Heq. assert (i = j) as -> by lia.
        rewrite Hki in Hkj. by injection Hkj.
      + by rewrite lookup_app_r, Nat.add_sub' by lia.
      + rewrite lookup_app_r, Nat.add_sub' by lia. by rewrite Hj, Hsame. }
  exists i, j, data1, data2, createdFiles. rewrite Hwr.
  split_and!; [done..|]. rewrite Hfiles. intros Hnd.
  apply Hij.
  apply (NoDup_lookup _ i j (file_path outputDir (fileName_of cat) lang1) Hnd);
    rewrite list_lookup_fmap.
  - by rewrite Hi.
  - by rewrite Hj.
Qed.
End SharedFolder.

Section SharedFolderRun.
Import JS XLSX Core Spec Node Handler.

Lemma shared_folder_shared_file_witness :
  ∃ i j data1 data2 createdFiles,
    i ≠ j
    ∧ writes (calls (@export_translation Sample.host (str "/in.xlsx")
                       (str "/out") (Sample.disk_with Sample.shared_folder)).2)
        !! i
      = Some (@file_path Sample.host (str "/out") (fileName_of Translation)
                (str "Chinese Simplified"), data1)
    ∧ writes (calls (@export_translation Sample.host (str "/in.xlsx")
                       (str "/out") (Sample.disk_with Sample.shared_folder)).2)
        !! j
      = Some (@file_path Sample.host (str "/out") (fileName_of Translation)
                (str "Chinese Simplified"), data2)
    ∧ files (@export_translation Sample.host (str "/in.xlsx") (str "/out")
               (Sample.disk_with Sample.shared_folder)).1 = Some createdFiles
    ∧ filesCreated (@export_translation Sample.host (str "/in.xlsx")
                      (str "/out") (Sample.disk_with Sample.shared_folder)).1
      = Some (length createdFiles)
    ∧ ¬ NoDup createdFiles.
Proof.
  apply (@shared_folder_shared_file Sample.host (str "/in.xlsx") (str "/out")
           (Sample.disk_with Sample.shared_folder)
           (Workbook {[ sheetName := Sample.shared_folder ]})
           Sample.shared_folder _ _ Translation
           (str "Chinese Simplified") (str "Chinese Traditional")).
  - vm_compute. reflexivity.
  - vm_compute. reflexivity.
  - by destruct (export_translation _ _ _).
  - vm_compute. reflexivity.
  - vm_compute. by left.
  - vm_compute. right. by left.
  - discriminate.
  - discriminate.
  - discriminate.
  - vm_compute. reflexivity.
Defined.
End SharedFolderRun.

Section PrefixFacts.
Import JS XLSX Core Spec Node Handler Footprint.
Context `{Host}.

(** The [writeFileSync] calls of a run of the [try] block: none when it
    throws before the loops, and otherwise those of the first files of
    the export, in order, all of them when it returns. *)
Lemma export_body_writes inputFile outputDir w res st :
  export_body inputFile outputDir (State w []) = (res, st) →
  (∃ e, res = inl e ∧ writes (calls st) = [])
  ∨ ∃ sh end_row ld ed w1 cfg,
      opened inputFile w sh end_row
      ∧ accumulate sh end_row = Some (ld, ed)
      ∧ made outputDir false w w1
      ∧ prettier_resolveConfig w1 = inr cfg
      ∧ Forall2 (emitted_job cfg outputDir)
          (take (length (writes (calls st))) (jobs ld ed))
          (writes (calls st))
      ∧ (∀ files, res = inr files →
           length (writes (calls st)) = length (jobs ld ed)).
Proof.
  unfold export_body, bind at 1, read at 1. simpl.
  destruct (XLSX_readFile inputFile w) as [e|wb] eqn:Ewb.
  { intros [= <- <-]. left. by exists e. }
  unfold bind at 1.
  destruct (Sheets wb !! sheetName) as [sh|] eqn:Esh; last first.
  { unfold throw. intros [= <- <-]. left. by eexists. }
  unfold ret at 1. unfold bind at 1.
  destruct (ref_end_row sh) as [end_row|] eqn:Eref; last first.
  { unfold throw. intros [= <- <-]. left. by eexists. }
  assert (opened inputFile w sh end_row) as Hop by by exists wb.
  unfold ret at 1. unfold bind at 1.
  destruct (accumulate sh end_row) as [[ld ed]|] eqn:Eacc; last first.
  { unfold throw. intros [= <- <-]. left. by eexists. }
  unfold ret at 1. unfold bind at 1, existsSync at 1, read at 1. simpl.
  unfold bind at 1.
  set (st1 := State w []).
  assert (∃ r1 st2, (if negb (fs_existsSync outputDir w)
                     then mkdirSync outputDir false else ret ()) st1
                    = (r1, st2) ∧ writes (calls st2) = []
                    ∧ (r1 = inr () → made outputDir false w (fs st2)))
    as (r1 & st2 & -> & Hw0 & Hmade).
  { destruct (fs_existsSync outputDir w) eqn:Ex; simpl.
    - eexists _, _. split_and!; [done..|]. intros _. by left.
    - unfold mkdirSync, effect. simpl.
      destruct (fs_mkdirSync outputDir false w) eqn:Em;
        eexists _, _; (split_and!; [done..|]); [done|].
      intros _. by right. }
  destruct r1 as [e|[]].
  { intros [= <- <-]. left. by exists e. }
  specialize (Hmade eq_refl).
  unfold bind at 1, read at 1.
  destruct (prettier_resolveConfig (fs st2)) as [e|cfg] eqn:Ec.
  { intros [= <- <-]. left. by exists e. }
  unfold bind at 1.
  destruct (for_of _ (entries ld) [] st2) as [r2 st3] eqn:E1.
  apply write_loop_writes in E1 as (ws1 & Hw1 & Hws1 & Hlen1).
  rewrite Hw0 in Hw1. simpl in Hw1.
  destruct r2 as [e|files1].
  { intros [= <- <-]. right. exists sh, end_row, ld, ed, (fs st2), cfg.
    split_and!; [done..| |done].
    rewrite Hw1. unfold jobs.
    rewrite take_app_le
      by (rewrite length_map, <- (Forall2_length _ _ _ Hws1), length_take; lia).
    rewrite <- fmap_take. by apply Forall2_fmap_l. }
  specialize (Hlen1 _ eq_refl). unfold bind at 1.
  destruct (for_of _ (entries ed) files1 st3) as [r3 st4] eqn:E2.
  apply write_loop_writes in E2 as (ws2 & Hw2 & Hws2 & Hlen2).
  rewrite Hw1 in Hw2.
  intros Hrun.
  assert (st4 = st ∧ ∀ files, res = inr files → ∃ files2, r3 = inr files2)
    as [-> Hr3].
  { destruct r3; unfold ret in Hrun; injection Hrun as <- <-; split; try done.
    intros files _. by eexists. }
  right. exists sh, end_row, ld, ed, (fs st2), cfg.
  split_and!; [done..| |].
  - rewrite Hw2. unfold jobs. rewrite length_app, take_app_ge
      by (rewrite length_map; lia).
    rewrite Hlen1, firstn_all in Hws1.
    apply Forall2_app; [by apply Forall2_fmap_l|].
    rewrite length_map. replace (length ws1 + length ws2 - length (entries ld))
      with (length ws2) by lia.
    rewrite <- fmap_take. by apply Forall2_fmap_l.
  - intros files Hfiles. destruct (Hr3 _ Hfiles) as [files2 ->].
    rewrite Hw2. unfold jobs. rewrite !length_app, !length_map.
    by rewrite (Hlen2 _ eq_refl), Hlen1.
Qed.

(** X17.  The files of every run.  Either a step before the loops threw,
    the result is the failure with its error and no file was written; or
    the run reached the loops, and the [writeFileSync] calls it issued
    are those of the first files of the export, in the order of the two
    loops, none skipped, each with the text the formatter returned.  On
    success these are all the files.  On a failure in the iteration that
    follows [k] completed ones, they are the files of these [k]
    iterations and at most the one the failing iteration was writing: a
    failure stops the export and leaves the files before it written. *)
Theorem writes_are_a_prefix inputFile outputDir w r st :
  export_translation inputFile outputDir w = (r, st) →
  (∃ e, r = Result false e None None
        ∧ raised inputFile outputDir w e 0
        ∧ writes (calls st) = [])
  ∨ ∃ sh end_row ld ed w1 cfg,
      opened inputFile w sh end_row
      ∧ accumulate sh end_row = Some (ld, ed)
      ∧ made outputDir false w w1
      ∧ prettier_resolveConfig w1 = inr cfg
      ∧ Forall2 (emitted_job cfg outputDir)
          (take (length (writes (calls st))) (jobs ld ed))
          (writes (calls st))
      ∧ ((success r = true
          ∧ length (writes (calls st)) = length (jobs ld ed))
         ∨ ∃ e k, r = Result false e None None
                  ∧ raised inputFile outputDir w e k
                  ∧ k ≤ length (writes (calls st)) ≤ S k).
Proof.
  unfold export_translation.
  pose proof (export_body_run inputFile outputDir w) as Hrun.
  destruct (export_body inputFile outputDir (State w [])) as [res st0] eqn:E.
  apply export_body_writes in E.
  destruct res as [e|files]; intros [= <- <-].
  - destruct Hrun as (k & Hk & Hn).
    destruct E as [(e' & _ & Hw)|(sh & r & ld & ed & w1 & cfg & ? & ? & ? & ?
                                   & Hall & _)].
    + left. exists e. split_and!; [done| |done].
      rewrite Hw in Hn. simpl in Hn. by replace k with 0 in Hk by lia.
    + right. exists sh, r, ld, ed, w1, cfg. split_and!; [done..|].
      right. by exists e, k.
  - destruct E as [(e' & ? & _)|(sh & r & ld & ed & w1 & cfg & ? & ? & ? & ?
                                  & Hall & Hlen)]; [done|].
    right. exists sh, r, ld, ed, w1, cfg. split_and!; [done..|].
    left. split; [done|]. by eapply Hlen.
Qed.
End PrefixFacts.

Section PrefixRun.
Import JS XLSX Core Spec Node Handler Footprint.

Lemma writes_are_a_prefix_witness :
  (∃ e,
     (@export_translation Sample.host (str "/in.xlsx") (str "/out")
        (Sample.disk_with Sample.broken_second)).1 = Result false e None None
     ∧ @raised Sample.host (str "/in.xlsx") (str "/out")
         (Sample.disk_with Sample.broken_second) e 0
     ∧ writes (calls (@export_translation Sample.host (str "/in.xlsx")
                        (str "/out") (Sample.disk_with Sample.broken_second)).2)
       = [])
  ∨ ∃ sh end_row ld ed w1 cfg,
      @opened Sample.host (str "/in.xlsx")
        (Sample.disk_with Sample.broken_second) sh end_row
      ∧ accumulate sh end_row = Some (ld, ed)
      ∧ @made Sample.host (str "/out") false
          (Sample.disk_with Sample.broken_second) w1
      ∧ @prettier_resolveConfig Sample.host w1 = inr cfg
      ∧ Forall2 (@emitted_job Sample.host cfg (str "/out"))
          (take (length (writes (calls (@export_translation Sample.host
                                          (str "/in.xlsx") (str "/out")
                                          (Sample.disk_with
                                             Sample.broken_second)).2)))
                (jobs ld ed))
          (writes (calls (@export_translation Sample.host (str "/in.xlsx")
                            (str "/out")
                            (Sample.disk_with Sample.broken_second)).2))
      ∧ ((success (@export_translation Sample.host (str "/in.xlsx")
                     (str "/out") (Sample.disk_with Sample.broken_second)).1
          = true
          ∧ length (writes (calls (@export_translation Sample.host
                                     (str "/in.xlsx") (str "/out")
                                     (Sample.disk_with
                                        Sample.broken_second)).2))
            = length (jobs ld ed))
         ∨ ∃ e k,
             (@export_translation Sample.host (str "/in.xlsx") (str "/out")
                (Sample.disk_with Sample.broken_second)).1
             = Result false e None None
             ∧ @raised Sample.host (str "/in.xlsx") (str "/out")
                 (Sample.disk_with Sample.broken_second) e k
             ∧ k ≤ length (writes (calls (@export_translation Sample.host
                                            (str "/in.xlsx") (str "/out")
                                            (Sample.disk_with
                                               Sample.broken_second)).2))
               ≤ S k).
Proof.
  apply (@writes_are_a_prefix Sample.host (str "/in.xlsx") (str "/out")
           (Sample.disk_with Sample.broken_second)).
  by destruct (export_translation _ _ _).
Defined.

(** The run on the sheet [broken_second]: the file of English is
    written, the text built for Italian is refused by the formatter, and
    the export fails with the first file left in place. *)
Example failure_leaves_first_file :
  (@export_translation Sample.host (str "/in.xlsx") (str "/out")
     (Sample.disk_with Sample.broken_second)).1
  = Result false (str "SyntaxError: Unexpected token") None None
  ∧ calls (@export_translation Sample.host (str "/in.xlsx") (str "/out")
             (Sample.disk_with Sample.broken_second)).2
    = [Mkdir (str "/out/en") true;
       WriteFile (str "/out/en/translation.json")
         (str "{" ++ [LF] ++ str "  " ++ Sample.pair_text (str "hello") (str "Hi")
            ++ [LF] ++ str "}" ++ [LF]);
       Mkdir (str "/out/ita") true]
  ∧ Sample.is_file [str "out"; str "en"; str "translation.json"]
      (fs (@export_translation Sample.host (str "/in.xlsx") (str "/out")
             (Sample.disk_with Sample.broken_second)).2)
    = true.
Proof. split_and!; vm_compute; reflexivity. Qed.
End PrefixRun.

(** ** The page *)

Section RendererFacts.
Import Dialog Preload Handler Renderer.

Lemma step_consistent p e : consistent p → consistent (step p e).
Proof.
  intros Hp. pose proof Hp as [Hf Hd].
  destruct e as [|dialog|dialog| | |k o|t]; simpl.
  - unfold loaded.
    destruct (localStorage p !! savedDestinationPath) as [[|c s]|] eqn:E;
      [done| |done].
    split; simpl; [done|]. intros d [= <-]. done.
  - unfold file_selected.
    destruct (Main.select_file dialog) as [[|c s]|]; [done| |done].
    split; simpl; [|done]. intros f [= <-]. done.
  - unfold destination_selected.
    destruct (Main.select_destination dialog) as [[|c s]|]; [done| |done].
    split; simpl; [done|]. intros d [= <-]. by rewrite lookup_insert_eq.
  - split; simpl; [done|]. done.
  - unfold submitted.
    destruct (selectedFilePath p) as [[|c s]|] eqn:E1; [done| |done].
    destruct (selectedDestPath p) as [[|c' s']|] eqn:E2; split; simpl;
      rewrite ?E1, ?E2; done.
  - destruct (suspended p !! k); [|done]. split; simpl; done.
  - split; simpl; done.
Qed.

Lemma run_consistent p events : consistent p → consistent (run p events).
Proof.
  revert p. induction events as [|e events IH]; intros p Hp; [done|].
  simpl. apply IH. by apply step_consistent.
Qed.

Lemma started_consistent doc : consistent (started doc).
Proof. split; simpl; done. Qed.

Lemma step_restorable p e : restorable p → restorable (step p e).
Proof.
  intros Hp. destruct e as [|dialog|dialog| | |k o|t]; simpl.
  - unfold loaded.
    destruct (localStorage p !! savedDestinationPath) as [[|c s]|] eqn:E;
      [done| |done].
    intros d. simpl. rewrite E. by intros [= <-].
  - unfold file_selected.
    destruct (Main.select_file dialog) as [[|c s]|]; done.
  - unfold destination_selected.
    destruct (Main.select_destination dialog) as [[|c s]|]; [done| |done].
    intros d. simpl. rewrite lookup_insert_eq. by intros [= <-].
  - intros d. simpl. by rewrite lookup_delete_eq.
  - unfold submitted.
    destruct (selectedFilePath p) as [[|c s]|]; [done| |done].
    destruct (selectedDestPath p) as [[|c' s']|] eqn:E2; try done.
    intros d Hs Hne. simpl in *. rewrite <- E2. by apply Hp.
  - destruct (suspended p !! k); [|done]. done.
  - done.
Qed.

Lemma run_restorable p events : restorable p → restorable (run p events).
Proof.
  revert p. induction events as [|e events IH]; intros p Hp; [done|].
  simpl. apply IH. by apply step_restorable.
Qed.

Lemma loaded_restorable p : restorable (loaded p).
Proof.
  unfold loaded.
  destruct (localStorage p !! savedDestinationPath) as [[|c s]|] eqn:E.
  - intros d. rewrite E. by intros [= <-].
  - intros d. simpl. rewrite E. by intros [= <-].
  - intros d. by rewrite E.
Qed.

(** X9.  Whatever happens on the page, a selected file is a path that is
    not empty and the file field shows it; a selected destination is a
    path that is not empty, the destination field shows it and the
    storage holds it under [savedDestinationPath]. *)
Theorem selection_shown_and_saved doc events :
  (∀ f, selectedFilePath (run (started doc) events) = Some f →
        f ≠ [] ∧ inputFileField (run (started doc) events) = f)
  ∧ (∀ d, selectedDestPath (run (started doc) events) = Some d →
          d ≠ [] ∧ destinationField (run (started doc) events) = d
          ∧ localStorage (run (started doc) events) !! savedDestinationPath
            = Some d).
Proof. apply run_consistent, started_consistent. Qed.

(** X10.  The destination survives the session: a page started on the
    storage an earlier page left, once loaded, has the destination that
    page had at its end, selected or not. *)
Theorem destination_restored doc events next :
  localStorage next
  = localStorage (run (started doc) (DOMContentLoaded :: events)) →
  selectedDestPath (run (started next) [DOMContentLoaded])
  = selectedDestPath (run (started doc) (DOMContentLoaded :: events)).
Proof.
  intros Hst. set (p := run (started doc) (DOMContentLoaded :: events)) in *.
  assert (consistent p) as [_ Hd] by apply run_consistent, started_consistent.
  assert (restorable p) as Hr
    by apply (run_restorable (loaded (started doc)) events), loaded_restorable.
  simpl. unfold loaded. simpl. rewrite Hst.
  destruct (selectedDestPath p) as [d|] eqn:E.
  - destruct (Hd d eq_refl) as (Hne & _ & ->). by destruct d.
  - destruct (localStorage p !! savedDestinationPath) as [[|c s]|] eqn:E';
      [done| |done].
    rewrite (Hr (c :: s) E') in E; done.
Qed.

Lemma destination_restored_witness :
  selectedDestPath
    (run (started (Page None None [] [] (str "FD") false (str "Export to locales")
                        {[ savedDestinationPath := str "/out" ]} [] []))
         [DOMContentLoaded])
  = Some (str "/out").
Proof.
  apply (destination_restored
           (Page None None [] [] (str "FD") false (str "Export to locales")
                 ∅ [] [])
           [SelectDestination (λ _, Returned false [str "/out"])]
           (Page None None [] [] (str "FD") false (str "Export to locales")
                 {[ savedDestinationPath := str "/out" ]} [] [])).
  vm_compute. reflexivity.
Defined.



(** X12.  A submit without a file or without a destination shows one
    alert and does nothing else: nothing is invoked and the button stays
    as it is.  The alert asks for the file when the file is missing,
    for the destination otherwise. *)
Theorem submit_without_selection_only_alerts doc events :
  selectedFilePath (run (started doc) events) = None
  ∨ selectedDestPath (run (started doc) events) = None →
  step (run (started doc) events) Submit
  = alert (match selectedFilePath (run (started doc) events) with
           | None => str "Please select an input file"
           | Some _ => str "Please select a destination folder"
           end)
          (run (started doc) events).
Proof.
  set (p := run (started doc) events).
  assert (consistent p) as [Hf Hd] by apply run_consistent, started_consistent.
  intros Hnone. simpl. unfold submitted.
  destruct (selectedFilePath p) as [[|c s]|] eqn:E1.
  - by destruct (Hf [] eq_refl).
  - destruct Hnone as [? | ->]; done.
  - done.
Qed.

Lemma submit_without_selection_only_alerts_witness :
  step (run (started (Page None None [] [] (str "FD") false
                           (str "Export to locales") ∅ [] []))
            [DOMContentLoaded;
             SelectFile (λ _, Returned false [str "/in.xlsx"])])
       Submit
  = Page (Some (str "/in.xlsx")) None (str "/in.xlsx") [] (str "FD") false
         (str "Export to locales") ∅
         [str "Please select a destination folder"] [].
Proof.
  refine (submit_without_selection_only_alerts
            (Page None None [] [] (str "FD") false (str "Export to locales")
                  ∅ [] [])
            [DOMContentLoaded;
             SelectFile (λ _, Returned false [str "/in.xlsx"])] _).
  right. reflexivity.
Defined.

Lemma step_carries p e :
  Forall carries_paths (suspended p) →
  Forall carries_paths (suspended (step p e)).
Proof.
  intros Hp. destruct e as [|dialog|dialog| | |k o|t]; simpl.
  - unfold loaded.
    by destruct (localStorage p !! savedDestinationPath) as [[|c s]|].
  - unfold file_selected.
    by destruct (Main.select_file dialog) as [[|c s]|].
  - unfold destination_selected.
    by destruct (Main.select_destination dialog) as [[|c s]|].
  - done.
  - unfold submitted.
    destruct (selectedFilePath p) as [[|c s]|]; [done| |done].
    destruct (selectedDestPath p) as [[|c' s']|]; [done| |done]. simpl.
    apply Forall_app. split; [done|]. constructor; [|done].
    by exists (c :: s), (c' :: s').
  - destruct (suspended p !! k); [|done]. simpl.
    rewrite Forall_forall in *. intros x Hx. apply Hp.
    by eapply list_subseteq_delete.
  - done.
Qed.

(** X13.  Every export waiting for its answer was invoked on the channel
    [export-translation] with two arguments, a file and a destination,
    none empty; the template the renderer passes is not among them; and
    the main process answers by the export of that file to that
    destination. *)
Theorem exports_carry_both_paths `{Node.Host} doc events c w :
  c ∈ suspended (run (started doc) events) →
  ∃ inputFile outputDir,
    inputFile ≠ [] ∧ outputDir ≠ []
    ∧ invoked c = Invoke (str "export-translation") [inputFile; outputDir]
    ∧ Main.handled (invoked c) w = Some (export_translation inputFile outputDir w).
Proof.
  assert (∀ p, Forall carries_paths (suspended p) →
               Forall carries_paths (suspended (run p events))) as Hrun.
  { induction events as [|e events IH]; intros p Hp; [done|].
    simpl. apply IH. by apply step_carries. }
  specialize (Hrun (started doc) (Forall_nil_2 _)).
  rewrite Forall_forall in Hrun. intros (f & d & Hc & Hf & Hd)%Hrun.
  exists f, d. split_and!; [done..|]. by rewrite Hc.
Qed.

Lemma exports_carry_both_paths_witness :
  ∃ inputFile outputDir,
    inputFile ≠ [] ∧ outputDir ≠ []
    ∧ Invoke (str "export-translation") [str "/in.xlsx"; str "/out"]
      = Invoke (str "export-translation") [inputFile; outputDir]
    ∧ @Main.handled Sample.host
        (Invoke (str "export-translation") [str "/in.xlsx"; str "/out"])
        (Sample.disk_with Sample.greetings)
      = Some (@export_translation Sample.host inputFile outputDir
                (Sample.disk_with Sample.greetings)).
Proof.
  apply (@exports_carry_both_paths Sample.host
           (Page None None [] [] (str "FD") false (str "Export to locales")
                 ∅ [] [])
           [DOMContentLoaded;
            SelectFile (λ _, Returned false [str "/in.xlsx"]);
            SelectDestination (λ _, Returned false [str "/out"]);
            Submit]
           (Pending (Invoke (str "export-translation")
                            [str "/in.xlsx"; str "/out"])
                    (str "Export to locales"))
           (Sample.disk_with Sample.greetings)).
  vm_compute. left.
Defined.

(** An event other than a submit and its settling leaves the export
    button and the suspended handlers as they are. *)
Lemma quiet_step p e :
  exporting e = false →
  exportBtn_disabled (step p e) = exportBtn_disabled p
  ∧ exportBtn_textContent (step p e) = exportBtn_textContent p
  ∧ suspended (step p e) = suspended p.
Proof.
  destruct e as [|dialog|dialog| | |k o|t]; simpl; try done; intros _.
  - unfold loaded.
    by destruct (localStorage p !! savedDestinationPath) as [[|c s]|].
  - unfold file_selected.
    by destruct (Main.select_file dialog) as [[|c s]|].
  - unfold destination_selected.
    by destruct (Main.select_destination dialog) as [[|c s]|].
Qed.

Lemma quiet_run p events :
  Forall (λ e, exporting e = false) events →
  exportBtn_disabled (run p events) = exportBtn_disabled p
  ∧ exportBtn_textContent (run p events) = exportBtn_textContent p
  ∧ suspended (run p events) = suspended p.
Proof.
  intros Hq. revert p. induction Hq as [|e events He _ IH]; intros p; [done|].
  simpl. destruct (IH (step p e)) as (-> & -> & ->). by apply quiet_step.
Qed.

Lemma delete_length_snoc {A} (l : list A) x : delete (length l) (l ++ [x]) = l.
Proof. induction l as [|y l IH]; [done|]. cbn. by f_equal. Qed.

Lemma run_snoc p events e : run p (events ++ [e]) = step (run p events) e.
Proof. unfold run. by rewrite foldl_app. Qed.

(** X14.  A round of export.  With a file and a destination selected, a
    submit suspends one invocation carrying these two and disables the
    button with the text [Exporting...]; whatever picking or clearing
    happens meanwhile, when the invocation settles, resolved or rejected,
    one alert is shown, on the destination selected at that moment, and
    the [finally] block enables the button and gives it its text back. *)
Theorem export_round p f d between o :
  selectedFilePath p = Some f → f ≠ [] →
  selectedDestPath p = Some d → d ≠ [] →
  Forall (λ e, exporting e = false) between →
  suspended (run p (Submit :: between))
  = suspended p
    ++ [Pending (Invoke (str "export-translation") [f; d])
                (exportBtn_textContent p)]
  ∧ exportBtn_disabled (run p (Submit :: between)) = true
  ∧ exportBtn_textContent (run p (Submit :: between)) = str "Exporting..."
  ∧ exportBtn_disabled
      (run p (Submit :: between ++ [ExportSettled (length (suspended p)) o]))
    = false
  ∧ exportBtn_textContent
      (run p (Submit :: between ++ [ExportSettled (length (suspended p)) o]))
    = exportBtn_textContent p
  ∧ suspended
      (run p (Submit :: between ++ [ExportSettled (length (suspended p)) o]))
    = suspended p
  ∧ alerts
      (run p (Submit :: between ++ [ExportSettled (length (suspended p)) o]))
    = alerts (run p (Submit :: between))
      ++ [report o (selectedDestPath (run p (Submit :: between)))].
Proof.
  intros Hf Hfne Hd Hdne Hq.
  destruct f as [|c s]; [done|]. destruct d as [|c' s']; [done|].
  assert (suspended (step p Submit)
          = suspended p
            ++ [Pending (Invoke (str "export-translation") [c :: s; c' :: s'])
                        (exportBtn_textContent p)]
          ∧ exportBtn_disabled (step p Submit) = true
          ∧ exportBtn_textContent (step p Submit) = str "Exporting...")
    as (Hs & Hb & Ht).
  { simpl. unfold submitted. by rewrite Hf, Hd. }
  change (run p (Submit :: between ++ [ExportSettled (length (suspended p)) o]))
    with (run (step p Submit)
              (between ++ [ExportSettled (length (suspended p)) o])).
  change (run p (Submit :: between)) with (run (step p Submit) between).
  rewrite run_snoc.
  destruct (quiet_run (step p Submit) between Hq) as (Hb' & Ht' & Hs').
  set (q := run (step p Submit) between) in *.
  rewrite Hs, Hb, Ht in *.
  assert (suspended q !! length (suspended p)
          = Some (Pending (Invoke (str "export-translation")
                                  [c :: s; c' :: s'])
                          (exportBtn_textContent p))) as Hk.
  { by rewrite Hs', lookup_app_r, Nat.sub_diag by done. }
  simpl. rewrite Hk. simpl. split_and!; [done..| |done].
  rewrite Hs'. apply delete_length_snoc.
Qed.

Lemma export_round_witness :
  alerts
    (run (Page (Some (str "/in.xlsx")) (Some (str "/out")) (str "/in.xlsx")
               (str "/out") (str "FD") false (str "Export to locales")
               {[ savedDestinationPath := str "/out" ]} [] [])
         [Submit; ClearDestination;
          ExportSettled 0 (Rejected (str "No handler registered"))])
  = [str "Export error: No handler registered"].
Proof.
  refine (proj2 (proj2 (proj2 (proj2 (proj2 (proj2
    (export_round
       (Page (Some (str "/in.xlsx")) (Some (str "/out")) (str "/in.xlsx")
             (str "/out") (str "FD") false (str "Export to locales")
             {[ savedDestinationPath := str "/out" ]} [] [])
       (str "/in.xlsx") (str "/out") [ClearDestination]
       (Rejected (str "No handler registered")) _ _ _ _ _))))))).
  - reflexivity.
  - discriminate.
  - reflexivity.
  - discriminate.
  - repeat constructor.
Defined.
End RendererFacts.

Section AlertFacts.
Import JS XLSX Core Spec Dialog Preload Node Handler Renderer.
Context `{Host}.

(** X15.  What the page shows of an export.  When no step of the
    handler throws, the alert is the message of success, the number of
    files, which is the number of dictionaries of the two objects (never
    [undefined]), and the destination.  When a step throws, the alert is
    [Export failed] with the message of the error of that step. *)
Theorem export_alert inputFile outputDir w selected :
  (∃ createdFiles sh end_row ld ed,
     (export_translation inputFile outputDir w).1
     = Result true (str "Export completed successfully!")
         (Some (length createdFiles)) (Some createdFiles)
     ∧ completed inputFile outputDir w
         (fs (export_translation inputFile outputDir w).2)
     ∧ opened inputFile w sh end_row
     ∧ accumulate sh end_row = Some (ld, ed)
     ∧ report (Resolved (export_translation inputFile outputDir w).1) selected
       = str "Export completed successfully!" ++ [LF; LF]
         ++ str "Files created: " ++ str (pretty (length ld + length ed))
         ++ [LF] ++ str "Destination: " ++ shown_path selected)
  ∨ (∃ e k,
       (export_translation inputFile outputDir w).1 = Result false e None None
       ∧ raised inputFile outputDir w e k
       ∧ report (Resolved (export_translation inputFile outputDir w).1) selected
         = str "Export failed: " ++ e).
Proof.
  unfold export_translation.
  pose proof (export_body_run inputFile outputDir w) as Hrun.
  destruct (export_body inputFile outputDir (State w []))
    as [[e|createdFiles] st] eqn:E.
  - right. destruct Hrun as (k & Hk & _). by exists e, k.
  - left. apply export_body_ok in E
      as (wb & sh & end_row & ld & ed & cfg & ws1 & ws2 & Hwb & Hsh & Href
          & Hacc & Hws1 & Hws2 & -> & _).
    exists ((ws1 ++ ws2).*1), sh, end_row, ld, ed.
    split_and!; [done|done|by exists wb|done|]. simpl.
    rewrite length_fmap, length_app.
    rewrite <- (Forall2_length _ _ _ Hws1), <- (Forall2_length _ _ _ Hws2).
    by rewrite !entries_length.
Qed.
End AlertFacts.

(** ** The windows *)

Section AppFacts.
Import Node App.
Context `{Host}.

Lemma step_single dirname platform a e :
  single dirname platform a → single dirname platform (step dirname platform a e).
Proof.
  intros Ha. pose proof Ha as (Hw & Hn & Hq). unfold step.
  destruct (quit a) eqn:Equit; [exact Ha|].
  destruct e as [| |k].
  - destruct (ready a) eqn:Er; [exact Ha|].
    destruct (Hn eq_refl) as [Hnil _]. unfold createWindow. simpl.
    rewrite Hnil. split_and!; [by right|done|done].
  - destruct (ready a) eqn:Er; simpl; [|exact Ha].
    destruct (bool_decide_reflect (length (windows a) = 0)) as [Hl|Hl];
      [|exact Ha].
    apply nil_length_inv in Hl. unfold createWindow. rewrite Hl, Er, Equit.
    simpl. split_and!; [by right|done|done].
  - destruct (windows a !! k) as [win|] eqn:Ek; [|exact Ha].
    destruct Hw as [Hw|Hw]; [by rewrite Hw in Ek|].
    rewrite Hw in *. destruct k as [|k]; [|done]. simpl.
    split_and!; simpl; [by left| |].
    + intros Er. by destruct (Hn Er).
    + intros _ _ Hp. by rewrite bool_decide_eq_false_2.
Qed.

(** X18.  The application never has two windows: whatever the order of
    readiness, activations and closings, at most one window is open, and
    it is the one [createWindow] makes (800 by 600, the preload script,
    context isolation on, Node integration off, [index.html]).  On a
    platform other than [darwin], an application that is ready and has
    not quit has exactly one window. *)
Theorem at_most_one_window dirname platform events :
  length (windows (run dirname platform launched events)) ≤ 1
  ∧ Forall (λ win, win = Window 800 600 (path_join dirname (str "preload.js"))
                           true false (str "index.html"))
      (windows (run dirname platform launched events))
  ∧ (platform ≠ str "darwin" →
     ready (run dirname platform launched events) = true →
     quit (run dirname platform launched events) = false →
     length (windows (run dirname platform launched events)) = 1).
Proof.
  assert (single dirname platform (run dirname platform launched events))
    as (Hw & Hn & Hq).
  { unfold run. generalize launched, (ltac:(by split_and!; [left|..])
      : single dirname platform launched).
    induction events as [|e events IH]; intros a Ha; [done|].
    simpl. apply IH. by apply step_single. }
  destruct Hw as [Hw|Hw]; rewrite Hw in *; simpl.
  - split_and!; [lia|constructor|]. intros Hp Hr Hquit.
    rewrite (Hq Hr eq_refl Hp) in Hquit. done.
  - split_and!; [done|by repeat constructor|done].
Qed.
End AppFacts.
